(** * gisim.agent: player and agent policies

    A shallow embedding of [gisim/agent.py]: the greedy dice matcher
    [AttackOnlyAgent.get_dice_idx_greedy], the single-action defaults of
    [SimpleAgent], the cursor of [MultipleActionAgent], the round-end
    default of [GenericMultipleAction] and the play-cards policy of
    [AttackOnlyAgent], followed by the properties proved about them. *)

From Stdlib Require Import List ZArith Lia Bool String Arith Permutation Sorted.
Import ListNotations.
Open Scope Z_scope.

(* ================================================================== *)
(** ** Enumerations imported by the module *)

(** Modelled from the spec: [gisim.classes.enums.ElementType] is imported by
    the module but declared elsewhere.  The members are the seven major
    elements, the Universal die [OMNI], the cost-only keys [POWER], [ANY]
    and [SAME], and [NONE] (the default character element of the matcher). *)
Inductive ElementType : Type :=
  | NONE | CRYO | HYDRO | PYRO | ELECTRO | GEO | DENDRO | ANEMO
  | OMNI | POWER | ANY | SAME.

(** Modelled from the spec: the integer [value] of each member.  The matcher
    only tests [1 <= key.value <= 7], which its comment reads as
    "7 majors elements"; every other member lies outside that range. *)
Definition value (e : ElementType) : Z :=
  match e with
  | NONE => 0 | CRYO => 1 | HYDRO => 2 | PYRO => 3 | ELECTRO => 4
  | GEO => 5 | DENDRO => 6 | ANEMO => 7
  | OMNI => 8 | POWER => 9 | ANY => 10 | SAME => 11
  end.

(** [a == b] on enum members. *)
Definition elem_eqb (a b : ElementType) : bool := value a =? value b.

Definition ElementType_eq_dec (a b : ElementType) : {a = b} + {a <> b}.
Proof. decide equality. Defined.

(** The cost keys the data model allows besides [POWER]. *)
Definition is_major (e : ElementType) : bool :=
  (1 <=? value e) && (value e <=? 7).

(* ================================================================== *)
(** ** The greedy dice matcher *)

Module Matcher.

(** The two locals the matcher mutates: [dice_idx] (the selection, in the
    order of the appends) and [used] (one flag per die). *)
Record State : Type := mkState { dice_idx : list nat; used : list bool }.

(** [used = [False for _ in dice]], [dice_idx = []]. *)
Definition init (dice : list ElementType) : State :=
  mkState [] (map (fun _ => false) dice).

(** [used[idx] = True]. *)
Fixpoint set_used (idx : nat) (u : list bool) : list bool :=
  match u, idx with
  | [], _ => []
  | _ :: u', O => true :: u'
  | b :: u', S i => b :: set_used i u'
  end.

(** [used[idx]]; the index always comes from [enumerate(dice)] and [used]
    has one flag per die, so the default is never read. *)
Definition is_used (idx : nat) (u : list bool) : bool := nth idx u false.

(** [idx in dice_idx]. *)
Definition mem (idx : nat) (l : list nat) : bool := existsb (Nat.eqb idx) l.

(** [dice_idx.append(idx); used[idx] = True]. *)
Definition take (idx : nat) (st : State) : State :=
  mkState (dice_idx st ++ [idx]) (set_used idx (used st)).

(** The scan shared by the major-element and the Any branches:
<<
    for idx, die in enumerate(dice):
        if used[idx]: continue
        if idx not in dice_idx and P(die):
            remaining -= 1; dice_idx.append(idx); used[idx] = True
            if remaining == 0: break
>>
    [idx] is the index of the head of [ds]. *)
Fixpoint scan (P : ElementType -> bool) (idx : nat) (ds : list ElementType)
              (remaining : Z) (st : State) : Z * State :=
  match ds with
  | [] => (remaining, st)
  | die :: ds' =>
      if is_used idx (used st) then scan P (S idx) ds' remaining st
      else if negb (mem idx (dice_idx st)) && P die then
        let remaining' := remaining - 1 in
        let st' := take idx st in
        if remaining' =? 0 then (remaining', st')
        else scan P (S idx) ds' remaining' st'
      else scan P (S idx) ds' remaining st
  end.

(** Branch [1 <= key.value <= 7]: exact dice first, then [OMNI];
    [None] is the early [return []]. *)
Definition step_major (dice : list ElementType) (key : ElementType) (val : Z)
                      (st : State) : option State :=
  let '(remaining, st) := scan (fun die => elem_eqb die key) 0 dice val st in
  let '(remaining, st) :=
    if 0 <? remaining
    then scan (fun die => elem_eqb die OMNI) 0 dice remaining st
    else (remaining, st) in
  if 0 <? remaining then None else Some st.

(** Branch [key == ElementType.ANY]: dice different from the character's
    element, then dice of the character's element, then [OMNI]. *)
Definition step_any (dice : list ElementType) (char_element : ElementType)
                    (val : Z) (st : State) : option State :=
  let '(remaining, st) :=
    scan (fun die => negb (elem_eqb die char_element)) 0 dice val st in
  let '(remaining, st) :=
    if 0 <? remaining
    then scan (fun die => elem_eqb die char_element) 0 dice remaining st
    else (remaining, st) in
  let '(remaining, st) :=
    if 0 <? remaining
    then scan (fun die => elem_eqb die OMNI) 0 dice remaining st
    else (remaining, st) in
  if 0 <? remaining then None else Some st.

(** *** The Same branch *)

(** [[dice[idx] for idx, die_used in enumerate(used) if not die_used]]. *)
Fixpoint unused_dice (dice : list ElementType) (idx : nat) (u : list bool)
  : list ElementType :=
  match u with
  | [] => []
  | die_used :: u' =>
      if negb die_used then nth idx dice NONE :: unused_dice dice (S idx) u'
      else unused_dice dice (S idx) u'
  end.

(** A [Counter] (and the [dict]s made from it) as an association list in
    insertion order; counting an element bumps its entry in place or
    appends a new one. *)
Definition Counts : Type := list (ElementType * Z).

Fixpoint count_one (e : ElementType) (c : Counts) : Counts :=
  match c with
  | [] => [(e, 1)]
  | (k, n) :: c' =>
      if elem_eqb k e then (k, n + 1) :: c' else (k, n) :: count_one e c'
  end.

Definition Counter (l : list ElementType) : Counts :=
  fold_left (fun c e => count_one e c) l [].

(** [key in d.keys()]. *)
Definition has_key (e : ElementType) (c : Counts) : bool :=
  existsb (fun kv => elem_eqb (fst kv) e) c.

(** [d[key]]; every key read by the matcher was inserted beforehand (a
    [Counter] answers 0 for a missing one). *)
Fixpoint get (e : ElementType) (c : Counts) : Z :=
  match c with
  | [] => 0
  | (k, n) :: c' => if elem_eqb k e then n else get e c'
  end.

(** [if key not in d.keys(): d[key] = 0]. *)
Definition ensure_key (e : ElementType) (c : Counts) : Counts :=
  if has_key e c then c else c ++ [(e, 0)].

(** [sorted(items, key=lambda item: item[1])]: stable, ascending. *)
Fixpoint insert_asc (x : ElementType * Z) (l : Counts) : Counts :=
  match l with
  | [] => [x]
  | y :: l' => if snd x <=? snd y then x :: y :: l' else y :: insert_asc x l'
  end.

Definition sorted_asc (c : Counts) : Counts := fold_right insert_asc [] c.

(** [sorted(items, key=lambda item: item[1], reverse=True)]: stable,
    descending. *)
Fixpoint insert_desc (x : ElementType * Z) (l : Counts) : Counts :=
  match l with
  | [] => [x]
  | y :: l' => if snd y <=? snd x then x :: y :: l' else y :: insert_desc x l'
  end.

Definition sorted_desc (c : Counts) : Counts := fold_right insert_desc [] c.

(** [element in [ElementType.OMNI, char_element]]. *)
Definition special (char_element element : ElementType) : bool :=
  elem_eqb element OMNI || elem_eqb element char_element.

(** Inner scan of the first strategy (an element with enough dice):
<<
    for idx, die in enumerate(dice):
        if used[idx]: continue
        if element == die:
            used[idx] = True; dice_idx.append(idx); remaining -= 1
            if remaining == 0: break
>> *)
Fixpoint scan_exact (element : ElementType) (idx : nat)
                    (ds : list ElementType) (remaining : Z) (st : State)
  : Z * State :=
  match ds with
  | [] => (remaining, st)
  | die :: ds' =>
      if is_used idx (used st) then scan_exact element (S idx) ds' remaining st
      else if elem_eqb element die then
        let st' := take idx st in
        let remaining' := remaining - 1 in
        if remaining' =? 0 then (remaining', st')
        else scan_exact element (S idx) ds' remaining' st'
      else scan_exact element (S idx) ds' remaining st
  end.

(** First loop over [sorted_counter] (ascending): the first entry that is
    not special and has [cnt >= val] is consumed; returns [satisfied]. *)
Fixpoint same_enough (dice : list ElementType) (char_element : ElementType)
                     (val : Z) (entries : Counts) (remaining : Z) (st : State)
  : bool * Z * State :=
  match entries with
  | [] => (false, remaining, st)
  | (element, cnt) :: rest =>
      if special char_element element
      then same_enough dice char_element val rest remaining st
      else if val <=? cnt then
        let '(remaining, st) := scan_exact element 0 dice remaining st in
        (true, remaining, st)
      else same_enough dice char_element val rest remaining st
  end.

(** Inner scan of the second strategy (an element topped up with OMNI):
<<
    for idx, die in enumerate(dice):
        if used[idx]: continue
        if element == die:
            other_remaining -= 1; used[idx] = True; dice_idx.append(idx)
        elif omni_remaining > 0 and die == ElementType.OMNI:
            omni_remaining -= 1; used[idx] = True; dice_idx.append(idx)
>> *)
Fixpoint scan_with_omni (element : ElementType) (idx : nat)
                        (ds : list ElementType)
                        (other_remaining omni_remaining : Z) (st : State)
  : Z * Z * State :=
  match ds with
  | [] => (other_remaining, omni_remaining, st)
  | die :: ds' =>
      if is_used idx (used st)
      then scan_with_omni element (S idx) ds' other_remaining omni_remaining st
      else if elem_eqb element die
      then scan_with_omni element (S idx) ds'
             (other_remaining - 1) omni_remaining (take idx st)
      else if (0 <? omni_remaining) && elem_eqb die OMNI
      then scan_with_omni element (S idx) ds'
             other_remaining (omni_remaining - 1) (take idx st)
      else scan_with_omni element (S idx) ds' other_remaining omni_remaining st
  end.

(** Second loop over [sorted_counter] (descending).  Special entries are
    skipped with [continue]; the body ends in an unconditional [break], so
    only the first entry that is not special is examined. *)
Fixpoint same_topped_up (dice : list ElementType) (char_element : ElementType)
                        (val omni_count : Z) (entries : Counts) (st : State)
  : bool * State :=
  match entries with
  | [] => (false, st)
  | (element, cnt) :: rest =>
      if special char_element element
      then same_topped_up dice char_element val omni_count rest st
      else if val <=? omni_count + cnt then
        let '(other_remaining, omni_remaining, st) :=
          scan_with_omni element 0 dice cnt (val - cnt) st in
        if (other_remaining =? 0) && (omni_remaining =? 0)
        then (true, st) else (false, st)
      else (false, st)
  end.

(** Inner scan of the third strategy (the character's element topped up
    with OMNI):
<<
    for idx, die in enumerate(dice):
        if used[idx]: continue
        if char_element == die:
            char_elem_remaining -= 1; used[idx] = True; dice_idx.append(idx)
        elif omni_remaining > 0 and die == ElementType.OMNI:
            omni_remaining -= 1; used[idx] = True; dice_idx.append(idx)
        if char_elem_remaining == 0 and omni_remaining == 0:
            satisfied = True; break
>> *)
Fixpoint scan_char (char_element : ElementType) (idx : nat)
                   (ds : list ElementType)
                   (char_elem_remaining omni_remaining : Z) (st : State)
  : bool * State :=
  match ds with
  | [] => (false, st)
  | die :: ds' =>
      if is_used idx (used st)
      then scan_char char_element (S idx) ds' char_elem_remaining omni_remaining st
      else
        let '(char_elem_remaining, omni_remaining, st) :=
          if elem_eqb char_element die
          then (char_elem_remaining - 1, omni_remaining, take idx st)
          else if (0 <? omni_remaining) && elem_eqb die OMNI
          then (char_elem_remaining, omni_remaining - 1, take idx st)
          else (char_elem_remaining, omni_remaining, st) in
        if (char_elem_remaining =? 0) && (omni_remaining =? 0)
        then (true, st)
        else scan_char char_element (S idx) ds' char_elem_remaining omni_remaining st
  end.

(** Branch [key == ElementType.SAME]. *)
Definition step_same (dice : list ElementType) (char_element : ElementType)
                     (val : Z) (st : State) : option State :=
  let remaining := val in
  let dice_counter := Counter (unused_dice dice 0 (used st)) in
  let dice_counter := ensure_key OMNI dice_counter in
  let dice_counter := ensure_key char_element dice_counter in
  let sorted_counter := sorted_asc dice_counter in
  let '(satisfied, remaining, st) :=
    same_enough dice char_element val sorted_counter remaining st in
  if satisfied then Some st else
  let omni_count := get OMNI sorted_counter in
  let sorted_counter := sorted_desc dice_counter in
  let '(satisfied, st) :=
    same_topped_up dice char_element val omni_count sorted_counter st in
  if satisfied then Some st else
  let char_elem_count := get char_element dice_counter in
  if val <=? char_elem_count + omni_count then
    let char_elem_remaining := Z.min char_elem_count val in
    let omni_remaining := val - char_elem_remaining in
    let '(satisfied, st) :=
      scan_char char_element 0 dice char_elem_remaining omni_remaining st in
    if satisfied then Some st else None
  else None.

(** One iteration of [for key, val in cost.items()].  A key that is neither
    a major element, [ANY] nor [SAME] matches no branch and leaves the
    state as it is. *)
Definition step_key (dice : list ElementType) (char_element : ElementType)
                    (key : ElementType) (val : Z) (st : State) : option State :=
  if (1 <=? value key) && (value key <=? 7) then step_major dice key val st
  else if elem_eqb key ANY then step_any dice char_element val st
  else if elem_eqb key SAME then step_same dice char_element val st
  else Some st.

(** The cost mapping, a [dict] iterated in insertion order. *)
Definition Cost : Type := list (ElementType * Z).

Fixpoint run_keys (dice : list ElementType) (char_element : ElementType)
                  (cost : Cost) (st : State) : option State :=
  match cost with
  | [] => Some st
  | (key, val) :: cost' =>
      match step_key dice char_element key val st with
      | None => None
      | Some st' => run_keys dice char_element cost' st'
      end
  end.

(** The matcher with its two exits told apart: [None] for an early
    [return []] (a key could not be paid), [Some dice_idx] for the final
    [return dice_idx]. *)
Definition select (dice : list ElementType) (cost : Cost)
                  (char_element : ElementType) : option (list nat) :=
  option_map dice_idx (run_keys dice char_element cost (init dice)).

(** [AttackOnlyAgent.get_dice_idx_greedy] as its callers see it. *)
Definition get_dice_idx_greedy (dice : list ElementType) (cost : Cost)
                               (char_element : ElementType) : list nat :=
  match select dice cost char_element with
  | Some idxs => idxs
  | None => []
  end.

End Matcher.

Import Matcher.


(* ================================================================== *)
(** ** Snapshots, actions and failures *)

(** Modelled from the spec: [gisim.classes.enums.CharPos], the position of
    a character slot; the module uses [CharPos.MIDDLE], [CharPos(k)] and
    [.value].  Three slots, numbered in slot order. *)
Inductive CharPos : Type := LEFT | MIDDLE | RIGHT.

Definition CharPos_value (p : CharPos) : nat :=
  match p with LEFT => 0 | MIDDLE => 1 | RIGHT => 2 end%nat.

(** [CharPos(k)]; [None] stands for the [ValueError] of an integer that is
    no member's value. *)
Definition CharPos_of (k : nat) : option CharPos :=
  match k with
  | 0 => Some LEFT | 1 => Some MIDDLE | 2 => Some RIGHT | _ => None
  end%nat.

(** Modelled from the spec: the remaining imported enumerations. *)
Inductive PlayerID : Type := PLAYER1 | PLAYER2.

(** [~player_id]. *)
Definition PlayerID_invert (p : PlayerID) : PlayerID :=
  match p with PLAYER1 => PLAYER2 | PLAYER2 => PLAYER1 end.

Inductive EntityType : Type := CHARACTER | WEAPON.

Inductive SkillType : Type := NORMAL_ATTACK | ELEMENTAL_SKILL | ELEMENTAL_BURST.

Inductive GameStatus : Type := INITIALIZING | RUNNING | ENDED.

Inductive GamePhase : Type :=
  | CHANGE_CARD | SELECT_ACTIVE_CHARACTER | ROLL_DICE | PLAY_CARDS | ROUND_END.

(** Modelled from the spec: the read-only player view of [gisim.game] as
    far as the module reads it. *)
Record CharacterEntity : Type := mkCharacterEntity {
  name : string;
  health_point : Z;
  alive : bool;
  power : Z
}.

Record CharacterInfo : Type := mkCharacterInfo { character : CharacterEntity }.

Record PlayerInfo : Type := mkPlayerInfo {
  characters : list CharacterInfo;
  active_character_position : CharPos;
  dice_zone : list ElementType;
  hand_cards : list string
}.

Record GameInfo : Type := mkGameInfo {
  status : GameStatus;
  phase : GamePhase;
  get_player_info : PlayerInfo;
  get_opponent_info : PlayerInfo
}.

(** Modelled from the spec: card metadata returned by
    [gisim.cards.characters.get_character_card].  [get_skill] is the card's
    own lookup by skill type; the module dereferences its result without a
    test, so it is taken as total. *)
Module Skill.
Record t : Type := mk { name : string; costs : Cost }.
End Skill.

Record CharacterCard : Type := mkCharacterCard {
  element_type : ElementType;
  get_skill : SkillType -> Skill.t
}.

(** Modelled from the spec: the actions of [gisim.classes.action], each
    with the keyword arguments the module passes. *)
Inductive Action : Type :=
  | ChangeCardsAction (cards_idx : list nat)
  | ChangeCharacterAction (position : CharPos) (dice_idx : list nat)
  | DeclareEndAction
  | RollDiceAction (dice_idx : list nat)
  | UseCardAction (card_idx : nat)
                  (card_target : list (PlayerID * EntityType * nat))
                  (dice_idx : list nat) (card_user_pos : CharPos)
  | UseSkillAction (user_position : CharPos) (skill_name : string)
                   (dice_idx : list nat)
                   (skill_targets : list (PlayerID * CharPos)).

(** The exceptions the modelled code can raise.  [NoActionAssigned] is the
    module's own; its message holds the [repr] of the snapshot. *)
Inductive Exn : Type :=
  | IndexError
  | KeyError
  | ValueError
  | NotImplementedError
  | NoActionAssigned (game_info : GameInfo).

Inductive result (A : Type) : Type :=
  | Return (a : A)
  | Raise (e : Exn).
Arguments Return {A} a.
Arguments Raise {A} e.

(** [l[i]] on a list, with its [IndexError]. *)
Definition index {A} (l : list A) (i : nat) : result A :=
  match nth_error l i with
  | Some a => Return a
  | None => Raise IndexError
  end.

(** The comprehension shared by the three defeated-character branches:
<<
    [CharPos(k) for k, character in enumerate(player_info.characters)
     if character.character.alive]
>> *)
Fixpoint alive_positions_from (k : nat) (cs : list CharacterInfo)
  : result (list CharPos) :=
  match cs with
  | [] => Return []
  | c :: cs' =>
      if alive (character c) then
        match CharPos_of k with
        | None => Raise ValueError
        | Some p =>
            match alive_positions_from (S k) cs' with
            | Return ps => Return (p :: ps)
            | Raise e => Raise e
            end
        end
      else alive_positions_from (S k) cs'
  end.

Definition alive_positions (cs : list CharacterInfo) : result (list CharPos) :=
  alive_positions_from 0 cs.

(* ================================================================== *)
(** ** SimpleAgent *)

Module SimpleAgent.

(** [SimpleAgent.take_action_on_round_end]: change character when the
    current one is down. *)
Definition take_action_on_round_end (game_info : GameInfo) : result Action :=
  let player_info := get_player_info game_info in
  let active_pos := active_character_position player_info in
  match index (characters player_info) (CharPos_value active_pos) with
  | Raise e => Raise e
  | Return character_info =>
      if health_point (character character_info) <=? 0 then
        match alive_positions (characters player_info) with
        | Raise e => Raise e
        | Return alive_positions =>
            match index alive_positions 0 with
            | Raise e => Raise e
            | Return p => Return (ChangeCharacterAction p [])
            end
        end
      else Return DeclareEndAction
  end.

End SimpleAgent.

(* ================================================================== *)
(** ** MultipleActionAgent *)

Module MultipleActionAgent.

(** A generator over an unchanged snapshot: the actions it has still to
    yield and how it ends after them, by returning ([StopIteration] at the
    next [next]) or by raising. *)
Inductive Ending : Type := Stops | Raises (e : Exn).

Record Generator : Type := mkGenerator {
  pending : list Action;
  ending : Ending
}.

Inductive Next : Type :=
  | Yielded (a : Action)
  | StopIteration
  | Raised (e : Exn).

(** [next(it)]; a generator that has raised is finished. *)
Definition next (it : Generator) : Next * Generator :=
  match pending it with
  | a :: rest => (Yielded a, mkGenerator rest (ending it))
  | [] =>
      match ending it with
      | Stops => (StopIteration, it)
      | Raises e => (Raised e, mkGenerator [] Stops)
      end
  end.

(** The agent's only field, [self._current_iter]. *)
Record Agent : Type := mkAgent { _current_iter : option Generator }.

(** [MultipleActionAgent.__init__]. *)
Definition new : Agent := mkAgent None.

Section TakeAction.

(** The policy, [self.take_multiple_actions], abstract in the class. *)
Variable take_multiple_actions : GameInfo -> Generator.

(** The handler of [except StopIteration]. *)
Definition start_fresh (game_info : GameInfo) : result Action * Agent :=
  let it := take_multiple_actions game_info in
  match next it with
  | (Yielded a, it') => (Return a, mkAgent (Some it'))
  | (StopIteration, it') => (Raise (NoActionAssigned game_info), mkAgent (Some it'))
  | (Raised e, it') => (Raise e, mkAgent (Some it'))
  end.

(** [MultipleActionAgent.take_action]; the result and the agent after
    the call. *)
Definition take_action (self : Agent) (game_info : GameInfo)
  : result Action * Agent :=
  match _current_iter self with
  | None => start_fresh game_info
  | Some it =>
      match next it with
      | (Yielded a, it') => (Return a, mkAgent (Some it'))
      | (StopIteration, _) => start_fresh game_info
      | (Raised e, it') => (Raise e, mkAgent (Some it'))
      end
  end.

End TakeAction.

End MultipleActionAgent.

(* ================================================================== *)
(** ** GenericMultipleAction *)

Module GenericMultipleAction.

Import MultipleActionAgent.

(** [GenericMultipleAction.yield_actions_on_round_end]; the body runs at
    the first [next], so a failure in it ends the generator by raising. *)
Definition yield_actions_on_round_end (game_info : GameInfo) : Generator :=
  let player_info := get_player_info game_info in
  let active_pos := active_character_position player_info in
  match index (characters player_info) (CharPos_value active_pos) with
  | Raise e => mkGenerator [] (Raises e)
  | Return character_info =>
      if health_point (character character_info) <=? 0 then
        match alive_positions (characters player_info) with
        | Raise e => mkGenerator [] (Raises e)
        | Return alive_positions =>
            match index alive_positions 0 with
            | Raise e => mkGenerator [] (Raises e)
            | Return p => mkGenerator [ChangeCharacterAction p []] Stops
            end
        end
      else mkGenerator [DeclareEndAction] Stops
  end.

End GenericMultipleAction.

(* ================================================================== *)
(** ** AttackOnlyAgent *)

Module AttackOnlyAgent.

(** What a matcher invocation is made for: a held card or a skill. *)
Inductive Purpose : Type :=
  | ForCard (card : string)
  | ForSkill (skill_type : SkillType).

(** One invocation of [self.get_dice_idx_greedy] with its arguments. *)
Record MatcherCall : Type := mkCall {
  call_for : Purpose;
  call_dice : list ElementType;
  call_cost : Cost;
  call_char : ElementType
}.

(** A statement block of the method: it falls through with a value,
    executes [return], or raises; the matcher invocations made on the way
    are recorded in order. *)
Inductive Outcome (A : Type) : Type :=
  | Falls (a : A)
  | Returns (act : Action)
  | Fails (e : Exn).
Arguments Falls {A} a.
Arguments Returns {A} act.
Arguments Fails {A} e.

Definition Body (A : Type) : Type := list MatcherCall * Outcome A.

Definition pass {A} (a : A) : Body A := ([], Falls a).
Definition return_ {A} (act : Action) : Body A := ([], Returns act).
Definition raise {A} (e : Exn) : Body A := ([], Fails e).

Definition bind {A B} (m : Body A) (k : A -> Body B) : Body B :=
  match m with
  | (calls, Falls a) => let '(calls', o) := k a in (calls ++ calls', o)
  | (calls, Returns act) => (calls, Returns act)
  | (calls, Fails e) => (calls, Fails e)
  end.

Notation "x <- m ;; k" := (bind m (fun x => k))
  (at level 61, m at next level, right associativity).
Notation "' pat <- m ;; k" := (bind m (fun x => match x with pat => k end))
  (at level 61, pat pattern, m at next level, right associativity).

Definition lift {A} (r : result A) : Body A :=
  match r with
  | Return a => pass a
  | Raise e => raise e
  end.

(** [self.get_dice_idx_greedy(dice, cost, char_element)]. *)
Definition matcher (purpose : Purpose) (dice : list ElementType) (cost : Cost)
                   (char_element : ElementType) : Body (list nat) :=
  ([mkCall purpose dice cost char_element],
   Falls (get_dice_idx_greedy dice cost char_element)).

(** [card in hand_cards] and [hand_cards.index(card)]. *)
Definition in_hand (card : string) (hand : list string) : bool :=
  existsb (String.eqb card) hand.

Fixpoint hand_index (card : string) (hand : list string) : result nat :=
  match hand with
  | [] => Raise ValueError
  | c :: hand' =>
      if String.eqb c card then Return 0%nat
      else match hand_index card hand' with
           | Return i => Return (S i)
           | Raise e => Raise e
           end
  end.

(** [costs[key]] on the cost [dict], with its [KeyError]. *)
Fixpoint cost_lookup (key : ElementType) (c : Cost) : result Z :=
  match c with
  | [] => Raise KeyError
  | (k, v) :: c' => if elem_eqb k key then Return v else cost_lookup key c'
  end.

Definition Kanten_Senmyou_Blessing : string := "Kanten Senmyou Blessing".
Definition Travelers_Handy_Sword : string := "Traveler's Handy Sword".
Definition Sacrificial_Sword : string := "Sacrificial Sword".

Section Policy.

(** [gisim.cards.characters.get_character_card], the metadata lookup. *)
Variable get_character_card : string -> CharacterCard.

(** [self.player_id]. *)
Variable player_id : PlayerID.

(** One of the three hand-card blocks:
<<
    if card in player_info.hand_cards:
        dice_idx = self.get_dice_idx_greedy(current_dice, cost, element)
        if len(dice_idx) > 0:
            card_idx = player_info.hand_cards.index(card)
            return UseCardAction(card_idx=card_idx,
                card_target=[(self.player_id, target, active_pos.value)],
                dice_idx=dice_idx, card_user_pos=active_pos)
>>
    It falls through with the current value of [dice_idx]. *)
Definition card_block (player_info : PlayerInfo) (character_card : CharacterCard)
                      (card : string) (cost : Cost) (target : EntityType)
                      (dice_idx : list nat) : Body (list nat) :=
  let active_pos := active_character_position player_info in
  if in_hand card (hand_cards player_info) then
    dice_idx <- matcher (ForCard card) (dice_zone player_info) cost
                        (element_type character_card) ;;
    if (0 <? List.length dice_idx)%nat then
      card_idx <- lift (hand_index card (hand_cards player_info)) ;;
      return_ (UseCardAction card_idx
                 [(player_id, target, CharPos_value active_pos)]
                 dice_idx active_pos)
    else pass dice_idx
  else pass dice_idx.

(** The body of [AttackOnlyAgent.take_action_on_play_cards]. *)
Definition play_cards_body (game_info : GameInfo) : Body Action :=
  let player_info := get_player_info game_info in
  let active_pos := active_character_position player_info in
  character_info <-
    lift (index (characters player_info) (CharPos_value active_pos)) ;;
  let character_card := get_character_card (name (character character_info)) in
  _ <- (if health_point (character character_info) <=? 0 then
          alive_positions <- lift (alive_positions (characters player_info)) ;;
          p <- lift (index alive_positions 0) ;;
          return_ (ChangeCharacterAction p [])
        else pass tt) ;;
  let character_element := element_type character_card in
  let current_dice := dice_zone player_info in
  let elemental_burst := get_skill character_card ELEMENTAL_BURST in
  let skill_name := EmptyString in
  let dice_idx := [] in
  (* Use the talent card of Kamisato Ayaka if appeared *)
  dice_idx <- card_block player_info character_card
                Kanten_Senmyou_Blessing [(CRYO, 2)] CHARACTER dice_idx ;;
  dice_idx <- card_block player_info character_card
                Travelers_Handy_Sword [(SAME, 2)] WEAPON dice_idx ;;
  dice_idx <- card_block player_info character_card
                Sacrificial_Sword [(SAME, 3)] WEAPON dice_idx ;;
  burst_power <- lift (cost_lookup POWER (Skill.costs elemental_burst)) ;;
  '(skill_name, dice_idx) <-
    (if power (character character_info) =? burst_power then
       dice_idx <- matcher (ForSkill ELEMENTAL_BURST) current_dice
                           (Skill.costs elemental_burst)
                           (element_type character_card) ;;
       if (0 <? List.length dice_idx)%nat
       then pass (Skill.name elemental_burst, dice_idx)
       else pass (skill_name, dice_idx)
     else pass (skill_name, dice_idx)) ;;
  '(skill_name, dice_idx) <-
    (if (List.length dice_idx =? 0)%nat then
       (* Insufficient power for elemental burst *)
       let elemental_skill := get_skill character_card ELEMENTAL_SKILL in
       dice_idx <- matcher (ForSkill ELEMENTAL_SKILL) current_dice
                           (Skill.costs elemental_skill)
                           (element_type character_card) ;;
       if (0 <? List.length dice_idx)%nat
       then pass (Skill.name elemental_skill, dice_idx)
       else pass (skill_name, dice_idx)
     else pass (skill_name, dice_idx)) ;;
  '(skill_name, dice_idx) <-
    (if (List.length dice_idx =? 0)%nat then
       (* Insufficient dice for elemental skill *)
       let normal_attack := get_skill character_card NORMAL_ATTACK in
       dice_idx <- matcher (ForSkill NORMAL_ATTACK) current_dice
                           (Skill.costs normal_attack)
                           (element_type character_card) ;;
       if (0 <? List.length dice_idx)%nat
       then pass (Skill.name normal_attack, dice_idx)
       else pass (skill_name, dice_idx)
     else pass (skill_name, dice_idx)) ;;
  if (List.length dice_idx =? 0)%nat then
    (* No skill applicable *)
    return_ DeclareEndAction
  else
    return_ (UseSkillAction active_pos skill_name dice_idx
               [(PlayerID_invert player_id,
                 active_character_position (get_opponent_info game_info))]).

(** The matcher invocations of one call of the method, in order. *)
Definition matcher_calls (game_info : GameInfo) : list MatcherCall :=
  fst (play_cards_body game_info).

(** [AttackOnlyAgent.take_action_on_play_cards]. *)
Definition take_action_on_play_cards (game_info : GameInfo) : result Action :=
  match snd (play_cards_body game_info) with
  | Falls act => Return act
  | Returns act => Return act
  | Fails e => Raise e
  end.

End Policy.

End AttackOnlyAgent.

(* ================================================================== *)
(** ** Phase dispatch and the remaining defaults *)

Module SimpleDispatch.

(** [SimpleAgent.take_action_on_init_change_card]: do nothing. *)
Definition take_action_on_init_change_card (game_info : GameInfo)
  : result Action :=
  Return (ChangeCardsAction []).

(** [SimpleAgent.take_action_on_init_select_character]: push the middle
    one up. *)
Definition take_action_on_init_select_character (game_info : GameInfo)
  : result Action :=
  Return (ChangeCharacterAction MIDDLE []).

(** The loop of the two roll-dice defaults:
<<
    reroll_dice_idx = []
    for k, element_type in enumerate(current_dice):
        if element_type not in [character_element, ElementType.OMNI]:
            reroll_dice_idx.append(k)
>>
    [k] is the index of the head of [current_dice]. *)
Fixpoint reroll_dice_idx (character_element : ElementType) (k : nat)
                         (current_dice : list ElementType) : list nat :=
  match current_dice with
  | [] => []
  | element_type :: rest =>
      if negb (elem_eqb element_type character_element
               || elem_eqb element_type OMNI)
      then k :: reroll_dice_idx character_element (S k) rest
      else reroll_dice_idx character_element (S k) rest
  end.

(** [SimpleAgent.take_action_on_play_cards], abstract in the class. *)
Definition take_action_on_play_cards (game_info : GameInfo) : result Action :=
  Raise NotImplementedError.

(** The five methods [SimpleAgent.take_action] dispatches to; a subclass
    overrides some of them. *)
Record Methods : Type := mkMethods {
  on_init_change_card : GameInfo -> result Action;
  on_init_select_character : GameInfo -> result Action;
  on_roll_dice : GameInfo -> result Action;
  on_play_cards : GameInfo -> result Action;
  on_round_end : GameInfo -> result Action
}.

(** [SimpleAgent.take_action]. *)
Definition take_action (self : Methods) (game_info : GameInfo) : result Action :=
  match status game_info with
  | INITIALIZING =>
      match phase game_info with
      | CHANGE_CARD => on_init_change_card self game_info
      | SELECT_ACTIVE_CHARACTER => on_init_select_character self game_info
      | _ => Return DeclareEndAction
      end
  | RUNNING =>
      match phase game_info with
      | ROLL_DICE => on_roll_dice self game_info
      | PLAY_CARDS => on_play_cards self game_info
      | ROUND_END => on_round_end self game_info
      | _ => Return DeclareEndAction
      end
  | _ => Return DeclareEndAction
  end.

Section Classes.

(** [gisim.cards.characters.get_character_card], the metadata lookup. *)
Variable get_character_card : string -> CharacterCard.

(** [player_info.characters[player_info.active_character_position]]: the
    roll-dice defaults subscript the slots with the position itself, not
    with its [.value]; what that subscript answers is decided by the
    declaration of [CharPos], which is not part of the module. *)
Variable characters_getitem :
  list CharacterInfo -> CharPos -> result CharacterInfo.

(** [SimpleAgent.take_action_on_roll_dice]: keep the dice of the active
    character's element and the Universal ones. *)
Definition take_action_on_roll_dice (game_info : GameInfo) : result Action :=
  let player_info := get_player_info game_info in
  match characters_getitem (characters player_info)
                           (active_character_position player_info) with
  | Raise e => Raise e
  | Return current_character =>
      let character_card :=
        get_character_card (name (character current_character)) in
      let character_element := element_type character_card in
      let current_dice := dice_zone player_info in
      Return (RollDiceAction (reroll_dice_idx character_element 0 current_dice))
  end.

(** The methods of [SimpleAgent] itself. *)
Definition SimpleAgent_methods : Methods :=
  mkMethods take_action_on_init_change_card
            take_action_on_init_select_character
            take_action_on_roll_dice
            take_action_on_play_cards
            SimpleAgent.take_action_on_round_end.

(** [AttackOnlyAgent(SimpleAgent)] overrides the play-cards method. *)
Definition AttackOnlyAgent_methods (player_id : PlayerID) : Methods :=
  mkMethods take_action_on_init_change_card
            take_action_on_init_select_character
            take_action_on_roll_dice
            (AttackOnlyAgent.take_action_on_play_cards get_character_card
                                                       player_id)
            SimpleAgent.take_action_on_round_end.

(** [NoAttackAgent.take_action_on_play_cards]. *)
Definition NoAttackAgent_take_action_on_play_cards (game_info : GameInfo)
  : result Action :=
  SimpleAgent.take_action_on_round_end game_info.

(** [NoAttackAgent(SimpleAgent)]. *)
Definition NoAttackAgent_methods : Methods :=
  mkMethods take_action_on_init_change_card
            take_action_on_init_select_character
            take_action_on_roll_dice
            NoAttackAgent_take_action_on_play_cards
            SimpleAgent.take_action_on_round_end.

End Classes.

End SimpleDispatch.

Module GenericDispatch.

Import MultipleActionAgent.

(** [GenericMultipleAction.yield_actions_on_init_change_card]. *)
Definition yield_actions_on_init_change_card (game_info : GameInfo)
  : Generator :=
  mkGenerator [ChangeCardsAction []] Stops.

(** [GenericMultipleAction.yield_actions_on_init_select_character]. *)
Definition yield_actions_on_init_select_character (game_info : GameInfo)
  : Generator :=
  mkGenerator [ChangeCharacterAction MIDDLE []] Stops.

(** [GenericMultipleAction.yield_actions_on_play_cards], abstract in the
    class: the call raises, inside the delegating generator. *)
Definition yield_actions_on_play_cards (game_info : GameInfo) : Generator :=
  mkGenerator [] (Raises NotImplementedError).

(** The five generators [take_multiple_actions] delegates to. *)
Record Yields : Type := mkYields {
  on_init_change_card : GameInfo -> Generator;
  on_init_select_character : GameInfo -> Generator;
  on_roll_dice : GameInfo -> Generator;
  on_play_cards : GameInfo -> Generator;
  on_round_end : GameInfo -> Generator
}.

(** [GenericMultipleAction.take_multiple_actions]: each branch is
    [yield from ...; return], so the generator is the delegate's; without
    a branch it yields [DeclareEndAction]. *)
Definition take_multiple_actions (self : Yields) (game_info : GameInfo)
  : Generator :=
  match status game_info with
  | INITIALIZING =>
      match phase game_info with
      | CHANGE_CARD => on_init_change_card self game_info
      | SELECT_ACTIVE_CHARACTER => on_init_select_character self game_info
      | _ => mkGenerator [DeclareEndAction] Stops
      end
  | RUNNING =>
      match phase game_info with
      | ROLL_DICE => on_roll_dice self game_info
      | PLAY_CARDS => on_play_cards self game_info
      | ROUND_END => on_round_end self game_info
      | _ => mkGenerator [DeclareEndAction] Stops
      end
  | _ => mkGenerator [DeclareEndAction] Stops
  end.

Section Classes.

Variable get_character_card : string -> CharacterCard.

Variable characters_getitem :
  list CharacterInfo -> CharPos -> result CharacterInfo.

(** [GenericMultipleAction.yield_actions_on_roll_dice]. *)
Definition yield_actions_on_roll_dice (game_info : GameInfo) : Generator :=
  let player_info := get_player_info game_info in
  match characters_getitem (characters player_info)
                           (active_character_position player_info) with
  | Raise e => mkGenerator [] (Raises e)
  | Return current_character =>
      let character_card :=
        get_character_card (name (character current_character)) in
      let character_element := element_type character_card in
      let current_dice := dice_zone player_info in
      mkGenerator
        [RollDiceAction
           (SimpleDispatch.reroll_dice_idx character_element 0 current_dice)]
        Stops
  end.

(** The generators of [GenericMultipleAction] itself. *)
Definition GenericMultipleAction_yields : Yields :=
  mkYields yield_actions_on_init_change_card
           yield_actions_on_init_select_character
           yield_actions_on_roll_dice
           yield_actions_on_play_cards
           GenericMultipleAction.yield_actions_on_round_end.

End Classes.

End GenericDispatch.

(* ================================================================== *)
(** ** Vocabulary of the statements *)

Module MatcherSpec.

(** The matcher's loop invariant for the dice [dice]: one flag per die,
    no index selected twice, every selected index in range and flagged. *)
Definition wf (dice : list ElementType) (st : State) : Prop :=
  List.length (used st) = List.length dice /\
  NoDup (dice_idx st) /\
  forall i, In i (dice_idx st) ->
            (i < List.length dice)%nat /\ is_used i (used st) = true.

(** [takes dice P st new st']: from [st], the dice at the indices [new]
    are taken one after the other, each unused when it is taken and of an
    element satisfying [P]; [st'] is the state reached. *)
Inductive takes (dice : list ElementType) (P : ElementType -> Prop)
  : State -> list nat -> State -> Prop :=
  | takes_nil st : takes dice P st [] st
  | takes_cons st idx die new st' :
      nth_error dice idx = Some die ->
      P die ->
      is_used idx (used st) = false ->
      takes dice P (take idx st) new st' ->
      takes dice P st (idx :: new) st'.

(** Number of unused dice of element [element] among [ds], whose head has
    index [idx]. *)
Fixpoint avail (element : ElementType) (idx : nat) (ds : list ElementType)
               (u : list bool) : Z :=
  match ds with
  | [] => 0
  | die :: ds' =>
      (if negb (is_used idx u) && elem_eqb element die then 1 else 0)
      + avail element (S idx) ds' u
  end.

(** Occurrences of [e] in [l]. *)
Fixpoint occ (e : ElementType) (l : list ElementType) : Z :=
  match l with
  | [] => 0
  | x :: l' => (if elem_eqb x e then 1 else 0) + occ e l'
  end.

(** The keys the matcher resolves against dice. *)
Definition resolved (key : ElementType) : bool :=
  is_major key || elem_eqb key ANY || elem_eqb key SAME.

(** Sum of the required counts of the keys other than [POWER]. *)
Fixpoint required_dice (cost : Cost) : Z :=
  match cost with
  | [] => 0
  | (key, val) :: cost' =>
      (if elem_eqb key POWER then 0 else val) + required_dice cost'
  end.

(** The cost mapping without its [POWER] entries. *)
Definition without_power (cost : Cost) : Cost :=
  filter (fun kv => negb (elem_eqb (fst kv) POWER)) cost.

(** No condition on the element of a die. *)
Definition any_die (_ : ElementType) : Prop := True.

(** What one key does to the state: it takes some unused dice, and as
    many as the key requires when that is at least one. *)
Definition pays (dice : list ElementType) (val : Z) (st st' : State) : Prop :=
  exists new,
    takes dice any_die st new st' /\
    (1 <= val -> Z.of_nat (List.length new) = val).

(** The keys of a counter, in order. *)
Definition keys (c : Counts) : list ElementType := map fst c.

(** The counter the Same branch builds over the unused dice. *)
Definition dice_counter (dice : list ElementType) (char_element : ElementType)
                        (u : list bool) : Counts :=
  ensure_key char_element
    (ensure_key OMNI (Counter (unused_dice dice 0 u))).

End MatcherSpec.

Module AgentSpec.

(** Index of the first slot, in slot order, whose alive flag is set;
    [k] is the index of the head of [cs]. *)
Fixpoint first_alive_from (k : nat) (cs : list CharacterInfo) : option nat :=
  match cs with
  | [] => None
  | c :: cs' => if alive (character c) then Some k else first_alive_from (S k) cs'
  end.

Definition first_alive (cs : list CharacterInfo) : option nat :=
  first_alive_from 0 cs.

(** No slot has its alive flag set. *)
Definition none_alive (cs : list CharacterInfo) : Prop :=
  forall c, In c cs -> alive (character c) = false.


(** Every matcher invocation recorded by a block satisfies [Q]. *)
Definition all_calls {A} (Q : AttackOnlyAgent.MatcherCall -> Prop)
                     (m : AttackOnlyAgent.Body A) : Prop :=
  Forall Q (fst m).

(** Every action a block returns satisfies [R]. *)
Definition returns_only {A} (R : Action -> Prop)
                        (m : AttackOnlyAgent.Body A) : Prop :=
  forall act, snd m = AttackOnlyAgent.Returns act -> R act.

(** The action the method ends with, if any, satisfies [R]. *)
Definition ends_with (R : Action -> Prop)
                     (m : AttackOnlyAgent.Body Action) : Prop :=
  match snd m with
  | AttackOnlyAgent.Falls act => R act
  | AttackOnlyAgent.Returns act => R act
  | AttackOnlyAgent.Fails _ => True
  end.


(** A burst invocation of the matcher is given the burst's whole cost
    mapping, and the character's stored energy equals its Power entry. *)
Definition burst_checked (get_character_card : string -> CharacterCard)
                         (game_info : GameInfo)
                         (c : AttackOnlyAgent.MatcherCall) : Prop :=
  AttackOnlyAgent.call_for c = AttackOnlyAgent.ForSkill ELEMENTAL_BURST ->
  let player_info := get_player_info game_info in
  exists character_info energy,
    nth_error (characters player_info)
              (CharPos_value (active_character_position player_info))
      = Some character_info /\
    AttackOnlyAgent.call_cost c =
      Skill.costs (get_skill (get_character_card (name (character character_info)))
                             ELEMENTAL_BURST) /\
    AttackOnlyAgent.cost_lookup POWER (AttackOnlyAgent.call_cost c)
      = Return energy /\
    power (character character_info) = energy.

End AgentSpec.

Module MatcherCounts.

(** Number of unused dice among [ds] (head at index [idx]) whose element
    passes the test [P]. *)
Fixpoint avail_if (P : ElementType -> bool) (idx : nat)
                  (ds : list ElementType) (u : list bool) : Z :=
  match ds with
  | [] => 0
  | die :: ds' =>
      (if negb (is_used idx u) && P die then 1 else 0)
      + avail_if P (S idx) ds' u
  end.

(** Number of unused dice of [dice], whatever their element. *)
Definition unused_total (dice : list ElementType) (u : list bool) : Z :=
  avail_if (fun _ => true) 0 dice u.

(** Every index of [idxs] names a die of [dice] whose element satisfies
    [P]. *)
Definition all_at (dice : list ElementType) (P : ElementType -> Prop)
                  (idxs : list nat) : Prop :=
  Forall (fun i => exists die, nth_error dice i = Some die /\ P die) idxs.

(** The tests of the first two passes of the Any branch. *)
Definition differs_from (char_element die : ElementType) : bool :=
  negb (elem_eqb die char_element).

Definition same_as (e die : ElementType) : bool := elem_eqb die e.

(** The order of [sorted(..., reverse=True)] on counter entries. *)
Definition by_count_desc (x y : ElementType * Z) : Prop := snd y <= snd x.

End MatcherCounts.

Module AgentRuns.

Import MultipleActionAgent.

(** The generator that mirrors a single-action answer: it yields the
    action once, or raises what the single-action method raises. *)
Definition of_result (r : result Action) : Generator :=
  match r with
  | Return a => mkGenerator [a] Stops
  | Raise e => mkGenerator [] (Raises e)
  end.

(** The agent has no sequence in flight: no cursor yet, or an exhausted
    one. *)
Definition idle (self : Agent) : Prop :=
  _current_iter self = None \/
  exists it, _current_iter self = Some it /\
             pending it = [] /\ ending it = Stops.

(** Successive calls of [take_action], one per snapshot, with the
    answers in order and the agent after the last call. *)
Fixpoint calls (policy : GameInfo -> Generator) (self : Agent)
               (snapshots : list GameInfo) : list (result Action) * Agent :=
  match snapshots with
  | [] => ([], self)
  | game_info :: rest =>
      let '(r, self') := take_action policy self game_info in
      let '(rs, self'') := calls policy self' rest in
      (r :: rs, self'')
  end.

(** The action pays nothing: it is no card or skill action, and a change
    of character carries no dice. *)
Definition spends_no_dice (a : Action) : Prop :=
  match a with
  | UseCardAction _ _ _ _ => False
  | UseSkillAction _ _ _ _ => False
  | ChangeCharacterAction _ dice_idx => dice_idx = []
  | _ => True
  end.

End AgentRuns.

Module PolicySpec.

Import AttackOnlyAgent.

(** The three hand cards the attack policy knows, in the order it tries
    them, each with its fixed cost and the kind of entity it targets. *)
Definition card_table : list (string * Cost * EntityType) :=
  [ (Kanten_Senmyou_Blessing, [(CRYO, 2)], CHARACTER);
    (Travelers_Handy_Sword, [(SAME, 2)], WEAPON);
    (Sacrificial_Sword, [(SAME, 3)], WEAPON) ].

(** The matcher's answer for a cost on the player's dice and the element
    of the active character's card. *)
Definition greedy_for (card : CharacterCard) (player_info : PlayerInfo)
                      (cost : Cost) : list nat :=
  get_dice_idx_greedy (dice_zone player_info) cost (element_type card).

(** The indices are distinct indices into the player's dice. *)
Definition valid_dice (player_info : PlayerInfo) (idxs : list nat) : Prop :=
  NoDup idxs /\
  Forall (fun i => (i < List.length (dice_zone player_info))%nat) idxs.

(** A card action of the policy: it names the first hand position of one
    of the three cards, pays it with the matcher's non-empty answer for
    that card's cost, targets the active slot of the own side and is used
    by the active position. *)
Definition card_action_ok (card_data : CharacterCard) (player_id : PlayerID)
                          (player_info : PlayerInfo) (act : Action) : Prop :=
  match act with
  | UseCardAction card_idx card_target dice_idx card_user_pos =>
      exists card cost target,
        In (card, cost, target) card_table /\
        nth_error (hand_cards player_info) card_idx = Some card /\
        (forall j, (j < card_idx)%nat ->
                   nth_error (hand_cards player_info) j <> Some card) /\
        dice_idx = greedy_for card_data player_info cost /\
        dice_idx <> [] /\
        valid_dice player_info dice_idx /\
        card_target =
          [(player_id, target,
            CharPos_value (active_character_position player_info))] /\
        card_user_pos = active_character_position player_info
  | _ => True
  end.

(** What the skill blocks have chosen so far: nothing, or the name of a
    skill of the card with the matcher's non-empty answer for its cost; a
    burst only with the stored energy equal to its Power entry. *)
Definition skill_choice (card_data : CharacterCard) (player_info : PlayerInfo)
                        (energy : Z) (choice : string * list nat) : Prop :=
  snd choice = [] \/
  exists skill_type,
    fst choice = Skill.name (get_skill card_data skill_type) /\
    snd choice =
      greedy_for card_data player_info
                 (Skill.costs (get_skill card_data skill_type)) /\
    snd choice <> [] /\
    (skill_type = ELEMENTAL_BURST ->
     cost_lookup POWER (Skill.costs (get_skill card_data ELEMENTAL_BURST))
       = Return energy).

(** A skill action of the policy: used by the active position against
    the opponent's active character, with a chosen skill. *)
Definition skill_action_ok (card_data : CharacterCard) (player_id : PlayerID)
                           (game_info : GameInfo) (energy : Z)
                           (act : Action) : Prop :=
  match act with
  | UseSkillAction user_position skill_name dice_idx skill_targets =>
      let player_info := get_player_info game_info in
      skill_choice card_data player_info energy (skill_name, dice_idx) /\
      dice_idx <> [] /\
      valid_dice player_info dice_idx /\
      user_position = active_character_position player_info /\
      skill_targets =
        [(PlayerID_invert player_id,
          active_character_position (get_opponent_info game_info))]
  | _ => True
  end.

(** Declaring the end means no skill could be paid: the normal attack
    and the elemental skill get an empty answer, and so does the burst
    when the stored energy equals its Power entry. *)
Definition end_is_forced (card_data : CharacterCard) (player_info : PlayerInfo)
                         (energy : Z) (act : Action) : Prop :=
  act = DeclareEndAction ->
  greedy_for card_data player_info
             (Skill.costs (get_skill card_data NORMAL_ATTACK)) = [] /\
  greedy_for card_data player_info
             (Skill.costs (get_skill card_data ELEMENTAL_SKILL)) = [] /\
  (cost_lookup POWER (Skill.costs (get_skill card_data ELEMENTAL_BURST))
     = Return energy ->
   greedy_for card_data player_info
              (Skill.costs (get_skill card_data ELEMENTAL_BURST)) = []).

End PolicySpec.

(* ================================================================== *)
(** ** Concrete snapshots used to exercise the statements *)

Module Examples.

Import MultipleActionAgent.

(** A Cryo character card: normal attack, elemental skill, and a burst
    that costs three Cryo dice and three energy. *)
Definition cryo_card : CharacterCard :=
  mkCharacterCard CRYO
    (fun t => match t with
              | NORMAL_ATTACK => Skill.mk "Normal Attack" [(CRYO, 1); (ANY, 2)]
              | ELEMENTAL_SKILL => Skill.mk "Elemental Skill" [(CRYO, 3)]
              | ELEMENTAL_BURST => Skill.mk "Elemental Burst" [(CRYO, 3); (POWER, 3)]
              end).

Definition lookup (_ : string) : CharacterCard := cryo_card.

Definition slot (hp : Z) (is_alive : bool) (energy : Z) : CharacterInfo :=
  mkCharacterInfo (mkCharacterEntity "Kamisato Ayaka" hp is_alive energy).

(** Three healthy characters, the middle one active with full energy,
    three Cryo dice and no card in hand. *)
Definition charged : PlayerInfo :=
  mkPlayerInfo [slot 10 true 0; slot 10 true 3; slot 10 true 0]
               MIDDLE [CRYO; CRYO; CRYO] [].

Definition charged_info : GameInfo :=
  mkGameInfo RUNNING PLAY_CARDS charged charged.

(** The active middle character is down and only the right slot is
    alive. *)
Definition one_left : PlayerInfo :=
  mkPlayerInfo [slot 0 false 0; slot 0 false 0; slot 7 true 0]
               MIDDLE [PYRO; OMNI] [].

Definition one_left_info : GameInfo :=
  mkGameInfo RUNNING ROUND_END one_left one_left.

(** The active character is down and no slot is alive. *)
Definition all_down : PlayerInfo :=
  mkPlayerInfo [slot 0 false 0; slot 0 false 0; slot 0 false 0]
               MIDDLE [PYRO; OMNI] [].

Definition all_down_info : GameInfo :=
  mkGameInfo RUNNING ROUND_END all_down all_down.

(** A policy that yields two actions at [PLAY_CARDS] and one elsewhere. *)
Definition two_step (game_info : GameInfo) : Generator :=
  match phase game_info with
  | PLAY_CARDS => mkGenerator [RollDiceAction [0%nat]; DeclareEndAction] Stops
  | _ => mkGenerator [ChangeCardsAction []] Stops
  end.

(** A defective policy that yields nothing at [ROUND_END]. *)
Definition silent (game_info : GameInfo) : Generator :=
  match phase game_info with
  | ROUND_END => mkGenerator [] Stops
  | _ => mkGenerator [DeclareEndAction] Stops
  end.



End Examples.

(* ================================================================== *)
(** ** Properties of the matcher *)

Import MatcherSpec.

Section ElementFacts.

Lemma elem_eqb_eq a b : elem_eqb a b = true <-> a = b.
Proof.
  unfold elem_eqb; split.
  - intros H; apply Z.eqb_eq in H; destruct a, b; simpl in H; congruence.
  - intros ->; apply Z.eqb_refl.
Qed.

Lemma elem_eqb_refl a : elem_eqb a a = true.
Proof. now apply elem_eqb_eq. Qed.

Lemma elem_eqb_neq a b : elem_eqb a b = false <-> a <> b.
Proof.
  rewrite <- elem_eqb_eq; destruct (elem_eqb a b); split; congruence.
Qed.

Lemma elem_eqb_sym a b : elem_eqb a b = elem_eqb b a.
Proof. unfold elem_eqb; apply Z.eqb_sym. Qed.

End ElementFacts.

Section UsedFlags.

Lemma set_used_length idx u : List.length (set_used idx u) = List.length u.
Proof.
  revert idx; induction u as [|b u IH]; intros [|i]; simpl; auto.
Qed.

Lemma is_used_set_same idx u :
  (idx < List.length u)%nat -> is_used idx (set_used idx u) = true.
Proof.
  unfold is_used; revert idx; induction u as [|b u IH]; intros [|i] H;
    simpl in *; try lia; auto.
  apply IH; lia.
Qed.

Lemma is_used_set_other idx j u :
  idx <> j -> is_used j (set_used idx u) = is_used j u.
Proof.
  unfold is_used; revert idx j; induction u as [|b u IH];
    intros [|i] [|j] H; simpl; auto; try congruence.
Qed.

Lemma is_used_set_mono idx j u :
  is_used j u = true -> is_used j (set_used idx u) = true.
Proof.
  intros H; destruct (Nat.eq_dec idx j) as [->|Hne].
  - apply is_used_set_same.
    unfold is_used in H.
    destruct (Nat.lt_ge_cases j (List.length u)) as [Hlt|Hge]; auto.
    rewrite nth_overflow in H by lia; discriminate.
  - now rewrite is_used_set_other.
Qed.

Lemma mem_true_iff idx l : mem idx l = true <-> In idx l.
Proof.
  unfold mem; rewrite existsb_exists; split.
  - intros (x & Hin & Heq); apply Nat.eqb_eq in Heq; now subst.
  - intros H; exists idx; split; auto; apply Nat.eqb_refl.
Qed.

End UsedFlags.

Section Takes.

Variable dice : list ElementType.

Lemma skipn_head {A} (ds : list A) idx (die : A) ds' :
  die :: ds' = skipn idx ds ->
  nth_error ds idx = Some die /\ ds' = skipn (S idx) ds.
Proof.
  revert idx; induction ds as [|d ds IH]; intros idx H.
  - rewrite skipn_nil in H; discriminate.
  - destruct idx as [|idx]; simpl in *.
    + inversion H; subst; auto.
    + apply IH in H; exact H.
Qed.

Lemma takes_dice_idx P st new st' :
  takes dice P st new st' -> dice_idx st' = dice_idx st ++ new.
Proof.
  induction 1 as [st|st idx die new st' Hd HP Hu Ht IH]; simpl.
  - now rewrite app_nil_r.
  - rewrite IH; simpl; now rewrite <- app_assoc.
Qed.

Lemma takes_used_length P st new st' :
  takes dice P st new st' -> List.length (used st') = List.length (used st).
Proof.
  induction 1 as [st|st idx die new st' Hd HP Hu Ht IH]; auto.
  rewrite IH; simpl; apply set_used_length.
Qed.

Lemma takes_used_mono P st new st' j :
  takes dice P st new st' ->
  is_used j (used st) = true -> is_used j (used st') = true.
Proof.
  induction 1 as [st|st idx die new st' Hd HP Hu Ht IH]; auto.
  intros H; apply IH; simpl; now apply is_used_set_mono.
Qed.

Lemma takes_weaken (P Q : ElementType -> Prop) st new st' :
  (forall d, P d -> Q d) -> takes dice P st new st' -> takes dice Q st new st'.
Proof.
  intros HPQ; induction 1; econstructor; eauto.
Qed.

Lemma takes_app P st n1 st1 n2 st2 :
  takes dice P st n1 st1 -> takes dice P st1 n2 st2 ->
  takes dice P st (n1 ++ n2) st2.
Proof.
  induction 1; simpl; auto; intros; econstructor; eauto.
Qed.

Lemma take_wf st idx :
  wf dice st -> (idx < List.length dice)%nat ->
  is_used idx (used st) = false -> wf dice (take idx st).
Proof.
  intros (Hlen & Hnd & Hin) Hlt Hu; unfold wf; simpl; repeat split.
  - now rewrite set_used_length.
  - apply NoDup_app; auto.
    + constructor; [intros []|constructor].
    + intros i Hi [<-|[]]. apply Hin in Hi; destruct Hi; congruence.
  - apply in_app_or in H; destruct H as [H|[<-|[]]]; auto.
    now apply Hin.
  - apply in_app_or in H; destruct H as [H|[<-|[]]].
    + apply is_used_set_mono; now apply Hin.
    + apply is_used_set_same; lia.
Qed.

Lemma takes_wf P st new st' :
  wf dice st -> takes dice P st new st' -> wf dice st'.
Proof.
  intros Hwf Ht; induction Ht as [st|st idx die new st' Hd HP Hu Ht IH]; auto.
  apply IH, take_wf; auto.
  apply nth_error_Some; congruence.
Qed.

Lemma takes_each P st new st' :
  takes dice P st new st' ->
  Forall (fun i => is_used i (used st) = false /\
                   exists die, nth_error dice i = Some die /\ P die) new.
Proof.
  induction 1 as [st|st idx die new st' Hd HP Hu Ht IH]; constructor.
  - split; eauto.
  - eapply Forall_impl; [|exact IH]; simpl.
    intros i [Hi Hex]; split; auto.
    destruct (is_used i (used st)) eqn:E; auto.
    rewrite (is_used_set_mono idx i _ E) in Hi; discriminate.
Qed.

Lemma takes_NoDup P st new st' :
  wf dice st -> takes dice P st new st' -> NoDup new.
Proof.
  intros Hwf Ht.
  pose proof (takes_wf _ _ _ _ Hwf Ht) as (_ & Hnd & _).
  rewrite (takes_dice_idx _ _ _ _ Ht) in Hnd.
  now apply NoDup_app_remove_l in Hnd.
Qed.

End Takes.

(** Splits a conjunction into its conjuncts, and nothing else. *)
Ltac conj := repeat match goal with |- _ /\ _ => split end.

Section Scans.

Variable dice : list ElementType.

Lemma avail_cons e idx die ds u :
  avail e idx (die :: ds) u =
  (if negb (is_used idx u) && elem_eqb e die then 1 else 0)
  + avail e (S idx) ds u.
Proof. reflexivity. Qed.

Lemma avail_set_used e i u : forall ds idx,
  (i < idx)%nat -> avail e idx ds (set_used i u) = avail e idx ds u.
Proof.
  induction ds as [|d ds IH]; intros idx Hlt; simpl; auto.
  rewrite is_used_set_other by lia.
  rewrite IH by lia; reflexivity.
Qed.

Lemma avail_nonneg e u : forall ds idx, 0 <= avail e idx ds u.
Proof.
  induction ds as [|d ds IH]; intros idx; simpl; [lia|].
  specialize (IH (S idx)).
  destruct (negb (is_used idx u) && elem_eqb e d); lia.
Qed.

(** The shared scan takes dice satisfying its test, one per unit of
    [remaining] it pays, and never pays more than it was asked. *)
Lemma scan_spec P : forall ds idx remaining st r' st',
  ds = skipn idx dice ->
  scan P idx ds remaining st = (r', st') ->
  exists new,
    takes dice (fun d => P d = true) st new st' /\
    r' = remaining - Z.of_nat (List.length new) /\
    (1 <= remaining -> 0 <= r').
Proof.
  induction ds as [|die ds IH]; intros idx remaining st r' st' Hds H; simpl in H.
  - inversion H; subst; exists []; conj; [constructor|simpl; lia|lia].
  - apply skipn_head in Hds; destruct Hds as [Hnth Hds].
    destruct (is_used idx (used st)) eqn:Hu; [eapply IH; eauto|].
    destruct (negb (mem idx (dice_idx st)) && P die) eqn:Hc; [|eapply IH; eauto].
    apply andb_prop in Hc; destruct Hc as [_ HP].
    destruct (remaining - 1 =? 0) eqn:Hz.
    + inversion H; subst; apply Z.eqb_eq in Hz.
      exists [idx]; conj; [|simpl; lia|lia].
      econstructor; eauto; constructor.
    + apply Z.eqb_neq in Hz.
      destruct (IH _ _ _ _ _ Hds H) as (new & Ht & Hr & Hpos).
      exists (idx :: new); conj.
      * econstructor; eauto.
      * simpl List.length; lia.
      * intros; apply Hpos; lia.
Qed.

(** The scan of the first Same strategy takes dice of [element] only and
    pays the whole of [remaining] when enough of them are unused. *)
Lemma scan_exact_spec element : forall ds idx remaining st r' st',
  ds = skipn idx dice ->
  scan_exact element idx ds remaining st = (r', st') ->
  exists new,
    takes dice (eq element) st new st' /\
    r' = remaining - Z.of_nat (List.length new) /\
    (1 <= remaining <= avail element idx ds (used st) -> r' = 0).
Proof.
  induction ds as [|die ds IH]; intros idx remaining st r' st' Hds H; simpl in H.
  - inversion H; subst; exists []; conj; [constructor|simpl; lia|simpl; lia].
  - apply skipn_head in Hds; destruct Hds as [Hnth Hds]; rewrite avail_cons.
    destruct (is_used idx (used st)) eqn:Hu; cbn [negb andb];
      [rewrite Z.add_0_l; eapply IH; eauto|].
    destruct (elem_eqb element die) eqn:Hc;
      [|rewrite Z.add_0_l; eapply IH; eauto].
    apply elem_eqb_eq in Hc.
    destruct (remaining - 1 =? 0) eqn:Hz.
    + inversion H; subst r' st'; apply Z.eqb_eq in Hz.
      exists [idx]; conj; [|simpl; lia|lia].
      econstructor; eauto; constructor.
    + apply Z.eqb_neq in Hz.
      destruct (IH _ _ _ _ _ Hds H) as (new & Ht & Hr & Hall).
      exists (idx :: new); conj.
      * econstructor; eauto.
      * simpl List.length; lia.
      * intros; apply Hall; simpl used.
        rewrite avail_set_used by lia; lia.
Qed.

(** The scan of the second Same strategy takes every unused die of
    [element] and tops up with OMNI dice while [omni_remaining] lasts. *)
Lemma scan_with_omni_spec element :
  element <> OMNI ->
  forall ds idx other omni st other' omni' st',
  ds = skipn idx dice ->
  scan_with_omni element idx ds other omni st = (other', omni', st') ->
  exists new,
    takes dice (fun d => element = d \/ d = OMNI) st new st' /\
    Z.of_nat (List.length new) = (other - other') + (omni - omni') /\
    other' = other - avail element idx ds (used st) /\
    (0 <= omni -> omni' = Z.max 0 (omni - avail OMNI idx ds (used st))).
Proof.
  intros Hne.
  induction ds as [|die ds IH]; intros idx other omni st other' omni' st' Hds H;
    simpl in H.
  - inversion H; subst; exists []; conj; [constructor|simpl; lia..].
  - apply skipn_head in Hds; destruct Hds as [Hnth Hds]; rewrite !avail_cons.
    destruct (is_used idx (used st)) eqn:Hu; cbn [negb andb];
      [rewrite !Z.add_0_l; eapply IH; eauto|].
    destruct (elem_eqb element die) eqn:Hc.
    + apply elem_eqb_eq in Hc.
      destruct (IH _ _ _ _ _ _ _ Hds H) as (new & Ht & Hlen & Ho & Hm).
      simpl used in Ho, Hm; rewrite avail_set_used in Ho, Hm by lia.
      assert (E : elem_eqb OMNI die = false) by (apply elem_eqb_neq; congruence).
      rewrite E.
      exists (idx :: new); conj;
        [econstructor; eauto | simpl List.length; lia | lia
        | intros; rewrite Hm by lia; lia].
    + destruct ((0 <? omni) && elem_eqb die OMNI) eqn:Hc2.
      * apply andb_prop in Hc2; destruct Hc2 as [Hpos Ho2].
        apply Z.ltb_lt in Hpos. rewrite elem_eqb_sym in Ho2; rewrite Ho2.
        apply elem_eqb_eq in Ho2.
        destruct (IH _ _ _ _ _ _ _ Hds H) as (new & Ht & Hlen & Ho & Hm).
        simpl used in Ho, Hm; rewrite avail_set_used in Ho, Hm by lia.
        pose proof (avail_nonneg OMNI (used st) ds (S idx)).
        exists (idx :: new); conj;
          [econstructor; eauto | simpl List.length; lia | lia
          | intros; rewrite Hm by lia; lia].
      * destruct (IH _ _ _ _ _ _ _ Hds H) as (new & Ht & Hlen & Ho & Hm).
        exists new; conj; [assumption | lia | lia |].
        intros Hpos; rewrite Hm by lia.
        apply andb_false_iff in Hc2; destruct Hc2 as [Hz|Hno].
        -- apply Z.ltb_ge in Hz.
           pose proof (avail_nonneg OMNI (used st) ds (S idx)).
           destruct (elem_eqb OMNI die); lia.
        -- rewrite elem_eqb_sym in Hno; rewrite Hno; lia.
Qed.

(** The scan of the third Same strategy reports success only when it has
    taken exactly the dice it set out to take. *)
Lemma scan_char_spec char_element : forall ds idx cr om st b st',
  ds = skipn idx dice ->
  scan_char char_element idx ds cr om st = (b, st') ->
  exists new,
    takes dice (fun d => char_element = d \/ d = OMNI) st new st' /\
    (b = true -> Z.of_nat (List.length new) = cr + om).
Proof.
  induction ds as [|die ds IH]; intros idx cr om st b st' Hds H; simpl in H.
  - inversion H; subst; exists []; split; [constructor|discriminate].
  - apply skipn_head in Hds; destruct Hds as [Hnth Hds].
    destruct (is_used idx (used st)) eqn:Hu; [eapply IH; eauto|].
    destruct (elem_eqb char_element die) eqn:Hc.
    + apply elem_eqb_eq in Hc.
      destruct ((cr - 1 =? 0) && (om =? 0)) eqn:Hz.
      * inversion H; subst b st'.
        apply andb_prop in Hz; destruct Hz as [H1 H2].
        apply Z.eqb_eq in H1, H2.
        exists [idx]; split; [econstructor; eauto; constructor|simpl; lia].
      * destruct (IH _ _ _ _ _ _ Hds H) as (new & Ht & Hlen).
        exists (idx :: new); split; [econstructor; eauto|].
        intros Hb; specialize (Hlen Hb); simpl List.length; lia.
    + destruct ((0 <? om) && elem_eqb die OMNI) eqn:Hc2.
      * apply andb_prop in Hc2; destruct Hc2 as [_ Ho2].
        apply elem_eqb_eq in Ho2.
        destruct ((cr =? 0) && (om - 1 =? 0)) eqn:Hz.
        -- inversion H; subst b st'.
           apply andb_prop in Hz; destruct Hz as [H1 H2].
           apply Z.eqb_eq in H1, H2.
           exists [idx]; split; [econstructor; eauto; constructor|simpl; lia].
        -- destruct (IH _ _ _ _ _ _ Hds H) as (new & Ht & Hlen).
           exists (idx :: new); split; [econstructor; eauto|].
           intros Hb; specialize (Hlen Hb); simpl List.length; lia.
      * destruct ((cr =? 0) && (om =? 0)) eqn:Hz.
        -- inversion H; subst b st'.
           apply andb_prop in Hz; destruct Hz as [H1 H2].
           apply Z.eqb_eq in H1, H2.
           exists []; split; [constructor|simpl; lia].
        -- eapply IH; eauto.
Qed.

End Scans.

Section Counters.

Lemma get_count_one e x : forall c,
  get e (count_one x c) = get e c + (if elem_eqb x e then 1 else 0).
Proof.
  induction c as [|[k n] c IH]; simpl.
  - destruct (elem_eqb x e); lia.
  - destruct (elem_eqb k x) eqn:Hkx; simpl.
    + apply elem_eqb_eq in Hkx; subst k.
      destruct (elem_eqb x e); lia.
    + destruct (elem_eqb k e) eqn:Hke; [|exact IH].
      apply elem_eqb_eq in Hke; subst k; rewrite elem_eqb_sym, Hkx; lia.
Qed.

Lemma keys_count_one x k : forall c,
  In k (keys (count_one x c)) <-> k = x \/ In k (keys c).
Proof.
  induction c as [|[k' n] c IH]; simpl.
  - intuition.
  - destruct (elem_eqb k' x) eqn:Hkx; simpl.
    + apply elem_eqb_eq in Hkx; subst k'; intuition.
    + rewrite IH; intuition.
Qed.

Lemma NoDup_count_one x : forall c,
  NoDup (keys c) -> NoDup (keys (count_one x c)).
Proof.
  induction c as [|[k n] c IH]; simpl; intros Hnd.
  - constructor; [intros []|constructor].
  - inversion Hnd as [|? ? Hnin Hnd']; subst.
    destruct (elem_eqb k x) eqn:Hkx; simpl.
    + constructor; auto.
    + constructor; auto.
      fold (keys (count_one x c)); rewrite keys_count_one.
      apply elem_eqb_neq in Hkx; intros [->|H]; auto.
Qed.

Lemma get_fold_count e : forall l c,
  get e (fold_left (fun c x => count_one x c) l c) = get e c + occ e l.
Proof.
  induction l as [|x l IH]; intros c; simpl; [lia|].
  rewrite IH, get_count_one; lia.
Qed.

Lemma NoDup_fold_count : forall l c,
  NoDup (keys c) -> NoDup (keys (fold_left (fun c x => count_one x c) l c)).
Proof.
  induction l as [|x l IH]; intros c H; simpl; auto.
  apply IH, NoDup_count_one, H.
Qed.

Lemma has_key_iff k c : has_key k c = true <-> In k (keys c).
Proof.
  unfold has_key, keys; rewrite existsb_exists, in_map_iff; split.
  - intros (x & Hin & Heq); apply elem_eqb_eq in Heq; eauto.
  - intros (x & Heq & Hin); exists x; split; auto; now apply elem_eqb_eq.
Qed.

Lemma get_notin e : forall c, ~ In e (keys c) -> get e c = 0.
Proof.
  induction c as [|[k n] c IH]; simpl; intros H; auto.
  destruct (elem_eqb k e) eqn:Hk.
  - apply elem_eqb_eq in Hk; tauto.
  - apply IH; tauto.
Qed.

Lemma get_app e c1 c2 :
  get e (c1 ++ c2) = if has_key e c1 then get e c1 else get e c2.
Proof.
  induction c1 as [|[k n] c1 IH]; simpl; auto.
  destruct (elem_eqb k e); simpl; auto.
Qed.

Lemma get_ensure_key e k c : get e (ensure_key k c) = get e c.
Proof.
  unfold ensure_key; destruct (has_key k c) eqn:Hk; auto.
  rewrite get_app; destruct (has_key e c) eqn:He; auto.
  simpl; destruct (elem_eqb k e); symmetry; apply get_notin;
    rewrite <- has_key_iff; congruence.
Qed.

Lemma NoDup_ensure_key k c : NoDup (keys c) -> NoDup (keys (ensure_key k c)).
Proof.
  unfold ensure_key; destruct (has_key k c) eqn:Hk; auto; intros H.
  unfold keys; rewrite map_app; simpl.
  apply NoDup_app; auto.
  - constructor; [intros []|constructor].
  - intros e He [<-|[]].
    apply has_key_iff in He; congruence.
Qed.

Lemma keys_ensure_key k c : In k (keys (ensure_key k c)).
Proof.
  unfold ensure_key; destruct (has_key k c) eqn:Hk.
  - now apply has_key_iff.
  - unfold keys; rewrite map_app; apply in_or_app; right; simpl; auto.
Qed.

Lemma keys_ensure_key_mono k e c :
  In e (keys c) -> In e (keys (ensure_key k c)).
Proof.
  unfold ensure_key; destruct (has_key k c); auto.
  unfold keys; rewrite map_app; intros; apply in_or_app; auto.
Qed.

Lemma get_in e n : forall c, NoDup (keys c) -> In (e, n) c -> get e c = n.
Proof.
  induction c as [|[k m] c IH]; simpl; intros Hnd H; [tauto|].
  destruct H as [H|H].
  - inversion H; subst; now rewrite elem_eqb_refl.
  - inversion Hnd as [|? ? Hnin Hnd']; subst.
    destruct (elem_eqb k e) eqn:Hk; auto.
    apply elem_eqb_eq in Hk; subst k.
    exfalso; apply Hnin; unfold keys; apply in_map_iff; exists (e, n); auto.
Qed.

Lemma in_get e : forall c, In e (keys c) -> In (e, get e c) c.
Proof.
  induction c as [|[k m] c IH]; simpl; intros H; try tauto.
  destruct (elem_eqb k e) eqn:Hk.
  - apply elem_eqb_eq in Hk; subst; auto.
  - destruct H as [H|H]; auto.
    apply elem_eqb_neq in Hk; congruence.
Qed.

Lemma insert_asc_perm x : forall l, Permutation (insert_asc x l) (x :: l).
Proof.
  induction l as [|y l IH]; simpl; auto.
  destruct (snd x <=? snd y); auto.
  rewrite IH; apply perm_swap.
Qed.

Lemma sorted_asc_perm : forall c, Permutation (sorted_asc c) c.
Proof.
  induction c as [|x c IH]; simpl; auto.
  rewrite insert_asc_perm; auto.
Qed.

Lemma insert_desc_perm x : forall l, Permutation (insert_desc x l) (x :: l).
Proof.
  induction l as [|y l IH]; simpl; auto.
  destruct (snd y <=? snd x); auto.
  rewrite IH; apply perm_swap.
Qed.

Lemma sorted_desc_perm : forall c, Permutation (sorted_desc c) c.
Proof.
  induction c as [|x c IH]; simpl; auto.
  rewrite insert_desc_perm; auto.
Qed.

(** Reading a key is insensitive to the order of the entries when the
    keys are distinct, as they are in a [dict]. *)
Lemma get_perm e c c' :
  NoDup (keys c) -> Permutation c' c -> get e c' = get e c.
Proof.
  intros Hnd Hp.
  assert (Hnd' : NoDup (keys c')).
  { unfold keys; eapply Permutation_NoDup; [|exact Hnd].
    apply Permutation_map, Permutation_sym, Hp. }
  destruct (in_dec ElementType_eq_dec e (keys c)) as [Hin|Hnin].
  - apply get_in; auto.
    eapply Permutation_in; [apply Permutation_sym, Hp|].
    now apply in_get.
  - rewrite (get_notin e c Hnin); apply get_notin.
    intros H; apply Hnin.
    unfold keys in *; eapply Permutation_in; [|exact H].
    apply Permutation_map, Hp.
Qed.

End Counters.

Section DiceCounter.

Variable dice : list ElementType.

Lemma occ_unused_dice e u : forall us ds idx,
  ds = skipn idx dice -> us = skipn idx u ->
  List.length ds = List.length us ->
  occ e (unused_dice dice idx us) = avail e idx ds u.
Proof.
  induction us as [|b us IH]; intros ds idx Hds Hus Hlen.
  - destruct ds; simpl in *; [reflexivity|discriminate].
  - destruct ds as [|die ds]; simpl in Hlen; [discriminate|].
    apply skipn_head in Hds; destruct Hds as [Hnth Hds].
    apply skipn_head in Hus; destruct Hus as [Hb Hus].
    rewrite avail_cons; simpl unused_dice.
    assert (Hu : is_used idx u = b)
      by (unfold is_used; now apply nth_error_nth).
    rewrite Hu, <- (IH ds (S idx)) by (auto; lia).
    destruct b; cbn [negb andb]; [lia|].
    simpl occ; rewrite (nth_error_nth _ _ _ Hnth), elem_eqb_sym; reflexivity.
Qed.

Lemma dice_counter_NoDup c u : NoDup (keys (dice_counter dice c u)).
Proof.
  unfold dice_counter, Counter.
  do 2 apply NoDup_ensure_key; apply NoDup_fold_count; constructor.
Qed.

Lemma dice_counter_get c u e :
  List.length u = List.length dice ->
  get e (dice_counter dice c u) = avail e 0 dice u.
Proof.
  intros Hlen; unfold dice_counter, Counter.
  rewrite !get_ensure_key, get_fold_count; simpl.
  apply occ_unused_dice; auto.
Qed.

Lemma dice_counter_in c u e n :
  List.length u = List.length dice ->
  In (e, n) (dice_counter dice c u) -> n = avail e 0 dice u.
Proof.
  intros Hlen Hin; rewrite <- (dice_counter_get c u e Hlen).
  symmetry; apply get_in; auto using dice_counter_NoDup.
Qed.

Lemma dice_counter_has c u e :
  List.length u = List.length dice ->
  0 < avail e 0 dice u -> In (e, avail e 0 dice u) (dice_counter dice c u).
Proof.
  intros Hlen Hpos; rewrite <- (dice_counter_get c u e Hlen) in *.
  apply in_get.
  destruct (in_dec ElementType_eq_dec e (keys (dice_counter dice c u))); auto.
  rewrite get_notin in Hpos by assumption; lia.
Qed.

End DiceCounter.

Section Steps.

Variable dice : list ElementType.
Variable char_element : ElementType.

Lemma takes_any P st new st' :
  takes dice P st new st' -> takes dice any_die st new st'.
Proof. apply takes_weaken; unfold any_die; auto. Qed.

Lemma step_major_pays key val st st' :
  step_major dice key val st = Some st' -> pays dice val st st'.
Proof.
  unfold step_major; intros H.
  destruct (scan _ 0 dice val st) as [r1 st1] eqn:E1.
  apply scan_spec with (dice := dice) in E1; auto.
  destruct E1 as (n1 & T1 & R1 & P1).
  destruct (0 <? r1) eqn:Hr1.
  - apply Z.ltb_lt in Hr1.
    destruct (scan _ 0 dice r1 st1) as [r2 st2] eqn:E2.
    apply scan_spec with (dice := dice) in E2; auto.
    destruct E2 as (n2 & T2 & R2 & P2).
    destruct (0 <? r2) eqn:Hr2; inversion H; subst st'.
    apply Z.ltb_ge in Hr2.
    exists (n1 ++ n2); split.
    + eapply takes_app; eapply takes_any; eauto.
    + intros Hv; rewrite length_app, Nat2Z.inj_add; lia.
  - rewrite Hr1 in H; inversion H; subst st'.
    apply Z.ltb_ge in Hr1.
    exists n1; split; [eapply takes_any; eauto|intros; lia].
Qed.

Lemma step_any_pays val st st' :
  step_any dice char_element val st = Some st' -> pays dice val st st'.
Proof.
  unfold step_any.
  destruct (scan _ 0 dice val st) as [r1 st1] eqn:E1.
  apply scan_spec with (dice := dice) in E1; auto.
  destruct E1 as (n1 & T1 & R1 & P1); apply takes_any in T1.
  assert (Hmid : exists r2 st2 n2,
    (if 0 <? r1
     then scan (fun die => elem_eqb die char_element) 0 dice r1 st1
     else (r1, st1)) = (r2, st2) /\
    takes dice any_die st (n1 ++ n2) st2 /\
    r2 = val - Z.of_nat (List.length (n1 ++ n2)) /\ (1 <= val -> 0 <= r2)).
  { destruct (0 <? r1) eqn:Hr1.
    - apply Z.ltb_lt in Hr1.
      destruct (scan _ 0 dice r1 st1) as [r2 st2] eqn:E2.
      apply scan_spec with (dice := dice) in E2; auto.
      destruct E2 as (n2 & T2 & R2 & P2); apply takes_any in T2.
      exists r2, st2, n2; conj; auto.
      + eapply takes_app; eauto.
      + rewrite length_app, Nat2Z.inj_add; lia.
      + intros; lia.
    - exists r1, st1, []; rewrite app_nil_r; conj; auto. }
  destruct Hmid as (r2 & st2 & n2 & -> & T2 & R2 & P2); intros H.
  destruct (0 <? r2) eqn:Hr2.
  - apply Z.ltb_lt in Hr2.
    destruct (scan _ 0 dice r2 st2) as [r3 st3] eqn:E3.
    apply scan_spec with (dice := dice) in E3; auto.
    destruct E3 as (n3 & T3 & R3 & P3); apply takes_any in T3.
    destruct (0 <? r3) eqn:Hr3; inversion H; subst st'.
    apply Z.ltb_ge in Hr3.
    exists ((n1 ++ n2) ++ n3); split.
    + eapply takes_app; eauto.
    + intros Hv; rewrite length_app, Nat2Z.inj_add; lia.
  - rewrite Hr2 in H; inversion H; subst st'.
    apply Z.ltb_ge in Hr2.
    exists (n1 ++ n2); split; auto; intros; lia.
Qed.

(** The first loop of the Same branch either consumes the first entry
    that is not special and large enough, or changes nothing. *)
Lemma same_enough_spec val : forall entries remaining st sat r' st',
  same_enough dice char_element val entries remaining st = (sat, r', st') ->
  (sat = false /\ st' = st /\
   forall e c, In (e, c) entries -> special char_element e = false -> c < val)
  \/
  (sat = true /\
   exists e c, In (e, c) entries /\ special char_element e = false /\
               val <= c /\ scan_exact e 0 dice remaining st = (r', st')).
Proof.
  induction entries as [|[e c] entries IH]; intros remaining st sat r' st' H;
    simpl in H.
  - inversion H; subst; left; conj; auto; intros ? ? [].
  - destruct (special char_element e) eqn:Hs.
    + apply IH in H; destruct H as [(-> & -> & Hall)|(-> & e' & c' & Hin & Hr)].
      * left; conj; auto.
        intros e' c' [Heq|Hin] Hs'; [inversion Heq; subst; congruence|eauto].
      * right; split; auto; exists e', c'; simpl; tauto.
    + destruct (val <=? c) eqn:Hv.
      * apply Z.leb_le in Hv.
        destruct (scan_exact e 0 dice remaining st) as [r1 st1] eqn:E.
        inversion H; subst; right; split; auto.
        exists e, c; simpl; auto.
      * apply Z.leb_gt in Hv.
        apply IH in H; destruct H as [(-> & -> & Hall)|(-> & e' & c' & Hin & Hr)].
        -- left; conj; auto.
           intros e' c' [Heq|Hin] Hs'; [inversion Heq; subst; lia|eauto].
        -- right; split; auto; exists e', c'; simpl; tauto.
Qed.

(** The second loop of the Same branch takes dice, whatever it reports. *)
Lemma same_topped_up_takes val omni_count : forall entries st sat st',
  same_topped_up dice char_element val omni_count entries st = (sat, st') ->
  exists new, takes dice any_die st new st'.
Proof.
  induction entries as [|[e c] entries IH]; intros st sat st' H; simpl in H.
  - inversion H; subst; exists []; constructor.
  - destruct (special char_element e) eqn:Hs; [eauto|].
    destruct (val <=? omni_count + c).
    + destruct (scan_with_omni e 0 dice c (val - c) st) as [[o1 o2] st1] eqn:E.
      apply scan_with_omni_spec with (dice := dice) in E; auto.
      * destruct E as (new & T & _).
        exists new; apply takes_any in T.
        destruct ((o1 =? 0) && (o2 =? 0)); inversion H; subst; auto.
      * unfold special in Hs; apply orb_false_iff in Hs.
        now apply elem_eqb_neq.
    + inversion H; subst; exists []; constructor.
Qed.

(** When its counts are those of the unused dice and no element alone
    suffices, the second loop either pays the key in full or changes
    nothing. *)
Lemma same_topped_up_exact val omni_count : forall entries st sat st',
  omni_count = avail OMNI 0 dice (used st) ->
  (forall e c, In (e, c) entries -> special char_element e = false ->
               c = avail e 0 dice (used st) /\ c < val) ->
  same_topped_up dice char_element val omni_count entries st = (sat, st') ->
  (sat = false /\ st' = st) \/
  (sat = true /\ exists new,
      takes dice any_die st new st' /\ Z.of_nat (List.length new) = val).
Proof.
  induction entries as [|[e c] entries IH]; intros st sat st' Ho Hall H;
    simpl in H.
  - inversion H; subst; auto.
  - destruct (special char_element e) eqn:Hs.
    + eapply IH; eauto; intros; apply Hall; simpl; auto.
    + destruct (Hall e c (or_introl eq_refl) Hs) as [Hc Hlt].
      destruct (val <=? omni_count + c) eqn:Hv.
      * apply Z.leb_le in Hv.
        destruct (scan_with_omni e 0 dice c (val - c) st) as [[o1 o2] st1] eqn:E.
        apply scan_with_omni_spec with (dice := dice) in E; auto.
        -- destruct E as (new & T & Hlen & Ho1 & Ho2).
           assert (Hnn : 0 <= val - c) by lia; specialize (Ho2 Hnn).
           assert (Z1 : o1 = 0) by lia.
           assert (Z2 : o2 = 0) by lia.
           rewrite Z1, Z2 in H; simpl in H; inversion H; subst sat st1.
           right; split; auto.
           exists new; split; [eapply takes_any; eauto|lia].
        -- unfold special in Hs; apply orb_false_iff in Hs.
           now apply elem_eqb_neq.
      * inversion H; subst; auto.
Qed.

Lemma step_same_pays val st st' :
  wf dice st ->
  step_same dice char_element val st = Some st' -> pays dice val st st'.
Proof.
  intros Hwf; pose proof Hwf as (Hlen & _); unfold step_same.
  fold (dice_counter dice char_element (used st)).
  set (dc := dice_counter dice char_element (used st)).
  destruct (same_enough dice char_element val (sorted_asc dc) val st)
    as [[sat1 r1] st1] eqn:E1.
  apply same_enough_spec in E1.
  destruct E1 as [(-> & -> & Hall)|(-> & e & c & Hin & Hs & Hv & Hscan)].
  - (* no element alone suffices *)
    destruct (same_topped_up dice char_element val (get OMNI (sorted_asc dc))
                (sorted_desc dc) st) as [sat2 st2] eqn:E2.
    assert (Hget : get OMNI (sorted_asc dc) = avail OMNI 0 dice (used st)).
    { rewrite (get_perm OMNI dc (sorted_asc dc)
                 (dice_counter_NoDup _ _ _) (sorted_asc_perm _)).
      apply dice_counter_get; auto. }
    destruct (Z_le_gt_dec 1 val) as [Hval|Hval].
    + apply same_topped_up_exact in E2; auto.
      * destruct E2 as [(-> & ->)|(-> & new & T & L)].
        -- rewrite Hget.
           destruct (val <=? _ + _); [|discriminate].
           destruct (scan_char _ 0 dice _ _ st) as [sat3 st3] eqn:E3.
           apply scan_char_spec with (dice := dice) in E3; auto.
           destruct E3 as (new & T & L).
           destruct sat3; [|discriminate]; intros H; inversion H; subst st'.
           exists new; split; [eapply takes_any; eauto|].
           intros _; rewrite L by reflexivity; lia.
        -- intros H; inversion H; subst st'; exists new; auto.
      * intros e c Hin Hs; split.
        -- eapply dice_counter_in; eauto.
           eapply Permutation_in; [apply sorted_desc_perm|exact Hin].
        -- apply (Hall e c); auto.
           eapply Permutation_in; [apply Permutation_sym, sorted_asc_perm|].
           eapply Permutation_in; [apply sorted_desc_perm|exact Hin].
    + apply same_topped_up_takes in E2; destruct E2 as (n2 & T2).
      destruct sat2.
      * intros H; inversion H; subst st'; exists n2; split; auto; lia.
      * destruct (val <=? _ + _); [|discriminate].
        destruct (scan_char _ 0 dice _ _ st2) as [sat3 st3] eqn:E3.
        apply scan_char_spec with (dice := dice) in E3; auto.
        destruct E3 as (n3 & T3 & _); apply takes_any in T3.
        destruct sat3; [|discriminate]; intros H; inversion H; subst st'.
        exists (n2 ++ n3); split; [eapply takes_app; eauto|lia].
  - (* an element alone suffices *)
    intros H; inversion H; subst st'.
    apply scan_exact_spec with (dice := dice) in Hscan; auto.
    destruct Hscan as (new & T & R & Hall).
    exists new; split; [eapply takes_any; eauto|].
    intros Hval.
    assert (c = avail e 0 dice (used st)).
    { eapply dice_counter_in; eauto.
      eapply Permutation_in; [apply sorted_asc_perm|exact Hin]. }
    rewrite Hall in R by lia; lia.
Qed.

Lemma step_key_pays key val st st' :
  wf dice st ->
  step_key dice char_element key val st = Some st' ->
  wf dice st' /\
  if resolved key then pays dice val st st' else st' = st.
Proof.
  intros Hwf; unfold step_key, resolved, is_major.
  destruct ((1 <=? value key) && (value key <=? 7)) eqn:Hm; simpl.
  { intros H; apply step_major_pays in H; split; auto.
    destruct H as (new & T & _); eapply takes_wf; eauto. }
  destruct (elem_eqb key ANY) eqn:Ha; simpl.
  { intros H; apply step_any_pays in H; split; auto.
    destruct H as (new & T & _); eapply takes_wf; eauto. }
  destruct (elem_eqb key SAME) eqn:Hsm; simpl.
  { intros H; apply step_same_pays in H; auto; split; auto.
    destruct H as (new & T & _); eapply takes_wf; eauto. }
  intros H; inversion H; subst; auto.
Qed.

Lemma init_wf : wf dice (init dice).
Proof.
  unfold wf, init; simpl; conj.
  - apply length_map.
  - constructor.
  - intros i [].
Qed.

End Steps.

Section Runs.

Variable dice : list ElementType.
Variable char_element : ElementType.

Lemma run_keys_wf : forall cost st st',
  wf dice st ->
  run_keys dice char_element cost st = Some st' -> wf dice st'.
Proof.
  induction cost as [|[key val] cost IH]; intros st st' Hwf H; simpl in H.
  - inversion H; subst; auto.
  - destruct (step_key dice char_element key val st) as [st1|] eqn:E;
      [|discriminate].
    apply step_key_pays in E; auto; destruct E as [Hwf1 _]; eauto.
Qed.

Lemma run_keys_size : forall cost st st',
  wf dice st ->
  (forall key val, In (key, val) cost -> key <> POWER ->
                   resolved key = true /\ 1 <= val) ->
  run_keys dice char_element cost st = Some st' ->
  Z.of_nat (List.length (dice_idx st')) =
  Z.of_nat (List.length (dice_idx st)) + required_dice cost.
Proof.
  induction cost as [|[key val] cost IH]; intros st st' Hwf Hc H; simpl in H.
  - inversion H; subst; simpl; lia.
  - destruct (step_key dice char_element key val st) as [st1|] eqn:E;
      [|discriminate].
    apply step_key_pays in E; auto; destruct E as [Hwf1 Hp].
    rewrite (IH st1 st' Hwf1) by (auto; intros; apply Hc; simpl; auto).
    simpl required_dice.
    destruct (elem_eqb key POWER) eqn:Hk.
    + apply elem_eqb_eq in Hk; subst key; simpl in Hp; subst st1; lia.
    + apply elem_eqb_neq in Hk.
      destruct (Hc key val (or_introl eq_refl) Hk) as [Hr Hv].
      rewrite Hr in Hp; destruct Hp as (new & T & L).
      rewrite (takes_dice_idx _ _ _ _ _ T), length_app, Nat2Z.inj_add, L by lia.
      lia.
Qed.

(** A key the matcher resolves nothing for leaves every later key, and
    so the whole selection, as it would be without it. *)
Lemma run_keys_without_power : forall cost st,
  run_keys dice char_element cost st =
  run_keys dice char_element (without_power cost) st.
Proof.
  induction cost as [|[key val] cost IH]; intros st; simpl; auto.
  destruct (elem_eqb key POWER) eqn:Hk; simpl.
  - apply elem_eqb_eq in Hk; subst key; simpl; apply IH.
  - destruct (step_key dice char_element key val st); auto.
Qed.

End Runs.

(** C1 (as stated, refuted): a key with a required count of zero takes
    every matching die, so the matcher succeeds on dice [[PYRO]] and cost
    [{PYRO: 0}] with one index selected where the required counts sum to
    zero. *)
Lemma selection_size_fails_at_zero_count :
  select [PYRO] [(PYRO, 0)] NONE = Some [0%nat] /\
  Z.of_nat (List.length [0%nat]) <> required_dice [(PYRO, 0)].
Proof. split; [reflexivity|simpl; lia]. Qed.

(** C1 (amended): when every key of the cost other than Power is a major
    element, Any or Same and requires at least one die, a matcher run that
    completes all keys returns as many indices as the required counts of
    the keys other than Power add up to. *)
Theorem selection_size (dice : list ElementType) (cost : Cost)
                       (char_element : ElementType) (idxs : list nat) :
  (forall key val, In (key, val) cost -> key <> POWER ->
                   resolved key = true /\ 1 <= val) ->
  select dice cost char_element = Some idxs ->
  Z.of_nat (List.length idxs) = required_dice cost.
Proof.
  unfold select; intros Hc H.
  destruct (run_keys dice char_element cost (init dice)) as [st'|] eqn:E;
    [|discriminate].
  inversion H; subst idxs.
  rewrite (run_keys_size dice char_element cost (init dice) st'); auto.
  apply init_wf.
Qed.

(** The amended C1 on a cost with a major key, an Any key and a Power key. *)
Lemma selection_size_witness :
  select [PYRO; HYDRO; OMNI; CRYO; HYDRO] [(PYRO, 2); (ANY, 1); (POWER, 3)] CRYO
    = Some [0; 2; 1]%nat /\
  Z.of_nat (List.length [0; 2; 1]%nat) =
    required_dice [(PYRO, 2); (ANY, 1); (POWER, 3)].
Proof.
  split; [reflexivity|].
  apply (selection_size [PYRO; HYDRO; OMNI; CRYO; HYDRO]
           [(PYRO, 2); (ANY, 1); (POWER, 3)] CRYO).
  - intros key val [H|[H|[H|[]]]] Hk; inversion H; subst;
      try (split; [reflexivity|lia]); congruence.
  - reflexivity.
Defined.

(** C2: whatever the dice, the cost and the character's element, the
    indices returned by [get_dice_idx_greedy] are pairwise distinct and
    each lies in [[0, len(dice))]. *)
Theorem selection_distinct_in_range (dice : list ElementType) (cost : Cost)
                                    (char_element : ElementType) :
  NoDup (get_dice_idx_greedy dice cost char_element) /\
  Forall (fun i => (i < List.length dice)%nat)
         (get_dice_idx_greedy dice cost char_element).
Proof.
  unfold get_dice_idx_greedy, select.
  destruct (run_keys dice char_element cost (init dice)) as [st'|] eqn:E; simpl.
  - apply run_keys_wf in E; [|apply init_wf].
    destruct E as (_ & Hnd & Hin); split; auto.
    apply Forall_forall; intros i Hi; now apply Hin.
  - split; constructor.
Qed.

(** C3 (the code at the failing input): with dice [[OMNI, PYRO]], an Any
    key requiring one die and character element Cryo, the matcher selects
    the Universal die at index 0 although the Pyro die at index 1 is
    unused; its first pass accepts every die that differs from the
    character's element, Universal dice included. *)
Theorem any_key_takes_universal_die :
  get_dice_idx_greedy [OMNI; PYRO] [(ANY, 1)] CRYO = [0%nat] /\
  nth_error [OMNI; PYRO] 0 = Some OMNI /\
  nth_error [OMNI; PYRO] 1 = Some PYRO.
Proof. repeat split. Qed.

Section SameKey.

Variable dice : list ElementType.
Variable char_element : ElementType.

(** The flags after a run of takes are the flags before it together
    with the indices taken. *)
Lemma takes_used_flags P st new st' :
  takes dice P st new st' ->
  List.length (used st) = List.length dice ->
  forall i, is_used i (used st') = is_used i (used st) || mem i new.
Proof.
  induction 1 as [st|st idx die new st' Hd HP Hu Ht IH]; intros Hlen i.
  - simpl; now rewrite orb_false_r.
  - rewrite IH by (simpl; now rewrite set_used_length).
    simpl used; simpl mem.
    destruct (Nat.eqb_spec i idx) as [->|Hne].
    + rewrite is_used_set_same, orb_true_r; auto.
      rewrite Hlen; apply nth_error_Some; congruence.
    + rewrite is_used_set_other by congruence; reflexivity.
Qed.

Lemma same_enough_found val : forall entries remaining st,
  (exists e c, In (e, c) entries /\ special char_element e = false /\ val <= c) ->
  exists r' st',
    same_enough dice char_element val entries remaining st = (true, r', st').
Proof.
  induction entries as [|[e c] entries IH]; intros remaining st (e0 & c0 & Hin & Hs & Hv).
  - destruct Hin.
  - simpl; destruct (special char_element e) eqn:Hse.
    + apply IH; destruct Hin as [Heq|Hin]; [inversion Heq; congruence|eauto].
    + destruct (val <=? c) eqn:Hc.
      * destruct (scan_exact e 0 dice remaining st) as [r1 st1]; eauto.
      * apply Z.leb_gt in Hc.
        apply IH; destruct Hin as [Heq|Hin]; [inversion Heq; subst; lia|eauto].
Qed.

(** The first strategy of the Same branch, from any state the matcher
    can be in. *)
Lemma step_same_enough N st el :
  wf dice st -> 1 <= N ->
  special char_element el = false ->
  N <= avail el 0 dice (used st) ->
  exists el' new st',
    step_same dice char_element N st = Some st' /\
    special char_element el' = false /\
    N <= avail el' 0 dice (used st) /\
    takes dice (eq el') st new st' /\
    Z.of_nat (List.length new) = N.
Proof.
  intros Hwf HN Hs Hav; pose proof Hwf as (Hlen & _); unfold step_same.
  fold (dice_counter dice char_element (used st)).
  set (dc := dice_counter dice char_element (used st)).
  destruct (same_enough_found N (sorted_asc dc) N st) as (r1 & st1 & E).
  { exists el, (avail el 0 dice (used st)); conj; auto.
    eapply Permutation_in; [apply Permutation_sym, sorted_asc_perm|].
    apply dice_counter_has; auto; lia. }
  rewrite E.
  apply same_enough_spec in E.
  destruct E as [(Hf & _)|(_ & e & c & Hin & Hse & Hv & Hscan)];
    [discriminate|].
  assert (Hc : c = avail e 0 dice (used st)).
  { eapply dice_counter_in; eauto.
    eapply Permutation_in; [apply sorted_asc_perm|exact Hin]. }
  apply scan_exact_spec with (dice := dice) in Hscan; auto.
  destruct Hscan as (new & T & R & Hall).
  exists e, new, st1; conj; auto; lia.
Qed.

End SameKey.

(** C4: for a Same key requiring [N >= 1] dice, from any state of the
    matcher in which some element [el] other than Universal and the
    character's element has at least [N] unused dice, the key succeeds by
    taking exactly [N] unused dice, all of one element [el'] that is
    neither Universal nor the character's element and has at least [N]
    unused dice; no other die changes its flag, so no Universal die is
    consumed.  In particular dice [[PYRO, PYRO, OMNI, HYDRO]] with cost
    [{SAME: 2}] and character element Cryo give the indices 0 and 1. *)
Theorem same_key_exact_group (dice : list ElementType)
                             (char_element el : ElementType) (N : Z)
                             (st : State) :
  wf dice st ->
  1 <= N ->
  el <> OMNI -> el <> char_element ->
  N <= avail el 0 dice (used st) ->
  (exists el' new st',
      step_key dice char_element SAME N st = Some st' /\
      el' <> OMNI /\ el' <> char_element /\
      N <= avail el' 0 dice (used st) /\
      dice_idx st' = dice_idx st ++ new /\
      Z.of_nat (List.length new) = N /\
      NoDup new /\
      Forall (fun i => nth_error dice i = Some el' /\
                       is_used i (used st) = false) new /\
      (forall i, is_used i (used st') = is_used i (used st) || mem i new)) /\
  get_dice_idx_greedy [PYRO; PYRO; OMNI; HYDRO] [(SAME, 2)] CRYO = [0; 1]%nat.
Proof.
  intros Hwf HN Ho Hc Hav; split; [|reflexivity].
  destruct (step_same_enough dice char_element N st el) as
    (el' & new & st' & Hstep & Hs & Hav' & T & L); auto.
  { unfold special; apply orb_false_iff; split; now apply elem_eqb_neq. }
  exists el', new, st'.
  unfold special in Hs; apply orb_false_iff in Hs; destruct Hs as [Hs1 Hs2].
  apply elem_eqb_neq in Hs1, Hs2.
  conj; auto.
  - eapply takes_dice_idx; eauto.
  - eapply takes_NoDup; eauto.
  - eapply Forall_impl; [|eapply takes_each; eauto]; simpl.
    intros i (Hu & die & Hd & <-); auto.
  - destruct Hwf as (Hlen & _); eapply takes_used_flags; eauto.
Qed.

(** C4 on the dice [[PYRO, PYRO, OMNI, HYDRO]] from the initial state. *)
Lemma same_key_exact_group_witness :
  (exists el' new st',
      step_key [PYRO; PYRO; OMNI; HYDRO] CRYO SAME 2
               (init [PYRO; PYRO; OMNI; HYDRO]) = Some st' /\
      el' <> OMNI /\ el' <> CRYO /\
      2 <= avail el' 0 [PYRO; PYRO; OMNI; HYDRO]
                 (used (init [PYRO; PYRO; OMNI; HYDRO])) /\
      dice_idx st' = dice_idx (init [PYRO; PYRO; OMNI; HYDRO]) ++ new /\
      Z.of_nat (List.length new) = 2 /\
      NoDup new /\
      Forall (fun i => nth_error [PYRO; PYRO; OMNI; HYDRO] i = Some el' /\
                       is_used i (used (init [PYRO; PYRO; OMNI; HYDRO])) = false)
             new /\
      (forall i, is_used i (used st') =
                 is_used i (used (init [PYRO; PYRO; OMNI; HYDRO])) || mem i new)) /\
  get_dice_idx_greedy [PYRO; PYRO; OMNI; HYDRO] [(SAME, 2)] CRYO = [0; 1]%nat.
Proof.
  apply (same_key_exact_group [PYRO; PYRO; OMNI; HYDRO] CRYO PYRO 2
           (init [PYRO; PYRO; OMNI; HYDRO])).
  - apply init_wf.
  - lia.
  - discriminate.
  - discriminate.
  - vm_compute; discriminate.
Defined.

(* ================================================================== *)
(** ** Properties of the multi-action cursor *)

Module CursorProps.

Import MultipleActionAgent.

Section Cursor.

Variable policy : GameInfo -> Generator.

Lemma next_pending it a rest :
  pending it = a :: rest ->
  next it = (Yielded a, mkGenerator rest (ending it)).
Proof. unfold next; intros ->; reflexivity. Qed.

Lemma next_exhausted it :
  pending it = [] -> ending it = Stops -> next it = (StopIteration, it).
Proof. unfold next; intros -> ->; reflexivity. Qed.

(** With items left, the cursor hands out the next one. *)
Lemma take_action_pending it a rest game_info :
  pending it = a :: rest ->
  take_action policy (mkAgent (Some it)) game_info =
  (Return a, mkAgent (Some (mkGenerator rest (ending it)))).
Proof.
  intros H; unfold take_action; simpl; now rewrite (next_pending _ _ _ H).
Qed.

(** Without a cursor, or with an exhausted one, a sequence is derived
    from the snapshot of the call. *)
Lemma take_action_fresh self game_info :
  _current_iter self = None \/
  (exists it, _current_iter self = Some it /\
              pending it = [] /\ ending it = Stops) ->
  take_action policy self game_info = start_fresh policy game_info.
Proof.
  unfold take_action; intros [->|(it & -> & Hp & He)]; auto.
  now rewrite next_exhausted.
Qed.

(** A derived sequence that raises before its first item makes the call
    raise the same exception; the generator is finished afterwards. *)
Lemma take_action_failing self game_info e :
  _current_iter self = None ->
  policy game_info = mkGenerator [] (Raises e) ->
  take_action policy self game_info =
  (Raise e, mkAgent (Some (mkGenerator [] Stops))).
Proof.
  unfold take_action, start_fresh; intros -> ->; reflexivity.
Qed.

End Cursor.

End CursorProps.

Import MultipleActionAgent.

(** C6: while the sequence started earlier has items left, [take_action]
    returns the next item and keeps the rest, whatever the policy and the
    snapshot of the call (no new sequence is derived).  With a policy that
    yields two actions for the first snapshot, a new agent returns the
    first action, then the second, and at the third call, the sequence
    being exhausted, does what a new agent does on the snapshot of that
    call: it returns the first action of the sequence derived from it. *)
Theorem cursor_yields_in_order (policy : GameInfo -> Generator) :
  (forall it a rest game_info policy' game_info',
      pending it = a :: rest ->
      take_action policy (mkAgent (Some it)) game_info =
        (Return a, mkAgent (Some (mkGenerator rest (ending it)))) /\
      take_action policy' (mkAgent (Some it)) game_info' =
        take_action policy (mkAgent (Some it)) game_info) /\
  (forall g1 g2 g3 a b,
      policy g1 = mkGenerator [a; b] Stops ->
      let call1 := take_action policy new g1 in
      let call2 := take_action policy (snd call1) g2 in
      let call3 := take_action policy (snd call2) g3 in
      fst call1 = Return a /\
      fst call2 = Return b /\
      call3 = take_action policy new g3 /\
      (forall c rest e, policy g3 = mkGenerator (c :: rest) e ->
                        call3 = (Return c, mkAgent (Some (mkGenerator rest e))))).
Proof.
  split.
  - intros it a rest game_info policy' game_info' H.
    now rewrite !(CursorProps.take_action_pending _ it a rest) by assumption.
  - intros g1 g2 g3 a b H; cbv zeta.
    assert (E1 : take_action policy new g1 =
                 (Return a, mkAgent (Some (mkGenerator [b] Stops)))).
    { unfold take_action, new, start_fresh; simpl; rewrite H; reflexivity. }
    rewrite E1; simpl snd.
    assert (E2 : take_action policy (mkAgent (Some (mkGenerator [b] Stops))) g2 =
                 (Return b, mkAgent (Some (mkGenerator [] Stops)))).
    { reflexivity. }
    rewrite E2; simpl snd; simpl fst.
    assert (E3 : take_action policy (mkAgent (Some (mkGenerator [] Stops))) g3 =
                 take_action policy new g3) by reflexivity.
    rewrite E3; conj; auto.
    intros c rest e Hg3.
    unfold take_action, new, start_fresh; simpl; rewrite Hg3; reflexivity.
Qed.

(** C6 on a policy that yields two actions at [PLAY_CARDS]. *)
Lemma cursor_yields_in_order_witness :
  let call1 := take_action Examples.two_step new Examples.charged_info in
  let call2 := take_action Examples.two_step (snd call1) Examples.one_left_info in
  let call3 := take_action Examples.two_step (snd call2) Examples.one_left_info in
  fst call1 = Return (RollDiceAction [0%nat]) /\
  fst call2 = Return DeclareEndAction /\
  call3 = take_action Examples.two_step new Examples.one_left_info /\
  fst call3 = Return (ChangeCardsAction []) /\
  take_action Examples.silent (snd call1) Examples.one_left_info =
    (Return DeclareEndAction, mkAgent (Some (mkGenerator [] Stops))).
Proof.
  cbv zeta.
  destruct (cursor_yields_in_order Examples.two_step) as [Hnext Htwo].
  destruct (Htwo Examples.charged_info Examples.one_left_info
                 Examples.one_left_info (RollDiceAction [0%nat])
                 DeclareEndAction eq_refl) as (H1 & H2 & H3 & H4).
  conj; [exact H1 | exact H2 | exact H3 | |].
  - rewrite (H4 (ChangeCardsAction []) [] Stops eq_refl); reflexivity.
  - destruct (Hnext (mkGenerator [DeclareEndAction] Stops) DeclareEndAction []
                    Examples.one_left_info Examples.silent
                    Examples.one_left_info eq_refl) as [_ H5].
    exact H5.
Defined.

(** C7: whenever [take_action] derives a sequence (no cursor yet, or the
    cursor exhausted), a sequence that ends without yielding makes it raise
    [NoActionAssigned], carrying the snapshot, and a sequence that yields
    at least one action makes it return the first one and keep the rest. *)
Theorem empty_sequence_raises (policy : GameInfo -> Generator)
                              (self : Agent) (game_info : GameInfo) :
  _current_iter self = None \/
  (exists it, _current_iter self = Some it /\
              pending it = [] /\ ending it = Stops) ->
  (policy game_info = mkGenerator [] Stops ->
   take_action policy self game_info =
     (Raise (NoActionAssigned game_info),
      mkAgent (Some (mkGenerator [] Stops)))) /\
  (forall a rest e,
     policy game_info = mkGenerator (a :: rest) e ->
     take_action policy self game_info =
       (Return a, mkAgent (Some (mkGenerator rest e)))).
Proof.
  intros Hfresh; rewrite (CursorProps.take_action_fresh policy self game_info Hfresh).
  unfold start_fresh; split.
  - intros ->; reflexivity.
  - intros a rest e ->; reflexivity.
Qed.

(** C7 on a policy that yields nothing at [ROUND_END]. *)
Lemma empty_sequence_raises_witness :
  take_action Examples.silent new Examples.one_left_info =
    (Raise (NoActionAssigned Examples.one_left_info),
     mkAgent (Some (mkGenerator [] Stops))) /\
  take_action Examples.silent new Examples.charged_info =
    (Return DeclareEndAction, mkAgent (Some (mkGenerator [] Stops))).
Proof.
  split.
  - apply (empty_sequence_raises Examples.silent new Examples.one_left_info);
      [left|]; reflexivity.
  - apply (empty_sequence_raises Examples.silent new Examples.charged_info);
      [left|]; reflexivity.
Defined.

(* ================================================================== *)
(** ** Properties of the defeated-character branches *)

Module DefeatedProps.

Import AgentSpec.

Lemma CharPos_of_value k p : CharPos_of k = Some p -> CharPos_value p = k.
Proof.
  destruct k as [|[|[|k]]]; simpl; intros H; inversion H; reflexivity.
Qed.

Lemma CharPos_of_small k : (k < 3)%nat -> exists p, CharPos_of k = Some p.
Proof.
  destruct k as [|[|[|k]]]; simpl; intros H; eauto; lia.
Qed.

Lemma first_alive_none : forall cs k,
  first_alive_from k cs = None <-> none_alive cs.
Proof.
  unfold none_alive; induction cs as [|c cs IH]; intros k; simpl.
  - split; auto; intros _ c [].
  - destruct (alive (character c)) eqn:Ha; split.
    + discriminate.
    + intros H; specialize (H c (or_introl eq_refl)); congruence.
    + intros H c' [<-|Hin]; auto; eapply IH; eauto.
    + intros H; apply (IH (S k)); auto.
Qed.

Lemma first_alive_bound : forall cs k j,
  first_alive_from k cs = Some j -> (k <= j < k + List.length cs)%nat.
Proof.
  induction cs as [|c cs IH]; intros k j; simpl; [discriminate|].
  destruct (alive (character c)).
  - intros H; inversion H; lia.
  - intros H; apply IH in H; lia.
Qed.

(** The first alive slot is alive and no slot before it is. *)
Lemma first_alive_is_first : forall cs k j,
  first_alive_from k cs = Some j ->
  (exists c, nth_error cs (j - k) = Some c /\ alive (character c) = true) /\
  (forall i c, (i < j - k)%nat -> nth_error cs i = Some c ->
               alive (character c) = false).
Proof.
  induction cs as [|c cs IH]; intros k j; simpl; [discriminate|].
  destruct (alive (character c)) eqn:Ha.
  - intros H; inversion H; subst; rewrite Nat.sub_diag; split; [exists c; simpl; auto|].
    intros i c' Hi; lia.
  - intros H; pose proof (first_alive_bound _ _ _ H) as Hb.
    apply IH in H; destruct H as [(c' & Hn & Hc') Hbefore].
    replace (j - k)%nat with (S (j - S k)) by lia; split; [exists c'; simpl; auto|].
    intros [|i] c'' Hi Hn'; simpl in Hn'.
    + inversion Hn'; subst; auto.
    + apply (Hbefore i); auto; lia.
Qed.

(** With no slot alive the comprehension is empty, whatever the number of
    slots. *)
Lemma alive_positions_none : forall cs k,
  none_alive cs -> alive_positions_from k cs = Return [].
Proof.
  unfold none_alive; induction cs as [|c cs IH]; intros k H; simpl; auto.
  rewrite (H c (or_introl eq_refl)); apply IH; intros; apply H; simpl; auto.
Qed.

(** With at most three slots the comprehension succeeds and starts with
    the position of the first alive slot. *)
Lemma alive_positions_first : forall cs k j,
  (k + List.length cs <= 3)%nat ->
  first_alive_from k cs = Some j ->
  exists p ps, CharPos_of j = Some p /\
               alive_positions_from k cs = Return (p :: ps).
Proof.
  assert (Htotal : forall cs k, (k + List.length cs <= 3)%nat ->
                     exists ps, alive_positions_from k cs = Return ps).
  { induction cs as [|c cs IH]; intros k Hk; simpl in *; [eauto|].
    destruct (IH (S k)) as (ps & Hps); [lia|].
    destruct (alive (character c)); [|eauto].
    destruct (CharPos_of_small k) as (p & Hp); [lia|].
    rewrite Hp, Hps; eauto. }
  induction cs as [|c cs IH]; intros k j Hk; simpl in *; [discriminate|].
  destruct (alive (character c)).
  - intros H; inversion H; subst j.
    destruct (CharPos_of_small k) as (p & Hp); [lia|].
    destruct (Htotal cs (S k)) as (ps & Hps); [lia|].
    rewrite Hp, Hps; eauto.
  - apply IH; lia.
Qed.

Section Branch.

Variable get_character_card : string -> CharacterCard.
Variable player_id : PlayerID.
Variable game_info : GameInfo.
Variable character_info : CharacterInfo.

Let player_info := get_player_info game_info.

Hypothesis Hactive :
  nth_error (characters player_info)
            (CharPos_value (active_character_position player_info))
  = Some character_info.

Lemma round_end_healthy :
  0 < health_point (character character_info) ->
  SimpleAgent.take_action_on_round_end game_info = Return DeclareEndAction.
Proof.
  intros Hhp; unfold SimpleAgent.take_action_on_round_end, index.
  fold player_info; rewrite Hactive.
  destruct (health_point (character character_info) <=? 0) eqn:E; auto.
  apply Z.leb_le in E; lia.
Qed.

Hypothesis Hdown : health_point (character character_info) <= 0.

Lemma defeated_none_alive :
  none_alive (characters player_info) ->
  SimpleAgent.take_action_on_round_end game_info = Raise IndexError /\
  AttackOnlyAgent.take_action_on_play_cards get_character_card player_id
    game_info = Raise IndexError /\
  GenericMultipleAction.yield_actions_on_round_end game_info =
    MultipleActionAgent.mkGenerator [] (MultipleActionAgent.Raises IndexError).
Proof.
  intros Hnone; apply Z.leb_le in Hdown.
  unfold SimpleAgent.take_action_on_round_end,
    AttackOnlyAgent.take_action_on_play_cards,
    AttackOnlyAgent.play_cards_body,
    GenericMultipleAction.yield_actions_on_round_end, index, alive_positions.
  fold player_info; rewrite Hactive; simpl.
  rewrite Hdown, (alive_positions_none _ 0%nat Hnone); simpl; auto.
Qed.

Lemma round_end_defeated k :
  (List.length (characters player_info) <= 3)%nat ->
  first_alive (characters player_info) = Some k ->
  exists p, CharPos_of k = Some p /\
    SimpleAgent.take_action_on_round_end game_info =
      Return (ChangeCharacterAction p []).
Proof.
  intros Hlen Hfirst; apply Z.leb_le in Hdown.
  destruct (alive_positions_first _ 0%nat k Hlen Hfirst) as (p & ps & Hp & Hps).
  exists p; split; auto.
  unfold SimpleAgent.take_action_on_round_end, index, alive_positions.
  fold player_info; rewrite Hactive, Hdown, Hps; reflexivity.
Qed.

Lemma defeated_first_alive k :
  (List.length (characters player_info) <= 3)%nat ->
  first_alive (characters player_info) = Some k ->
  exists p, CharPos_of k = Some p /\
    SimpleAgent.take_action_on_round_end game_info =
      Return (ChangeCharacterAction p []) /\
    AttackOnlyAgent.take_action_on_play_cards get_character_card player_id
      game_info = Return (ChangeCharacterAction p []) /\
    GenericMultipleAction.yield_actions_on_round_end game_info =
      MultipleActionAgent.mkGenerator [ChangeCharacterAction p []]
                                      MultipleActionAgent.Stops.
Proof.
  intros Hlen Hfirst; apply Z.leb_le in Hdown.
  destruct (alive_positions_first _ 0%nat k Hlen Hfirst) as (p & ps & Hp & Hps).
  exists p; split; auto.
  unfold SimpleAgent.take_action_on_round_end,
    AttackOnlyAgent.take_action_on_play_cards,
    AttackOnlyAgent.play_cards_body,
    GenericMultipleAction.yield_actions_on_round_end, index, alive_positions.
  fold player_info; rewrite Hactive; simpl.
  rewrite Hdown, Hps; simpl; auto.
Qed.

End Branch.

End DefeatedProps.

Import AgentSpec.

(** C8: for a snapshot whose active slot exists among at most three
    slots, [SimpleAgent.take_action_on_round_end] returns, when the active
    character's health is at most zero, a change to the position of the
    first slot in slot order whose alive flag is set, with no dice, and
    otherwise [DeclareEndAction].  In particular, when the active
    character's health is at most zero and the alive flag is set for one
    slot only, which is not the active one, the action is a change to that
    slot's position and not [DeclareEndAction]. *)
Theorem round_end_default (game_info : GameInfo) (character_info : CharacterInfo) :
  let player_info := get_player_info game_info in
  let active := CharPos_value (active_character_position player_info) in
  nth_error (characters player_info) active = Some character_info ->
  (List.length (characters player_info) <= 3)%nat ->
  (health_point (character character_info) <= 0 ->
   forall k, first_alive (characters player_info) = Some k ->
     exists p, CharPos_of k = Some p /\ CharPos_value p = k /\
       SimpleAgent.take_action_on_round_end game_info =
         Return (ChangeCharacterAction p [])) /\
  (0 < health_point (character character_info) ->
   SimpleAgent.take_action_on_round_end game_info = Return DeclareEndAction) /\
  (health_point (character character_info) <= 0 ->
   forall k other,
     k <> active ->
     nth_error (characters player_info) k = Some other ->
     (forall j c, nth_error (characters player_info) j = Some c ->
                  (alive (character c) = true <-> j = k)) ->
     exists p, CharPos_of k = Some p /\ CharPos_value p = k /\
       SimpleAgent.take_action_on_round_end game_info =
         Return (ChangeCharacterAction p []) /\
       SimpleAgent.take_action_on_round_end game_info <>
         Return DeclareEndAction).
Proof.
  intros player_info active Hactive Hlen.
  assert (Hswitch : health_point (character character_info) <= 0 ->
    forall k, first_alive (characters player_info) = Some k ->
      exists p, CharPos_of k = Some p /\ CharPos_value p = k /\
        SimpleAgent.take_action_on_round_end game_info =
          Return (ChangeCharacterAction p [])).
  { intros Hdown k Hk.
    destruct (DefeatedProps.round_end_defeated game_info character_info
                Hactive Hdown k Hlen Hk) as (p & Hp & H1).
    exists p; conj; auto; now apply DefeatedProps.CharPos_of_value. }
  conj; auto.
  - now apply DefeatedProps.round_end_healthy.
  - intros Hdown k other Hne Hk Honly.
    assert (Hfirst : first_alive (characters player_info) = Some k).
    { unfold first_alive.
      destruct (first_alive_from 0 (characters player_info)) as [j|] eqn:E.
      - apply DefeatedProps.first_alive_is_first in E.
        destruct E as [(c & Hc & Ha) _]; rewrite Nat.sub_0_r in Hc.
        f_equal; now apply (Honly j c).
      - apply DefeatedProps.first_alive_none in E.
        assert (alive (character other) = true) by now apply (Honly k other).
        apply nth_error_In in Hk; apply E in Hk; congruence. }
    destruct (Hswitch Hdown k Hfirst) as (p & Hp & Hv & Hact).
    exists p; conj; auto; rewrite Hact; discriminate.
Qed.

(** C8 on a snapshot with the right slot alive only, and on a healthy one. *)
Lemma round_end_default_witness :
  SimpleAgent.take_action_on_round_end Examples.one_left_info =
    Return (ChangeCharacterAction RIGHT []) /\
  SimpleAgent.take_action_on_round_end Examples.one_left_info <>
    Return DeclareEndAction /\
  SimpleAgent.take_action_on_round_end Examples.charged_info =
    Return DeclareEndAction.
Proof.
  destruct (round_end_default Examples.one_left_info (Examples.slot 0 false 0)
              eq_refl ltac:(simpl; lia)) as (_ & _ & Hone).
  destruct (Hone ltac:(simpl; lia) 2%nat (Examples.slot 7 true 0)
              ltac:(discriminate) eq_refl) as (p & Hp & _ & Hact & Hnot).
  { intros [|[|[|j]]] c H; simpl in H; inversion H; subst; simpl;
      split; congruence || (try discriminate).
    destruct j; discriminate. }
  inversion Hp; subst p.
  destruct (round_end_default Examples.charged_info (Examples.slot 10 true 3)
              eq_refl ltac:(simpl; lia)) as (_ & Hhealthy & _).
  conj; [exact Hact | exact Hnot | apply Hhealthy; simpl; lia].
Defined.

(** C10: in the three defeated-character branches
    ([SimpleAgent.take_action_on_round_end],
    [AttackOnlyAgent.take_action_on_play_cards] and
    [GenericMultipleAction.yield_actions_on_round_end]) the first element
    of the list of alive positions is read.  When the active character's
    health is at most zero and no slot has its alive flag set, the list is
    empty and the read is out of bounds: each of the three raises
    [IndexError].  When some slot (of at most three) is alive, each of
    them produces the change to the first alive slot. *)
Theorem defeated_branch_needs_alive_slot
    (get_character_card : string -> CharacterCard) (player_id : PlayerID)
    (game_info : GameInfo) (character_info : CharacterInfo) :
  let player_info := get_player_info game_info in
  nth_error (characters player_info)
            (CharPos_value (active_character_position player_info))
    = Some character_info ->
  health_point (character character_info) <= 0 ->
  (none_alive (characters player_info) ->
     alive_positions (characters player_info) = Return [] /\
     SimpleAgent.take_action_on_round_end game_info = Raise IndexError /\
     AttackOnlyAgent.take_action_on_play_cards get_character_card player_id
       game_info = Raise IndexError /\
     GenericMultipleAction.yield_actions_on_round_end game_info =
       mkGenerator [] (Raises IndexError)) /\
  (forall k,
     first_alive (characters player_info) = Some k ->
     (List.length (characters player_info) <= 3)%nat ->
     exists p, CharPos_of k = Some p /\
       SimpleAgent.take_action_on_round_end game_info =
         Return (ChangeCharacterAction p []) /\
       AttackOnlyAgent.take_action_on_play_cards get_character_card player_id
         game_info = Return (ChangeCharacterAction p []) /\
       GenericMultipleAction.yield_actions_on_round_end game_info =
         mkGenerator [ChangeCharacterAction p []] Stops).
Proof.
  intros player_info Hactive Hdown; split.
  - intros Hnone; split.
    + now apply DefeatedProps.alive_positions_none.
    + now apply DefeatedProps.defeated_none_alive with (character_info := character_info).
  - intros k Hk Hlen.
    now apply DefeatedProps.defeated_first_alive with (character_info := character_info).
Qed.

(** C10 on a snapshot with no slot alive, and on one with the right slot
    alive. *)
Lemma defeated_branch_needs_alive_slot_witness :
  (SimpleAgent.take_action_on_round_end Examples.all_down_info = Raise IndexError /\
   AttackOnlyAgent.take_action_on_play_cards Examples.lookup PLAYER1
     Examples.all_down_info = Raise IndexError /\
   GenericMultipleAction.yield_actions_on_round_end Examples.all_down_info =
     mkGenerator [] (Raises IndexError)) /\
  AttackOnlyAgent.take_action_on_play_cards Examples.lookup PLAYER1
    Examples.one_left_info = Return (ChangeCharacterAction RIGHT []).
Proof.
  split.
  - destruct (defeated_branch_needs_alive_slot Examples.lookup PLAYER1
                Examples.all_down_info (Examples.slot 0 false 0)
                eq_refl ltac:(simpl; lia)) as [Hnone _].
    apply Hnone.
    intros c [<-|[<-|[<-|[]]]]; reflexivity.
  - destruct (defeated_branch_needs_alive_slot Examples.lookup PLAYER1
                Examples.one_left_info (Examples.slot 0 false 0)
                eq_refl ltac:(simpl; lia)) as [_ Hsome].
    destruct (Hsome 2%nat eq_refl ltac:(simpl; lia)) as (p & Hp & _ & H & _).
    inversion Hp; subst p; exact H.
Defined.

(* ================================================================== *)
(** ** Properties of the attack policy *)

Module PolicyProps.

Import AgentSpec AttackOnlyAgent.

Section Blocks.

Context {A B : Type}.

Lemma all_calls_bind Q (m : Body A) (k : A -> Body B) :
  all_calls Q m ->
  (forall a, snd m = Falls a -> all_calls Q (k a)) ->
  all_calls Q (bind m k).
Proof.
  unfold all_calls; destruct m as [calls [a|act|e]]; simpl; auto.
  intros Hm Hk; specialize (Hk a eq_refl).
  destruct (k a) as [calls' o]; simpl in *.
  apply Forall_app; auto.
Qed.

Lemma returns_only_bind R (m : Body A) (k : A -> Body B) :
  returns_only R m ->
  (forall a, snd m = Falls a -> returns_only R (k a)) ->
  returns_only R (bind m k).
Proof.
  unfold returns_only; destruct m as [calls [a|act|e]]; simpl.
  - intros _ Hk act; specialize (Hk a eq_refl act).
    destruct (k a) as [calls' o]; simpl in *; auto.
  - intros Hm _ act' H; inversion H; subst act'; exact (Hm act eq_refl).
  - intros _ _ act H; discriminate.
Qed.

Lemma all_calls_pass Q (a : A) : all_calls Q (pass a).
Proof. constructor. Qed.

Lemma all_calls_return Q act : all_calls Q (@return_ A act).
Proof. constructor. Qed.

Lemma all_calls_lift Q (r : result A) : all_calls Q (lift r).
Proof. destruct r; constructor. Qed.

Lemma returns_only_pass R (a : A) : returns_only R (pass a).
Proof. intros act H; discriminate. Qed.

Lemma returns_only_lift R (r : result A) : returns_only R (lift r).
Proof. destruct r; intros act H; discriminate. Qed.

Lemma lift_falls (r : result A) a : snd (lift r) = Falls a -> r = Return a.
Proof. destruct r; simpl; congruence. Qed.

End Blocks.

Lemma ends_with_bind {A} R (m : Body A) (k : A -> Body Action) :
  returns_only R m ->
  (forall a, snd m = Falls a -> ends_with R (k a)) ->
  ends_with R (bind m k).
Proof.
  unfold returns_only, ends_with; destruct m as [calls [a|act|e]]; simpl; auto.
  intros _ Hk; specialize (Hk a eq_refl).
  destruct (k a) as [calls' o]; simpl in *; auto.
Qed.

Lemma returns_only_matcher R purpose dice cost e :
  returns_only R (matcher purpose dice cost e).
Proof. intros act H; discriminate. Qed.

Lemma length_pos_nonempty (d : list nat) :
  (0 <? List.length d)%nat = true -> d <> [].
Proof. destruct d; simpl; [discriminate|congruence]. Qed.

Section Policy.

Variable get_character_card : string -> CharacterCard.
Variable player_id : PlayerID.
Variable game_info : GameInfo.

Let Q := burst_checked get_character_card game_info.

Lemma card_block_calls player_info card_data card cost target d :
  all_calls Q (card_block player_id player_info card_data card cost target d).
Proof.
  unfold card_block.
  destruct (in_hand card (hand_cards player_info)); [|apply all_calls_pass].
  apply all_calls_bind.
  - constructor; [|constructor]; intros H; discriminate.
  - intros idxs _; destruct (0 <? List.length idxs)%nat; [|apply all_calls_pass].
    apply all_calls_bind; [apply all_calls_lift|].
    intros; apply all_calls_return.
Qed.



Lemma skill_block_calls (guard : bool) skill_type dice skill e
                        (skill_name : string) (d : list nat) :
  (guard = true -> Q (mkCall (ForSkill skill_type) dice (Skill.costs skill) e)) ->
  all_calls Q
    (if guard then
       dice_idx <- matcher (ForSkill skill_type) dice (Skill.costs skill) e ;;
       if (0 <? List.length dice_idx)%nat
       then pass (Skill.name skill, dice_idx)
       else pass (skill_name, dice_idx)
     else pass (skill_name, d)).
Proof.
  intros HQ; destruct guard; [|apply all_calls_pass].
  apply all_calls_bind.
  - constructor; [auto|constructor].
  - intros idxs _; destruct (0 <? List.length idxs)%nat; apply all_calls_pass.
Qed.

(** Every burst invocation is made with the burst's whole cost mapping
    after the energy test. *)
Lemma play_cards_calls :
  all_calls Q (play_cards_body get_character_card player_id game_info).
Proof.
  unfold play_cards_body.
  apply all_calls_bind; [apply all_calls_lift|].
  intros character_info Hci; apply lift_falls in Hci.
  apply all_calls_bind.
  { destruct (health_point (character character_info) <=? 0);
      [|apply all_calls_pass].
    apply all_calls_bind; [apply all_calls_lift|]; intros ps _.
    apply all_calls_bind; [apply all_calls_lift|]; intros p _.
    apply all_calls_return. }
  intros _ _.
  apply all_calls_bind; [apply card_block_calls|]; intros d1 _.
  apply all_calls_bind; [apply card_block_calls|]; intros d2 _.
  apply all_calls_bind; [apply card_block_calls|]; intros d3 _.
  apply all_calls_bind; [apply all_calls_lift|].
  intros energy Henergy; apply lift_falls in Henergy.
  apply all_calls_bind.
  { apply skill_block_calls; intros Hguard _; apply Z.eqb_eq in Hguard.
    exists character_info, energy; simpl; conj; auto.
    unfold index in Hci.
    destruct (nth_error _ _); inversion Hci; reflexivity. }
  intros [n1 d4] _.
  apply all_calls_bind.
  { apply skill_block_calls; intros _ H; discriminate. }
  intros [n2 d5] _.
  apply all_calls_bind.
  { apply skill_block_calls; intros _ H; discriminate. }
  intros [n3 d6] _.
  destruct (List.length d6 =? 0)%nat; apply all_calls_return.
Qed.


End Policy.

End PolicyProps.

Import AgentSpec AttackOnlyAgent.

(** C5 (as stated, refuted): with a charged active character the attack
    policy invokes the matcher for the elemental burst with the burst's
    whole cost mapping, whose keys include [POWER]. *)
Lemma matcher_given_power_key :
  matcher_calls Examples.lookup PLAYER1 Examples.charged_info =
    [mkCall (ForSkill ELEMENTAL_BURST) [CRYO; CRYO; CRYO]
            [(CRYO, 3); (POWER, 3)] CRYO] /\
  In POWER (map fst [(CRYO, 3); (POWER, 3)]).
Proof. split; [reflexivity|simpl; auto]. Qed.

(** C5 (amended): the matcher resolves no die against a Power key: a
    Power-keyed entry leaves the selection state as it is and cannot fail,
    so the result on a cost mapping is the result on the mapping without
    its Power entries.  The attack policy does hand the burst's whole cost
    mapping, Power entry included, to the matcher, and every such
    invocation is made after the test that the character's stored energy
    equals that entry. *)
Theorem power_key_skipped_by_matcher
    (get_character_card : string -> CharacterCard) (player_id : PlayerID)
    (game_info : GameInfo) :
  (forall dice char_element n st,
      step_key dice char_element POWER n st = Some st) /\
  (forall dice cost char_element,
      select dice cost char_element =
        select dice (without_power cost) char_element /\
      get_dice_idx_greedy dice cost char_element =
        get_dice_idx_greedy dice (without_power cost) char_element) /\
  (forall c, In c (matcher_calls get_character_card player_id game_info) ->
             burst_checked get_character_card game_info c).
Proof.
  conj.
  - reflexivity.
  - intros dice cost char_element.
    unfold get_dice_idx_greedy, select.
    now rewrite <- run_keys_without_power.
  - intros c Hc.
    pose proof (PolicyProps.play_cards_calls get_character_card player_id
                  game_info) as H.
    unfold all_calls in H; rewrite Forall_forall in H; now apply H.
Qed.

(** The amended C5 on the burst invocation of the charged snapshot. *)
Lemma power_key_skipped_by_matcher_witness :
  get_dice_idx_greedy [CRYO; CRYO; CRYO] [(CRYO, 3); (POWER, 3)] CRYO =
    get_dice_idx_greedy [CRYO; CRYO; CRYO] [(CRYO, 3)] CRYO /\
  exists character_info energy,
    nth_error (characters Examples.charged) 1 = Some character_info /\
    AttackOnlyAgent.cost_lookup POWER [(CRYO, 3); (POWER, 3)] = Return energy /\
    power (character character_info) = energy.
Proof.
  destruct (power_key_skipped_by_matcher Examples.lookup PLAYER1
              Examples.charged_info) as (_ & Hsel & Hcalls).
  split.
  - exact (proj2 (Hsel [CRYO; CRYO; CRYO] [(CRYO, 3); (POWER, 3)] CRYO)).
  - destruct (Hcalls (mkCall (ForSkill ELEMENTAL_BURST) [CRYO; CRYO; CRYO]
                             [(CRYO, 3); (POWER, 3)] CRYO)
                     (or_introl eq_refl) eq_refl)
      as (character_info & energy & H1 & _ & H3 & H4).
    exists character_info, energy; conj; assumption.
Defined.

(* ================================================================== *)
(** ** Further properties of the matcher *)

Import MatcherCounts.

Section CountingScans.

Variable dice : list ElementType.

Lemma avail_if_cons P idx die ds u :
  avail_if P idx (die :: ds) u =
  (if negb (is_used idx u) && P die then 1 else 0) + avail_if P (S idx) ds u.
Proof. reflexivity. Qed.

Lemma avail_if_nonneg P u : forall ds idx, 0 <= avail_if P idx ds u.
Proof.
  induction ds as [|d ds IH]; intros idx; simpl; [lia|].
  specialize (IH (S idx)).
  destruct (negb (is_used idx u) && P d); lia.
Qed.

Lemma avail_if_ext P Q u :
  (forall d, P d = Q d) ->
  forall ds idx, avail_if P idx ds u = avail_if Q idx ds u.
Proof.
  intros H; induction ds as [|d ds IH]; intros idx; simpl; auto.
  now rewrite H, IH.
Qed.

Lemma avail_as_avail_if e u : forall ds idx,
  avail e idx ds u = avail_if (same_as e) idx ds u.
Proof.
  induction ds as [|d ds IH]; intros idx; simpl; auto.
  unfold same_as at 1; now rewrite IH, (elem_eqb_sym d e).
Qed.

Lemma avail_if_set_used_lt P i u : forall ds idx,
  (i < idx)%nat -> avail_if P idx ds (set_used i u) = avail_if P idx ds u.
Proof.
  induction ds as [|d ds IH]; intros idx Hlt; simpl; auto.
  rewrite is_used_set_other by lia.
  rewrite IH by lia; reflexivity.
Qed.

(** Flagging a die that fails the test [Q] leaves the count for [Q]. *)
Lemma avail_if_set_used_other Q i die u :
  nth_error dice i = Some die -> Q die = false ->
  forall ds idx, ds = skipn idx dice ->
  avail_if Q idx ds (set_used i u) = avail_if Q idx ds u.
Proof.
  intros Hi HQ; induction ds as [|d ds IH]; intros idx Hds; simpl; auto.
  apply skipn_head in Hds; destruct Hds as [Hnth Hds].
  rewrite (IH (S idx) Hds).
  destruct (Nat.eq_dec i idx) as [->|Hne].
  - assert (d = die) by congruence; subst d.
    rewrite HQ, !andb_false_r; reflexivity.
  - rewrite is_used_set_other by assumption; reflexivity.
Qed.

Lemma takes_avail_other (P : ElementType -> Prop) Q st new st' :
  takes dice P st new st' ->
  (forall d, P d -> Q d = false) ->
  forall ds idx, ds = skipn idx dice ->
  avail_if Q idx ds (used st') = avail_if Q idx ds (used st).
Proof.
  induction 1 as [st|st i die new st' Hd HP Hu Ht IH]; intros HPQ ds idx Hds;
    auto.
  rewrite (IH HPQ ds idx Hds); simpl used.
  eapply avail_if_set_used_other; eauto.
Qed.

(** A used die stays out of every count. *)
Lemma avail_if_head_used P idx die ds u :
  is_used idx u = true ->
  avail_if P idx (die :: ds) u = avail_if P (S idx) ds u.
Proof. intros H; rewrite avail_if_cons, H; simpl; lia. Qed.

(** The shared scan, counted: it takes the first unused dice passing its
    test, as many as it was asked for or all of them, and when it could
    not pay everything no unused die passes its test any more. *)
Lemma scan_count P : forall ds idx remaining st r' st',
  wf dice st ->
  ds = skipn idx dice ->
  1 <= remaining ->
  scan P idx ds remaining st = (r', st') ->
  exists new,
    takes dice (fun d => P d = true) st new st' /\
    Z.of_nat (List.length new) =
      Z.min remaining (avail_if P idx ds (used st)) /\
    r' = remaining - Z.of_nat (List.length new) /\
    (0 < r' -> avail_if P idx ds (used st') = 0).
Proof.
  induction ds as [|die ds IH]; intros idx remaining st r' st' Hwf Hds Hr H;
    simpl in H.
  - inversion H; subst; exists []; conj;
      [constructor | simpl; lia | simpl; lia | reflexivity].
  - apply skipn_head in Hds; destruct Hds as [Hnth Hds].
    rewrite avail_if_cons.
    destruct (is_used idx (used st)) eqn:Hu.
    + destruct (IH _ _ _ _ _ Hwf Hds Hr H) as (new & T & L & R & Z0).
      exists new; cbn [negb andb]; conj; auto.
      intros Hpos; rewrite avail_if_head_used; auto.
      eapply takes_used_mono; eauto.
    + assert (Hmem : mem idx (dice_idx st) = false).
      { destruct (mem idx (dice_idx st)) eqn:E; auto.
        apply mem_true_iff in E; destruct Hwf as (_ & _ & Hin).
        apply Hin in E; destruct E; congruence. }
      rewrite Hmem in H; cbn [negb andb] in *.
      destruct (P die) eqn:HP.
      * assert (Hwf1 : wf dice (take idx st)).
        { apply take_wf; auto; apply nth_error_Some; congruence. }
        pose proof (avail_if_nonneg P (used st) ds (S idx)) as Hnn.
        destruct (remaining - 1 =? 0) eqn:Hz.
        -- inversion H; subst r' st'; apply Z.eqb_eq in Hz.
           exists [idx]; conj;
             [econstructor; eauto; constructor | simpl List.length; lia
             | simpl List.length; lia | lia].
        -- apply Z.eqb_neq in Hz.
           assert (Hr1 : 1 <= remaining - 1) by lia.
           destruct (IH _ _ _ _ _ Hwf1 Hds Hr1 H) as (new & T & L & R & Z0).
           simpl used in L; rewrite avail_if_set_used_lt in L by lia.
           exists (idx :: new); conj.
           ++ econstructor; eauto.
           ++ simpl List.length; lia.
           ++ simpl List.length; lia.
           ++ intros Hpos; rewrite avail_if_head_used; auto.
              eapply takes_used_mono; eauto.
              simpl; apply is_used_set_same.
              destruct Hwf as (Hlen & _); rewrite Hlen.
              apply nth_error_Some; congruence.
      * destruct (IH _ _ _ _ _ Hwf Hds Hr H) as (new & T & L & R & Z0).
        exists new; conj; auto; try lia.
        intros Hpos; rewrite avail_if_cons, HP, andb_false_r; auto.
Qed.

End CountingScans.

Section CountingSteps.

Variable dice : list ElementType.
Variable char_element : ElementType.

Lemma takes_all_at (P : ElementType -> Prop) st new st' :
  takes dice P st new st' -> all_at dice P new.
Proof.
  intros T; unfold all_at.
  eapply Forall_impl; [|eapply takes_each; exact T]; simpl; tauto.
Qed.

Lemma all_at_weaken (P Q : ElementType -> Prop) idxs :
  (forall d, P d -> Q d) -> all_at dice P idxs -> all_at dice Q idxs.
Proof.
  intros HPQ; unfold all_at; apply Forall_impl.
  intros i (d & Hd & HP); eauto.
Qed.

(** Two scans in a row, the second entered only when the first left
    something to pay, on tests that exclude each other. *)
Lemma scan_twice P1 P2 val st :
  wf dice st -> 1 <= val ->
  (forall d, P1 d = true -> P2 d = false) ->
  exists n1 n2 r st2,
    (let '(remaining, st1) := scan P1 0 dice val st in
     if 0 <? remaining then scan P2 0 dice remaining st1
     else (remaining, st1)) = (r, st2) /\
    wf dice st2 /\
    takes dice (fun d => P1 d = true \/ P2 d = true) st (n1 ++ n2) st2 /\
    all_at dice (fun d => P1 d = true) n1 /\
    all_at dice (fun d => P2 d = true) n2 /\
    Z.of_nat (List.length n1) = Z.min val (avail_if P1 0 dice (used st)) /\
    Z.of_nat (List.length n2) =
      Z.min (val - Z.of_nat (List.length n1)) (avail_if P2 0 dice (used st)) /\
    r = val - Z.of_nat (List.length n1) - Z.of_nat (List.length n2) /\
    (0 < r -> avail_if P1 0 dice (used st2) = 0 /\
              avail_if P2 0 dice (used st2) = 0).
Proof.
  intros Hwf Hval Hex.
  destruct (scan P1 0 dice val st) as [r1 st1] eqn:E1.
  destruct (scan_count dice P1 dice 0%nat val st r1 st1 Hwf eq_refl Hval E1)
    as (n1 & T1 & L1 & R1 & Z1).
  pose proof (takes_wf _ _ _ _ _ Hwf T1) as Hwf1.
  pose proof (avail_if_nonneg P1 (used st) dice 0%nat) as Hnn1.
  pose proof (avail_if_nonneg P2 (used st) dice 0%nat) as Hnn2.
  assert (Hsame : avail_if P2 0 dice (used st1) = avail_if P2 0 dice (used st)).
  { eapply takes_avail_other; eauto. }
  destruct (0 <? r1) eqn:Hr1.
  - apply Z.ltb_lt in Hr1.
    destruct (scan P2 0 dice r1 st1) as [r2 st2] eqn:E2.
    assert (Hr1' : 1 <= r1) by lia.
    destruct (scan_count dice P2 dice 0%nat r1 st1 r2 st2 Hwf1 eq_refl Hr1' E2)
      as (n2 & T2 & L2 & R2 & Z2).
    exists n1, n2, r2, st2; conj; auto.
    + eapply takes_wf; eauto.
    + eapply takes_app; eapply takes_weaken; eauto; simpl; auto.
    + eapply takes_all_at; eauto.
    + eapply takes_all_at; eauto.
    + rewrite L2, Hsame; lia.
    + lia.
    + intros Hpos; split; auto.
      assert (Hk : forall d, P2 d = true -> P1 d = false).
      { intros d H2; destruct (P1 d) eqn:H1; auto.
        apply Hex in H1; congruence. }
      rewrite (takes_avail_other dice _ P1 _ _ _ T2 Hk dice 0%nat eq_refl).
      apply Z1; lia.
  - apply Z.ltb_ge in Hr1.
    exists n1, [], r1, st1; rewrite app_nil_r; conj; auto.
    + eapply takes_weaken; eauto; simpl; auto.
    + eapply takes_all_at; eauto.
    + constructor.
    + simpl; lia.
    + simpl; lia.
    + intros; lia.
Qed.

Lemma major_not_omni key : is_major key = true -> key <> OMNI.
Proof. intros H ->; discriminate. Qed.

Lemma same_as_eq e d : same_as e d = true <-> e = d.
Proof. unfold same_as; rewrite elem_eqb_eq; split; congruence. Qed.

Lemma differs_from_neq e d : differs_from e d = true <-> d <> e.
Proof.
  unfold differs_from; rewrite negb_true_iff, elem_eqb_neq; tauto.
Qed.

(** Every unused die either differs from [e] or is of element [e]. *)
Lemma unused_total_split e u : forall ds idx,
  avail_if (fun _ => true) idx ds u =
  avail_if (differs_from e) idx ds u + avail_if (same_as e) idx ds u.
Proof.
  induction ds as [|d ds IH]; intros idx; simpl; [lia|].
  rewrite IH; unfold differs_from, same_as.
  destruct (is_used idx u), (elem_eqb d e); cbn [negb andb]; lia.
Qed.

Lemma avail_if_le_total P u : forall ds idx,
  avail_if P idx ds u <= avail_if (fun _ => true) idx ds u.
Proof.
  induction ds as [|d ds IH]; intros idx; simpl; [lia|].
  specialize (IH (S idx)).
  destruct (is_used idx u), (P d); cbn [negb andb]; lia.
Qed.

End CountingSteps.

(** X1: a major-element key requiring [val >= 1] dice, from any state of
    the matcher, fails exactly when the unused dice of that element and the
    unused Universal dice together are fewer than [val].  When it succeeds
    it takes dice of the element first, as many as required or all of
    them, and Universal dice for the remainder only. *)
Theorem major_key_exact_then_universal
    (dice : list ElementType) (char_element key : ElementType) (val : Z)
    (st : State) :
  wf dice st ->
  is_major key = true ->
  1 <= val ->
  let exact := avail key 0 dice (used st) in
  let universal := avail OMNI 0 dice (used st) in
  (exact + universal < val ->
   step_key dice char_element key val st = None) /\
  (val <= exact + universal ->
   exists n1 n2 st',
     step_key dice char_element key val st = Some st' /\
     dice_idx st' = dice_idx st ++ n1 ++ n2 /\
     all_at dice (eq key) n1 /\
     all_at dice (eq OMNI) n2 /\
     Z.of_nat (List.length n1) = Z.min val exact /\
     Z.of_nat (List.length n2) = val - Z.min val exact).
Proof.
  intros Hwf Hmajor Hval exact universal.
  pose proof (major_not_omni key Hmajor) as Hne.
  unfold step_key; unfold is_major in Hmajor; rewrite Hmajor.
  unfold step_major.
  destruct (scan_twice dice (same_as key) (same_as OMNI) val st Hwf Hval)
    as (n1 & n2 & r & st2 & E & Hwf2 & T & A1 & A2 & L1 & L2 & R & _).
  { intros d H1 ; apply same_as_eq in H1; subst d.
    unfold same_as; now apply elem_eqb_neq. }
  unfold same_as in E.
  destruct (scan (fun die => elem_eqb die key) 0 dice val st) as [r1 st1].
  rewrite E.
  rewrite <- !avail_as_avail_if in L1, L2.
  fold exact in L1; fold universal in L2.
  pose proof (avail_nonneg key (used st) dice 0%nat).
  pose proof (avail_nonneg OMNI (used st) dice 0%nat).
  split.
  - intros Hlt.
    assert (Hr : 0 < r) by lia.
    apply Z.ltb_lt in Hr; now rewrite Hr.
  - intros Hle.
    assert (Hr : r <= 0) by lia.
    apply Z.ltb_ge in Hr; rewrite Hr.
    exists n1, n2, st2; conj; auto.
    + eapply takes_dice_idx; eauto.
    + eapply all_at_weaken; [|exact A1]; intros d; apply same_as_eq.
    + eapply all_at_weaken; [|exact A2]; intros d; apply same_as_eq.
    + lia.
Qed.

(** X1 on three dice, one Pyro and one Universal among them. *)
Lemma major_key_exact_then_universal_witness :
  step_key [HYDRO; OMNI; PYRO] CRYO PYRO 3 (init [HYDRO; OMNI; PYRO]) = None /\
  exists n1 n2 st',
    step_key [HYDRO; OMNI; PYRO] CRYO PYRO 2 (init [HYDRO; OMNI; PYRO])
      = Some st' /\
    dice_idx st' = dice_idx (init [HYDRO; OMNI; PYRO]) ++ n1 ++ n2 /\
    all_at [HYDRO; OMNI; PYRO] (eq PYRO) n1 /\
    all_at [HYDRO; OMNI; PYRO] (eq OMNI) n2 /\
    Z.of_nat (List.length n1) = 1 /\
    Z.of_nat (List.length n2) = 1.
Proof.
  split.
  - apply (major_key_exact_then_universal [HYDRO; OMNI; PYRO] CRYO PYRO 3
             (init [HYDRO; OMNI; PYRO]));
      [apply init_wf | reflexivity | lia | vm_compute; reflexivity].
  - apply (major_key_exact_then_universal [HYDRO; OMNI; PYRO] CRYO PYRO 2
             (init [HYDRO; OMNI; PYRO]));
      [apply init_wf | reflexivity | lia | vm_compute; discriminate].
Defined.

(** X2: an Any key requiring [val >= 1] dice, from any state of the
    matcher, fails exactly when fewer than [val] dice are unused.  When it
    succeeds it takes dice that differ from the character's element first
    (Universal dice among them), as many as required or all of them, and
    dice of the character's element for the remainder; its third pass, for
    Universal dice, never adds a die. *)
Theorem any_key_takes_other_elements_first
    (dice : list ElementType) (char_element : ElementType) (val : Z)
    (st : State) :
  wf dice st ->
  1 <= val ->
  let others := avail_if (differs_from char_element) 0 dice (used st) in
  (unused_total dice (used st) < val ->
   step_key dice char_element ANY val st = None) /\
  (val <= unused_total dice (used st) ->
   exists n1 n2 st',
     step_key dice char_element ANY val st = Some st' /\
     dice_idx st' = dice_idx st ++ n1 ++ n2 /\
     all_at dice (fun d => d <> char_element) n1 /\
     all_at dice (eq char_element) n2 /\
     Z.of_nat (List.length n1) = Z.min val others /\
     Z.of_nat (List.length n2) = val - Z.min val others).
Proof.
  intros Hwf Hval others.
  change (step_key dice char_element ANY val st)
    with (step_any dice char_element val st).
  unfold step_any, unused_total.
  rewrite (unused_total_split char_element); fold others.
  destruct (scan_twice dice (differs_from char_element) (same_as char_element)
              val st Hwf Hval)
    as (n1 & n2 & r & st2 & E & Hwf2 & T & A1 & A2 & L1 & L2 & R & Z0).
  { intros d H1; apply differs_from_neq in H1.
    unfold same_as; now apply elem_eqb_neq. }
  unfold differs_from, same_as in E.
  destruct (scan (fun die => negb (elem_eqb die char_element)) 0 dice val st)
    as [r1 st1].
  rewrite E; fold others in L1.
  pose proof (avail_if_nonneg (differs_from char_element) (used st) dice 0%nat).
  pose proof (avail_if_nonneg (same_as char_element) (used st) dice 0%nat).
  split.
  - intros Hlt.
    assert (Hr : 0 < r) by (fold others in H; lia).
    destruct (Z0 Hr) as [Z1 Z2].
    pose proof Hr as Hrb; apply Z.ltb_lt in Hrb; rewrite Hrb.
    destruct (scan (fun die => elem_eqb die OMNI) 0 dice r st2) as [r3 st3] eqn:E3.
    assert (Hr' : 1 <= r) by lia.
    destruct (scan_count dice (same_as OMNI) dice 0%nat r st2 r3 st3
                Hwf2 eq_refl Hr' E3) as (n3 & T3 & L3 & R3 & _).
    pose proof (avail_if_le_total (same_as OMNI) (used st2) dice 0%nat) as Hle.
    rewrite (unused_total_split char_element), Z1, Z2 in Hle.
    pose proof (avail_if_nonneg (same_as OMNI) (used st2) dice 0%nat).
    assert (Hr3 : 0 < r3) by lia.
    apply Z.ltb_lt in Hr3; now rewrite Hr3.
  - intros Hle.
    assert (Hr : r <= 0) by (fold others in H; lia).
    apply Z.ltb_ge in Hr; rewrite Hr, Hr.
    exists n1, n2, st2; conj; auto.
    + eapply takes_dice_idx; eauto.
    + eapply all_at_weaken; [|exact A1]; intros d; apply differs_from_neq.
    + eapply all_at_weaken; [|exact A2]; intros d; apply same_as_eq.
    + fold others in H; lia.
Qed.

(** X2 on two Cryo dice and a Universal die for a Cryo character. *)
Lemma any_key_takes_other_elements_first_witness :
  step_key [CRYO; OMNI; CRYO] CRYO ANY 4 (init [CRYO; OMNI; CRYO]) = None /\
  exists n1 n2 st',
    step_key [CRYO; OMNI; CRYO] CRYO ANY 2 (init [CRYO; OMNI; CRYO])
      = Some st' /\
    dice_idx st' = dice_idx (init [CRYO; OMNI; CRYO]) ++ n1 ++ n2 /\
    all_at [CRYO; OMNI; CRYO] (fun d => d <> CRYO) n1 /\
    all_at [CRYO; OMNI; CRYO] (eq CRYO) n2 /\
    Z.of_nat (List.length n1) = 1 /\
    Z.of_nat (List.length n2) = 1.
Proof.
  split.
  - apply (any_key_takes_other_elements_first [CRYO; OMNI; CRYO] CRYO 4
             (init [CRYO; OMNI; CRYO]));
      [apply init_wf | lia | vm_compute; reflexivity].
  - apply (any_key_takes_other_elements_first [CRYO; OMNI; CRYO] CRYO 2
             (init [CRYO; OMNI; CRYO]));
      [apply init_wf | lia | vm_compute; discriminate].
Defined.

Section SameStrategies.

Variable dice : list ElementType.
Variable char_element : ElementType.

Lemma insert_desc_in x : forall l y, In y (insert_desc x l) <-> y = x \/ In y l.
Proof.
  intros l y; split; intros H.
  - apply (Permutation_in _ (insert_desc_perm x l)) in H; simpl in H.
    destruct H; auto.
  - apply (Permutation_in _ (Permutation_sym (insert_desc_perm x l))).
    simpl; destruct H; auto.
Qed.

Lemma insert_desc_sorted x : forall l,
  StronglySorted by_count_desc l ->
  StronglySorted by_count_desc (insert_desc x l).
Proof.
  induction l as [|y l IH]; intros Hs; simpl.
  - constructor; constructor.
  - inversion Hs as [|? ? Hs' Hall]; subst.
    destruct (snd y <=? snd x) eqn:E.
    + apply Z.leb_le in E; constructor; auto.
      constructor; auto.
      eapply Forall_impl; [|exact Hall]; unfold by_count_desc; intros; lia.
    + apply Z.leb_gt in E; constructor; auto.
      apply Forall_forall; intros z Hz; apply insert_desc_in in Hz.
      destruct Hz as [->|Hz]; [unfold by_count_desc; lia|].
      rewrite Forall_forall in Hall; auto.
Qed.

Lemma sorted_desc_sorted : forall c, StronglySorted by_count_desc (sorted_desc c).
Proof.
  induction c as [|x c IH]; simpl; [constructor|].
  now apply insert_desc_sorted.
Qed.

(** The second loop examines one entry only, the first that is not
    special; the entries being in descending order of count, no later
    entry could pay when that one cannot. *)
Lemma same_topped_up_first_is_best val omni_count : forall entries st sat st',
  omni_count = avail OMNI 0 dice (used st) ->
  (forall e c, In (e, c) entries -> special char_element e = false ->
               c = avail e 0 dice (used st) /\ c < val) ->
  StronglySorted by_count_desc entries ->
  same_topped_up dice char_element val omni_count entries st = (sat, st') ->
  (sat = false /\ st' = st /\
   forall e c, In (e, c) entries -> special char_element e = false ->
               omni_count + c < val)
  \/
  (sat = true /\
   exists e c new,
     In (e, c) entries /\ special char_element e = false /\
     val <= omni_count + c /\
     takes dice (fun d => e = d \/ d = OMNI) st new st' /\
     Z.of_nat (List.length new) = val).
Proof.
  induction entries as [|[e c] entries IH]; intros st sat st' Ho Hall Hs H;
    simpl in H.
  - inversion H; subst; left; conj; auto; intros ? ? [].
  - inversion Hs as [|? ? Hs' Hle]; subst.
    destruct (special char_element e) eqn:Hsp.
    + destruct (IH st sat st' eq_refl) as [(-> & -> & Hno)|(-> & e' & c' & new & Hin & Hr)];
        auto.
      * intros; apply Hall; simpl; auto.
      * left; conj; auto; intros e' c' [Heq|Hin] Hs2;
          [inversion Heq; subst; congruence|eauto].
      * right; split; auto; exists e', c', new; simpl; tauto.
    + destruct (Hall e c (or_introl eq_refl) Hsp) as [Hc Hlt].
      destruct (val <=? avail OMNI 0 dice (used st) + c) eqn:Hv.
      * apply Z.leb_le in Hv.
        destruct (scan_with_omni e 0 dice c (val - c) st) as [[o1 o2] st1] eqn:E.
        apply scan_with_omni_spec with (dice := dice) in E; auto.
        -- destruct E as (new & T & Hlen & Ho1 & Ho2).
           assert (Hnn : 0 <= val - c) by lia; specialize (Ho2 Hnn).
           assert (Z1 : o1 = 0) by lia.
           assert (Z2 : o2 = 0) by lia.
           rewrite Z1, Z2 in H; simpl in H; inversion H; subst sat st1.
           right; split; auto.
           exists e, c, new; conj; simpl; auto; lia.
        -- unfold special in Hsp; apply orb_false_iff in Hsp.
           now apply elem_eqb_neq.
      * apply Z.leb_gt in Hv; inversion H; subst sat st'.
        left; conj; auto.
        intros e' c' [Heq|Hin] Hs2; [inversion Heq; subst; lia|].
        rewrite Forall_forall in Hle; specialize (Hle _ Hin).
        unfold by_count_desc in Hle; simpl in Hle; lia.
Qed.

(** The third scan succeeds whenever the dice it set out to take are
    there: every remaining die of the character's element is needed, or
    no Universal die is. *)
Lemma scan_char_complete :
  char_element <> OMNI ->
  forall ds idx cr om st,
  ds = skipn idx dice ->
  0 <= cr -> 0 <= om -> 1 <= cr + om ->
  cr <= avail char_element idx ds (used st) ->
  om <= avail OMNI idx ds (used st) ->
  cr = avail char_element idx ds (used st) \/ om = 0 ->
  fst (scan_char char_element idx ds cr om st) = true.
Proof.
  intros Hne; induction ds as [|die ds IH];
    intros idx cr om st Hds Hcr Hom Hsum Hc Ho Hinv.
  - simpl in *; lia.
  - apply skipn_head in Hds; destruct Hds as [Hnth Hds].
    rewrite !avail_cons in *; simpl scan_char.
    destruct (is_used idx (used st)) eqn:Hu; cbn [negb andb] in *.
    { apply IH; auto; lia. }
    destruct (elem_eqb char_element die) eqn:Hcd.
    + apply elem_eqb_eq in Hcd; subst die.
      assert (Eo : elem_eqb OMNI char_element = false)
        by (apply elem_eqb_neq; congruence).
      rewrite Eo in *.
      pose proof (avail_nonneg char_element (used st) ds (S idx)).
      destruct ((cr - 1 =? 0) && (om =? 0)) eqn:Hz; [reflexivity|].
      apply andb_false_iff in Hz.
      apply IH; auto; simpl used; rewrite ?avail_set_used by lia; lia.
    + rewrite Z.add_0_l in Hc.
      destruct ((0 <? om) && elem_eqb die OMNI) eqn:Hod.
      * apply andb_prop in Hod; destruct Hod as [Hpos Hd].
        apply Z.ltb_lt in Hpos; rewrite elem_eqb_sym in Hd; rewrite Hd in *.
        destruct ((cr =? 0) && (om - 1 =? 0)) eqn:Hz; [reflexivity|].
        apply andb_false_iff in Hz.
        apply IH; auto; simpl used; rewrite ?avail_set_used by lia; lia.
      * destruct ((cr =? 0) && (om =? 0)) eqn:Hz; [reflexivity|].
        apply IH; auto.
        apply andb_false_iff in Hod; destruct Hod as [Hod|Hod].
        -- apply Z.ltb_ge in Hod.
           pose proof (avail_nonneg OMNI (used st) ds (S idx)); lia.
        -- rewrite elem_eqb_sym in Hod; rewrite Hod in Ho; lia.
Qed.

(** The Same branch from a state of the matcher, with its three
    strategies told apart. *)
Lemma step_same_cases val st :
  wf dice st -> 1 <= val ->
  let omni := avail OMNI 0 dice (used st) in
  (exists e new st',
      step_same dice char_element val st = Some st' /\
      special char_element e = false /\
      val <= avail e 0 dice (used st) + omni /\
      takes dice (fun d => e = d \/ d = OMNI) st new st' /\
      Z.of_nat (List.length new) = val)
  \/
  ((forall e, special char_element e = false ->
              0 < avail e 0 dice (used st) ->
              avail e 0 dice (used st) + omni < val) /\
   step_same dice char_element val st =
     if val <=? avail char_element 0 dice (used st) + omni then
       let cr := Z.min (avail char_element 0 dice (used st)) val in
       let '(sat, st') := scan_char char_element 0 dice cr (val - cr) st in
       if sat then Some st' else None
     else None).
Proof.
  intros Hwf Hval omni; pose proof Hwf as (Hlen & _); unfold step_same.
  fold (dice_counter dice char_element (used st)).
  set (dc := dice_counter dice char_element (used st)).
  pose proof (avail_nonneg OMNI (used st) dice 0%nat) as Hnn; fold omni in Hnn.
  assert (Hget : get OMNI (sorted_asc dc) = omni).
  { rewrite (get_perm OMNI dc (sorted_asc dc)
               (dice_counter_NoDup _ _ _) (sorted_asc_perm _)).
    apply dice_counter_get; auto. }
  assert (Hentry : forall e c, In (e, c) dc -> c = avail e 0 dice (used st)).
  { intros e c Hin; eapply dice_counter_in; eauto. }
  destruct (same_enough dice char_element val (sorted_asc dc) val st)
    as [[sat1 r1] st1] eqn:E1.
  apply same_enough_spec in E1.
  destruct E1 as [(-> & -> & Hall)|(-> & e & c & Hin & Hs & Hv & Hscan)].
  - rewrite Hget.
    destruct (same_topped_up dice char_element val omni (sorted_desc dc) st)
      as [sat2 st2] eqn:E2.
    apply same_topped_up_first_is_best in E2; auto using sorted_desc_sorted.
    + destruct E2 as [(-> & -> & Hno)|(-> & e & c & new & Hin & Hs & Hv & T & L)].
      * right; split.
        -- intros e Hs Hpos.
           assert (Hin : In (e, avail e 0 dice (used st)) (sorted_desc dc)).
           { eapply Permutation_in;
               [apply Permutation_sym, sorted_desc_perm|].
             apply dice_counter_has; auto. }
           specialize (Hno _ _ Hin Hs); lia.
        -- unfold dc.
           rewrite (dice_counter_get dice char_element (used st) char_element Hlen).
           reflexivity.
      * left; exists e, new, st2; conj; auto.
        assert (c = avail e 0 dice (used st)).
        { apply Hentry; eapply Permutation_in; [apply sorted_desc_perm|exact Hin]. }
        lia.
    + intros e c Hin Hs; split.
      * apply Hentry; eapply Permutation_in; [apply sorted_desc_perm|exact Hin].
      * apply (Hall e c); auto.
        eapply Permutation_in; [apply Permutation_sym, sorted_asc_perm|].
        eapply Permutation_in; [apply sorted_desc_perm|exact Hin].
  - left.
    assert (Hc : c = avail e 0 dice (used st)).
    { apply Hentry; eapply Permutation_in; [apply sorted_asc_perm|exact Hin]. }
    apply scan_exact_spec with (dice := dice) in Hscan; auto.
    destruct Hscan as (new & T & R & Hall).
    pose proof (avail_nonneg e (used st) dice 0%nat).
    assert (Hr1 : r1 = 0) by (apply Hall; lia).
    exists e, new, st1; conj;
      [reflexivity | assumption | lia
      | eapply takes_weaken; [|exact T]; simpl; auto | lia].
Qed.

End SameStrategies.

(** X3: a Same key requiring [val >= 1] dice that succeeds, from any
    state of the matcher, takes exactly [val] distinct dice, every one
    unused before the key and of a single element [el] or Universal; the
    flags change at those dice only, and the selection stays free of
    repetition.  The character's own element is that element only as a
    last resort: then no other element with an unused die could pay the
    key, even topped up with every unused Universal die. *)
Theorem same_key_one_element
    (dice : list ElementType) (char_element : ElementType) (val : Z)
    (st st' : State) :
  wf dice st ->
  1 <= val ->
  step_key dice char_element SAME val st = Some st' ->
  exists el new,
    dice_idx st' = dice_idx st ++ new /\
    Z.of_nat (List.length new) = val /\
    NoDup new /\
    NoDup (dice_idx st') /\
    Forall (fun i => is_used i (used st) = false /\
                     ~ In i (dice_idx st) /\
                     exists die, nth_error dice i = Some die /\
                                 (die = el \/ die = OMNI)) new /\
    (forall i, is_used i (used st') = is_used i (used st) || mem i new) /\
    (el = char_element ->
     forall e, e <> OMNI -> e <> char_element ->
               0 < avail e 0 dice (used st) ->
               avail e 0 dice (used st) + avail OMNI 0 dice (used st) < val).
Proof.
  intros Hwf Hval.
  assert (Htaken : forall el new st1,
            takes dice (fun d => el = d \/ d = OMNI) st new st1 ->
            dice_idx st1 = dice_idx st ++ new /\
            NoDup new /\
            NoDup (dice_idx st1) /\
            Forall (fun i => is_used i (used st) = false /\
                             ~ In i (dice_idx st) /\
                             exists die, nth_error dice i = Some die /\
                                         (die = el \/ die = OMNI)) new /\
            (forall i, is_used i (used st1)
                       = is_used i (used st) || mem i new)).
  { intros el new st1 T; conj.
    - eapply takes_dice_idx; eauto.
    - eapply takes_NoDup; eauto.
    - pose proof (takes_wf _ _ _ _ _ Hwf T) as (_ & Hnd & _); exact Hnd.
    - eapply Forall_impl; [|eapply takes_each; exact T]; simpl.
      intros i (Hu & die & Hd & Hor); conj; auto.
      + destruct Hwf as (_ & _ & Hin); intros Hi.
        apply Hin in Hi; destruct Hi; congruence.
      + exists die; split; auto; destruct Hor as [<-|Ho]; auto.
    - destruct Hwf as (Hlen & _); eapply takes_used_flags; eauto. }
  change (step_key dice char_element SAME val st)
    with (step_same dice char_element val st).
  destruct (step_same_cases dice char_element val st Hwf Hval)
    as [(e & new & st1 & -> & Hs & Hv & T & L)|[Hno ->]].
  - intros H; inversion H; subst st1.
    unfold special in Hs; apply orb_false_iff in Hs; destruct Hs as [_ Hc].
    apply elem_eqb_neq in Hc.
    destruct (Htaken e new st' T) as (H1 & H2 & H3 & H4 & H5).
    exists e, new; conj; auto.
    intros ->; congruence.
  - cbv zeta; destruct (val <=? _ + _); [|discriminate].
    destruct (scan_char char_element 0 dice _ _ st) as [sat st3] eqn:E.
    apply scan_char_spec with (dice := dice) in E; auto.
    destruct E as (new & T & L).
    destruct sat; [|discriminate]; intros H; inversion H; subst st3.
    destruct (Htaken char_element new st' T) as (H1 & H2 & H3 & H4 & H5).
    exists char_element, new; conj; auto.
    + rewrite L by reflexivity; lia.
    + intros _ e He1 He2 Hpos; apply Hno; auto.
      unfold special; apply orb_false_iff; split; now apply elem_eqb_neq.
Qed.

(** X3 on a Cryo character whose Pyro die at index 0 is already paid,
    holding two Cryo dice and a Universal die besides. *)
Lemma same_key_one_element_witness :
  exists el new,
    [0; 1; 2; 3]%nat = [0%nat] ++ new /\
    Z.of_nat (List.length new) = 3 /\
    NoDup new /\
    NoDup [0; 1; 2; 3]%nat /\
    Forall (fun i => is_used i [true; false; false; false] = false /\
                     ~ In i [0%nat] /\
                     exists die, nth_error [PYRO; OMNI; CRYO; CRYO] i = Some die /\
                                 (die = el \/ die = OMNI)) new.
Proof.
  destruct (same_key_one_element [PYRO; OMNI; CRYO; CRYO] CRYO 3
              (mkState [0%nat] [true; false; false; false])
              (mkState [0; 1; 2; 3]%nat [true; true; true; true]))
    as (el & new & H1 & H2 & H3 & H4 & H5 & _).
  - unfold wf; simpl; conj; [reflexivity | repeat constructor; intros [] |].
    intros i [<-|[]]; split; [lia | reflexivity].
  - lia.
  - reflexivity.
  - exists el, new; conj; [exact H1 | exact H2 | exact H3 | exact H4 | exact H5].
Defined.

(** X4: for a character element other than Universal, a Same key
    requiring [val >= 1] dice succeeds, from any state of the matcher,
    exactly when some element other than Universal (the character's own
    included) has enough unused dice once every unused Universal die is
    added to them.  Examining a single candidate in the second strategy
    loses nothing: it is the one with the most dice. *)
Theorem same_key_feasible
    (dice : list ElementType) (char_element : ElementType) (val : Z)
    (st : State) :
  wf dice st ->
  1 <= val ->
  char_element <> OMNI ->
  let universal := avail OMNI 0 dice (used st) in
  ((exists el, el <> OMNI /\ val <= avail el 0 dice (used st) + universal) ->
   exists st', step_key dice char_element SAME val st = Some st') /\
  ((forall el, el <> OMNI -> avail el 0 dice (used st) + universal < val) ->
   step_key dice char_element SAME val st = None).
Proof.
  intros Hwf Hval Hne; cbv zeta.
  change (step_key dice char_element SAME val st)
    with (step_same dice char_element val st).
  pose proof (avail_nonneg OMNI (used st) dice 0%nat) as Ho.
  pose proof (avail_nonneg char_element (used st) dice 0%nat) as Hc.
  destruct (step_same_cases dice char_element val st Hwf Hval)
    as [(e & new & st1 & Hstep & Hs & Hv & T & L)|[Hno Hstep]];
    rewrite Hstep; clear Hstep.
  - split; [eauto|].
    intros Hall.
    unfold special in Hs; apply orb_false_iff in Hs; destruct Hs as [Hs _].
    apply elem_eqb_neq in Hs; specialize (Hall e Hs); lia.
  - split.
    + intros (el & Hel & Hle).
      assert (Hchar : val <= avail char_element 0 dice (used st)
                             + avail OMNI 0 dice (used st)).
      { destruct (ElementType_eq_dec el char_element) as [->|Hd]; auto.
        pose proof (avail_nonneg el (used st) dice 0%nat).
        destruct (Z_lt_le_dec 0 (avail el 0 dice (used st))) as [Hpos|Hz];
          [|lia].
        assert (special char_element el = false).
        { unfold special; apply orb_false_iff; split; now apply elem_eqb_neq. }
        specialize (Hno el H0 Hpos); lia. }
      apply Z.leb_le in Hchar; rewrite Hchar; cbv zeta.
      pose proof (scan_char_complete dice char_element Hne dice 0%nat
                    (Z.min (avail char_element 0 dice (used st)) val)
                    (val - Z.min (avail char_element 0 dice (used st)) val)
                    st eq_refl) as Hsat.
      apply Z.leb_le in Hchar.
      destruct (scan_char char_element 0 dice _ _ st) as [sat st3].
      simpl in Hsat; rewrite Hsat; [eauto|lia..].
    + intros Hall; specialize (Hall char_element Hne).
      apply Z.leb_gt in Hall; now rewrite Hall.
Qed.

(** X4 on a Cryo character holding [PYRO, OMNI, HYDRO, HYDRO]. *)
Lemma same_key_feasible_witness :
  (exists st', step_key [PYRO; OMNI; HYDRO; HYDRO] CRYO SAME 3
                        (init [PYRO; OMNI; HYDRO; HYDRO]) = Some st') /\
  step_key [PYRO; OMNI; HYDRO; HYDRO] CRYO SAME 4
           (init [PYRO; OMNI; HYDRO; HYDRO]) = None.
Proof.
  split.
  - apply (same_key_feasible [PYRO; OMNI; HYDRO; HYDRO] CRYO 3
             (init [PYRO; OMNI; HYDRO; HYDRO]) (init_wf _));
      [lia | discriminate |].
    exists HYDRO; split; [discriminate | vm_compute; discriminate].
  - apply (same_key_feasible [PYRO; OMNI; HYDRO; HYDRO] CRYO 4
             (init [PYRO; OMNI; HYDRO; HYDRO]) (init_wf _));
      [lia | discriminate |].
    intros el _; destruct el; vm_compute; reflexivity.
Defined.

Section Selections.

Variable dice : list ElementType.
Variable char_element : ElementType.

Lemma run_keys_app : forall c1 c2 st,
  run_keys dice char_element (c1 ++ c2) st =
  match run_keys dice char_element c1 st with
  | Some st1 => run_keys dice char_element c2 st1
  | None => None
  end.
Proof.
  induction c1 as [|[key val] c1 IH]; intros c2 st; simpl; auto.
  destruct (step_key dice char_element key val st); auto.
Qed.

Lemma step_key_appends key val st st' :
  wf dice st ->
  step_key dice char_element key val st = Some st' ->
  exists new, dice_idx st' = dice_idx st ++ new.
Proof.
  intros Hwf H; apply step_key_pays in H; auto; destruct H as [_ H].
  destruct (resolved key).
  - destruct H as (new & T & _); exists new; eapply takes_dice_idx; eauto.
  - subst; exists []; now rewrite app_nil_r.
Qed.

Lemma run_keys_appends : forall cost st st',
  wf dice st ->
  run_keys dice char_element cost st = Some st' ->
  exists new, dice_idx st' = dice_idx st ++ new.
Proof.
  induction cost as [|[key val] cost IH]; intros st st' Hwf H; simpl in H.
  - inversion H; subst; exists []; now rewrite app_nil_r.
  - destruct (step_key dice char_element key val st) as [st1|] eqn:E;
      [|discriminate].
    destruct (step_key_appends _ _ _ _ Hwf E) as (n1 & H1).
    apply step_key_pays in E; auto; destruct E as [Hwf1 _].
    destruct (IH _ _ Hwf1 H) as (n2 & H2).
    exists (n1 ++ n2); rewrite H2, H1; now rewrite app_assoc.
Qed.

(** A selection is a list of distinct indices of dice, so it is no longer
    than the dice. *)
Lemma wf_length st :
  wf dice st -> (List.length (dice_idx st) <= List.length dice)%nat.
Proof.
  intros (_ & Hnd & Hin).
  assert (H : (List.length (dice_idx st)
               <= List.length (seq 0 (List.length dice)))%nat).
  { apply NoDup_incl_length; auto.
    intros i Hi; apply in_seq; apply Hin in Hi; lia. }
  now rewrite length_seq in H.
Qed.

End Selections.

(** X5: the matcher pays the keys in order and never revisits a choice:
    when the first keys of a cost mapping cannot be paid, the whole
    mapping cannot; when the whole mapping is paid, the selection starts
    with the selection the first keys get on their own. *)
Theorem selection_extends_prefix
    (dice : list ElementType) (c1 c2 : Cost) (char_element : ElementType) :
  (select dice c1 char_element = None ->
   select dice (c1 ++ c2) char_element = None) /\
  (forall idxs,
     select dice (c1 ++ c2) char_element = Some idxs ->
     exists first rest,
       select dice c1 char_element = Some first /\ idxs = first ++ rest).
Proof.
  unfold select; rewrite run_keys_app.
  destruct (run_keys dice char_element c1 (init dice)) as [st1|] eqn:E1; simpl.
  - split; [discriminate|].
    intros idxs H.
    destruct (run_keys dice char_element c2 st1) as [st2|] eqn:E2;
      [|discriminate].
    inversion H; subst idxs.
    apply run_keys_wf in E1; [|apply init_wf].
    destruct (run_keys_appends _ _ _ _ _ E1 E2) as (new & Hnew).
    exists (dice_idx st1), new; auto.
  - split; auto; intros idxs H; discriminate.
Qed.

(** X5 on an exact key followed by an Any key. *)
Lemma selection_extends_prefix_witness :
  select [PYRO; HYDRO] ([(CRYO, 1)] ++ [(ANY, 1)]) CRYO = None /\
  exists first rest,
    select [PYRO; HYDRO; OMNI] [(PYRO, 2)] CRYO = Some first /\
    [0; 2; 1]%nat = first ++ rest.
Proof.
  destruct (selection_extends_prefix [PYRO; HYDRO] [(CRYO, 1)] [(ANY, 1)] CRYO)
    as [Hnone _].
  destruct (selection_extends_prefix [PYRO; HYDRO; OMNI] [(PYRO, 2)]
              [(ANY, 1)] CRYO) as [_ Hsome].
  split; [apply Hnone; reflexivity | apply Hsome; reflexivity].
Defined.

(** X6: when every key other than Power is a major element, Any or Same
    and requires at least one die, a cost mapping that requires more dice
    than are held is infeasible: the matcher returns the empty list. *)
Theorem too_few_dice_is_infeasible
    (dice : list ElementType) (cost : Cost) (char_element : ElementType) :
  (forall key val, In (key, val) cost -> key <> POWER ->
                   resolved key = true /\ 1 <= val) ->
  Z.of_nat (List.length dice) < required_dice cost ->
  select dice cost char_element = None /\
  get_dice_idx_greedy dice cost char_element = [].
Proof.
  intros Hc Hlt; unfold get_dice_idx_greedy, select.
  destruct (run_keys dice char_element cost (init dice)) as [st'|] eqn:E;
    simpl; auto.
  exfalso.
  pose proof (run_keys_size dice char_element cost (init dice) st'
                (init_wf dice) Hc E) as Hsize.
  apply run_keys_wf in E; [|apply init_wf].
  apply wf_length in E; simpl in Hsize; lia.
Qed.

(** X6 on two dice and a cost of three. *)
Lemma too_few_dice_is_infeasible_witness :
  get_dice_idx_greedy [OMNI; OMNI] [(CRYO, 1); (ANY, 2); (POWER, 2)] CRYO = [].
Proof.
  apply (too_few_dice_is_infeasible [OMNI; OMNI]
           [(CRYO, 1); (ANY, 2); (POWER, 2)] CRYO).
  - intros key val [H|[H|[H|[]]]] Hk; inversion H; subst;
      try (split; [reflexivity|lia]); congruence.
  - simpl; lia.
Defined.

(* ================================================================== *)
(** ** Properties of the roll-dice defaults *)

Module RollDiceProps.

Import SimpleDispatch.

(** The loop collects, in increasing order, the indices of the dice that
    are neither of the character's element nor Universal. *)
Lemma reroll_dice_idx_spec e : forall dice k,
  StronglySorted lt (reroll_dice_idx e k dice) /\
  forall i, In i (reroll_dice_idx e k dice) <->
            (k <= i)%nat /\
            exists die, nth_error dice (i - k) = Some die /\
                        die <> e /\ die <> OMNI.
Proof.
  induction dice as [|d dice IH]; intros k; simpl.
  - split; [constructor|].
    intros i; split; [intros []|].
    intros (_ & die & H & _); destruct (i - k)%nat; discriminate.
  - destruct (IH (S k)) as [Hs Hin].
    assert (Htail : forall i, In i (reroll_dice_idx e (S k) dice) <->
              (k < i)%nat /\
              exists die, nth_error (d :: dice) (i - k) = Some die /\
                          die <> e /\ die <> OMNI).
    { intros i; rewrite Hin; split.
      - intros (Hk & die & Hn & Hd); split; [lia|].
        exists die; split; auto.
        replace (i - k)%nat with (S (i - S k)) by lia; exact Hn.
      - intros (Hk & die & Hn & Hd); split; [lia|].
        exists die; split; auto.
        replace (i - k)%nat with (S (i - S k)) in Hn by lia; exact Hn. }
    destruct (elem_eqb d e || elem_eqb d OMNI) eqn:Hkeep; simpl.
    + split; auto.
      intros i; rewrite Htail; split.
      * intros (Hk & H); split; [lia|auto].
      * intros (Hk & die & Hn & Hd1 & Hd2).
        destruct (Nat.eq_dec i k) as [->|Hne].
        -- rewrite Nat.sub_diag in Hn; simpl in Hn; inversion Hn; subst die.
           apply orb_true_iff in Hkeep.
           destruct Hkeep as [H|H]; apply elem_eqb_eq in H; contradiction.
        -- split; [lia|eauto].
    + apply orb_false_iff in Hkeep; destruct Hkeep as [H1 H2].
      apply elem_eqb_neq in H1, H2.
      split.
      * constructor; auto.
        apply Forall_forall; intros i Hi; apply Htail in Hi; lia.
      * intros i; rewrite Htail; split.
        -- intros [<-|(Hk & H)]; [|split; [lia|auto]].
           split; [lia|]; exists d; rewrite Nat.sub_diag; auto.
        -- intros (Hk & die & Hn & Hd).
           destruct (Nat.eq_dec i k) as [->|Hne]; [left; auto|].
           right; split; [lia|eauto].
Qed.

End RollDiceProps.

(** X7: when the subscript of the slots by the active position answers
    with a character, both roll-dice defaults (the single-action one and
    the generator, which yields its action once) ask to reroll exactly
    the dice that are neither of that character's element nor Universal,
    their indices listed once each in increasing order. *)
Theorem roll_dice_default_rerolls_unaligned
    (get_character_card : string -> CharacterCard)
    (characters_getitem : list CharacterInfo -> CharPos -> result CharacterInfo)
    (game_info : GameInfo) (current_character : CharacterInfo) :
  let player_info := get_player_info game_info in
  let element :=
    element_type (get_character_card (name (character current_character))) in
  characters_getitem (characters player_info)
                     (active_character_position player_info)
    = Return current_character ->
  exists idxs,
    SimpleDispatch.take_action_on_roll_dice get_character_card
      characters_getitem game_info = Return (RollDiceAction idxs) /\
    GenericDispatch.yield_actions_on_roll_dice get_character_card
      characters_getitem game_info = mkGenerator [RollDiceAction idxs] Stops /\
    StronglySorted lt idxs /\
    forall i, In i idxs <->
              exists die, nth_error (dice_zone player_info) i = Some die /\
                          die <> element /\ die <> OMNI.
Proof.
  intros player_info element Hget.
  exists (SimpleDispatch.reroll_dice_idx element 0 (dice_zone player_info)).
  unfold SimpleDispatch.take_action_on_roll_dice,
    GenericDispatch.yield_actions_on_roll_dice.
  fold player_info; rewrite Hget.
  destruct (RollDiceProps.reroll_dice_idx_spec element (dice_zone player_info)
              0%nat) as [Hs Hin].
  conj; auto.
  intros i; rewrite Hin, Nat.sub_0_r; split.
  - intros (_ & H); exact H.
  - intros H; split; [lia|exact H].
Qed.

(** X7 on dice [[PYRO, OMNI, CRYO, HYDRO]] and a Cryo character. *)
Lemma roll_dice_default_rerolls_unaligned_witness :
  exists idxs,
    SimpleDispatch.take_action_on_roll_dice Examples.lookup
      (fun cs p => index cs (CharPos_value p))
      (mkGameInfo RUNNING ROLL_DICE
         (mkPlayerInfo [Examples.slot 10 true 0] LEFT [PYRO; OMNI; CRYO; HYDRO] [])
         Examples.charged)
      = Return (RollDiceAction idxs) /\
    (In 3%nat idxs <->
     exists die, nth_error [PYRO; OMNI; CRYO; HYDRO] 3 = Some die /\
                 die <> CRYO /\ die <> OMNI).
Proof.
  destruct (roll_dice_default_rerolls_unaligned Examples.lookup
              (fun cs p => index cs (CharPos_value p))
              (mkGameInfo RUNNING ROLL_DICE
                 (mkPlayerInfo [Examples.slot 10 true 0] LEFT
                               [PYRO; OMNI; CRYO; HYDRO] [])
                 Examples.charged)
              (Examples.slot 10 true 0) eq_refl)
    as (idxs & H1 & _ & _ & H4).
  exists idxs; split; [exact H1 | exact (H4 3%nat)].
Defined.

Section RerollAndMatcher.

Variable dice : list ElementType.
Variable char_element : ElementType.

(** A major-element key takes dice of its element or Universal dice
    only, whatever the count it requires. *)
Lemma step_major_elements key val st st' :
  step_major dice key val st = Some st' ->
  exists new,
    takes dice (fun d => d = key \/ d = OMNI) st new st'.
Proof.
  unfold step_major; intros H.
  destruct (scan _ 0 dice val st) as [r1 st1] eqn:E1.
  apply scan_spec with (dice := dice) in E1; auto.
  destruct E1 as (n1 & T1 & _).
  assert (T1' : takes dice (fun d => d = key \/ d = OMNI) st n1 st1).
  { eapply takes_weaken; [|exact T1]; simpl.
    intros d Hd; apply elem_eqb_eq in Hd; auto. }
  destruct (0 <? r1).
  - destruct (scan _ 0 dice r1 st1) as [r2 st2] eqn:E2.
    apply scan_spec with (dice := dice) in E2; auto.
    destruct E2 as (n2 & T2 & _).
    destruct (0 <? r2); inversion H; subst st'.
    exists (n1 ++ n2); eapply takes_app; eauto.
    eapply takes_weaken; [|exact T2]; simpl.
    intros d Hd; apply elem_eqb_eq in Hd; auto.
  - destruct (0 <? r1); inversion H; subst st'; eauto.
Qed.

End RerollAndMatcher.

(** X8: the roll-dice default and the matcher agree on which dice serve
    the active character: a die selected to pay a cost on a major element
    alone, whatever the count, is never among the dice the roll-dice
    default rerolls for a character of that element. *)
Theorem reroll_spares_payable_dice
    (dice : list ElementType) (element char_element : ElementType) (val : Z)
    (i : nat) :
  is_major element = true ->
  In i (get_dice_idx_greedy dice [(element, val)] char_element) ->
  ~ In i (SimpleDispatch.reroll_dice_idx element 0 dice).
Proof.
  intros Hmajor Hin Hre.
  unfold get_dice_idx_greedy, select in Hin; simpl in Hin.
  unfold step_key in Hin; unfold is_major in Hmajor; rewrite Hmajor in Hin.
  destruct (step_major dice element val (init dice)) as [st'|] eqn:E;
    simpl in Hin; [|destruct Hin].
  apply step_major_elements in E; destruct E as (new & T).
  rewrite (takes_dice_idx _ _ _ _ _ T) in Hin; simpl in Hin.
  apply takes_each in T; rewrite Forall_forall in T.
  destruct (T i Hin) as (_ & die & Hd & Hor).
  apply RollDiceProps.reroll_dice_idx_spec in Hre.
  destruct Hre as (_ & die' & Hd' & H1 & H2).
  rewrite Nat.sub_0_r in Hd'; assert (die' = die) by congruence; subst die'.
  destruct Hor; contradiction.
Qed.

(** X8 on dice [[HYDRO, OMNI, CRYO]] and a cost of two Cryo dice. *)
Lemma reroll_spares_payable_dice_witness :
  ~ In 1%nat (SimpleDispatch.reroll_dice_idx CRYO 0 [HYDRO; OMNI; CRYO]).
Proof.
  apply (reroll_spares_payable_dice [HYDRO; OMNI; CRYO] CRYO CRYO 2 1%nat);
    [reflexivity | vm_compute; auto].
Defined.

(* ================================================================== *)
(** ** Properties of the dispatchers and of sequences of calls *)

Import AgentRuns.

Module RunProps.

Section Runs.

Variable policy : GameInfo -> Generator.

Lemma idle_new : idle new.
Proof. left; reflexivity. Qed.

Lemma idle_exhausted : idle (mkAgent (Some (mkGenerator [] Stops))).
Proof. right; exists (mkGenerator [] Stops); auto. Qed.

(** A cursor with items hands them out one per call, whatever the
    snapshots, and ends exhausted of items. *)
Lemma calls_drain e : forall l snapshots,
  List.length snapshots = List.length l ->
  calls policy (mkAgent (Some (mkGenerator l e))) snapshots =
  (map Return l, mkAgent (Some (mkGenerator [] e))).
Proof.
  induction l as [|a l IH]; intros [|g gs] Hlen; simpl in Hlen;
    try discriminate; [reflexivity|].
  cbn [calls].
  rewrite (CursorProps.take_action_pending policy (mkGenerator (a :: l) e)
             a l g eq_refl); simpl ending.
  rewrite IH by lia; reflexivity.
Qed.

(** After a call that raises, no sequence is in flight. *)
Lemma raise_leaves_idle self game_info e :
  fst (take_action policy self game_info) = Raise e ->
  idle (snd (take_action policy self game_info)).
Proof.
  assert (Hfresh : fst (start_fresh policy game_info) = Raise e ->
                   idle (snd (start_fresh policy game_info))).
  { unfold start_fresh, next.
    destruct (policy game_info) as [[|a l] [|e']]; simpl; intros H;
      try discriminate; apply idle_exhausted. }
  unfold take_action; destruct (_current_iter self) as [it|]; auto.
  unfold next; destruct it as [[|a l] [|e']]; simpl; auto.
  - intros _; apply idle_exhausted.
  - discriminate.
  - discriminate.
Qed.

End Runs.

Section Mirror.

Variable get_character_card : string -> CharacterCard.
Variable characters_getitem :
  list CharacterInfo -> CharPos -> result CharacterInfo.

Lemma sequence_mirrors game_info :
  GenericDispatch.take_multiple_actions
    (GenericDispatch.GenericMultipleAction_yields get_character_card
                                                   characters_getitem)
    game_info =
  of_result
    (SimpleDispatch.take_action
       (SimpleDispatch.SimpleAgent_methods get_character_card
                                           characters_getitem)
       game_info).
Proof.
  unfold GenericDispatch.take_multiple_actions, SimpleDispatch.take_action.
  destruct (status game_info), (phase game_info); simpl; try reflexivity.
  - unfold GenericDispatch.yield_actions_on_roll_dice,
      SimpleDispatch.take_action_on_roll_dice.
    destruct (characters_getitem _ _); reflexivity.
  - unfold GenericMultipleAction.yield_actions_on_round_end,
      SimpleAgent.take_action_on_round_end.
    destruct (index _ _); simpl; auto.
    destruct (_ <=? 0); simpl; auto.
    destruct (alive_positions _); simpl; auto.
    destruct (index _ 0); reflexivity.
Qed.

End Mirror.

End RunProps.

(** X9: a policy sequence of [n] actions is handed out by the next [n]
    calls of [take_action], one action per call and in order, whatever
    snapshots those calls are given; the agent is then out of items. *)
Theorem cursor_drains_sequence
    (policy : GameInfo -> Generator) (first : GameInfo)
    (later : list GameInfo) (a : Action) (l : list Action) (e : Ending) :
  policy first = mkGenerator (a :: l) e ->
  List.length later = List.length l ->
  calls policy new (first :: later) =
  (map Return (a :: l), mkAgent (Some (mkGenerator [] e))).
Proof.
  intros Hp Hlen; cbn [calls].
  assert (E : take_action policy new first =
              (Return a, mkAgent (Some (mkGenerator l e)))).
  { unfold take_action, new, start_fresh; simpl; rewrite Hp; reflexivity. }
  rewrite E, (RunProps.calls_drain policy e l later Hlen); reflexivity.
Qed.

(** X9 on the policy that yields two actions at [PLAY_CARDS]. *)
Lemma cursor_drains_sequence_witness :
  calls Examples.two_step new [Examples.charged_info; Examples.all_down_info] =
  ([Return (RollDiceAction [0%nat]); Return DeclareEndAction],
   mkAgent (Some (mkGenerator [] Stops))).
Proof.
  apply (cursor_drains_sequence Examples.two_step Examples.charged_info
           [Examples.all_down_info] (RollDiceAction [0%nat])
           [DeclareEndAction] Stops); reflexivity.
Defined.

(** X10: a failure is local to its call.  Whenever [take_action] raises,
    be it [NoActionAssigned] or an exception of the policy's sequence, no
    sequence is left in flight: the next call derives its sequence from
    its own snapshot, as a new agent would. *)
Theorem failure_is_local
    (policy : GameInfo -> Generator) (self : Agent)
    (game_info next_info : GameInfo) (e : Exn) :
  fst (take_action policy self game_info) = Raise e ->
  idle (snd (take_action policy self game_info)) /\
  take_action policy (snd (take_action policy self game_info)) next_info =
    take_action policy new next_info.
Proof.
  intros H; apply RunProps.raise_leaves_idle in H; split; auto.
  rewrite (CursorProps.take_action_fresh policy _ next_info H).
  reflexivity.
Qed.

(** X10 on the policy that yields nothing at [ROUND_END]. *)
Lemma failure_is_local_witness :
  take_action Examples.silent
    (snd (take_action Examples.silent new Examples.one_left_info))
    Examples.charged_info =
  (Return DeclareEndAction, mkAgent (Some (mkGenerator [] Stops))).
Proof.
  destruct (failure_is_local Examples.silent new Examples.one_left_info
              Examples.charged_info
              (NoActionAssigned Examples.one_left_info) eq_refl) as [_ H].
  rewrite H; reflexivity.
Defined.

(** X11: the generators of [GenericMultipleAction] mirror the methods of
    [SimpleAgent] at every status and phase: the sequence derived for a
    snapshot yields, once, the action the single-action dispatch returns
    for it, or raises what that dispatch raises. *)
Theorem generic_sequence_mirrors_simple_agent
    (get_character_card : string -> CharacterCard)
    (characters_getitem : list CharacterInfo -> CharPos -> result CharacterInfo)
    (game_info : GameInfo) :
  GenericDispatch.take_multiple_actions
    (GenericDispatch.GenericMultipleAction_yields get_character_card
                                                   characters_getitem)
    game_info =
  of_result
    (SimpleDispatch.take_action
       (SimpleDispatch.SimpleAgent_methods get_character_card
                                           characters_getitem)
       game_info).
Proof. apply RunProps.sequence_mirrors. Qed.

(** X12: an agent built from the generators of [GenericMultipleAction]
    answers every call as [SimpleAgent] answers the snapshot of that call,
    raising what it raises, and never has a sequence in flight between
    calls. *)
Theorem generic_agent_answers_like_simple_agent
    (get_character_card : string -> CharacterCard)
    (characters_getitem : list CharacterInfo -> CharPos -> result CharacterInfo)
    (snapshots : list GameInfo) (self : Agent) :
  let policy :=
    GenericDispatch.take_multiple_actions
      (GenericDispatch.GenericMultipleAction_yields get_character_card
                                                     characters_getitem) in
  let simple :=
    SimpleDispatch.take_action
      (SimpleDispatch.SimpleAgent_methods get_character_card
                                          characters_getitem) in
  idle self ->
  fst (calls policy self snapshots) = map simple snapshots /\
  idle (snd (calls policy self snapshots)).
Proof.
  intros policy simple; revert self.
  induction snapshots as [|g gs IH]; intros self Hidle; simpl; auto.
  assert (Hcall : fst (take_action policy self g) = simple g /\
                  idle (snd (take_action policy self g))).
  { rewrite (CursorProps.take_action_fresh policy self g Hidle).
    unfold start_fresh, policy.
    rewrite RunProps.sequence_mirrors; fold simple.
    destruct (simple g); simpl; split; auto using RunProps.idle_exhausted. }
  destruct (take_action policy self g) as [r self1]; simpl in Hcall.
  destruct Hcall as [-> Hidle1].
  destruct (IH self1 Hidle1) as [Hrs Hidle2].
  destruct (calls policy self1 gs) as [rs self2]; simpl in *.
  now rewrite Hrs.
Qed.

(** X12 on three snapshots, the last with no slot alive. *)
Lemma generic_agent_answers_like_simple_agent_witness :
  fst (calls
         (GenericDispatch.take_multiple_actions
            (GenericDispatch.GenericMultipleAction_yields Examples.lookup
               (fun cs p => index cs (CharPos_value p))))
         new
         [Examples.charged_info; Examples.one_left_info; Examples.all_down_info])
  = [Raise NotImplementedError; Return (ChangeCharacterAction RIGHT []);
     Raise IndexError].
Proof.
  destruct (generic_agent_answers_like_simple_agent Examples.lookup
              (fun cs p => index cs (CharPos_value p))
              [Examples.charged_info; Examples.one_left_info;
               Examples.all_down_info]
              new RunProps.idle_new) as [H _].
  rewrite H; reflexivity.
Defined.

(** X13: [NoAttackAgent] never pays for anything.  Whatever the status
    and the phase, an action it returns is no card or skill action, and a
    change of character it asks for carries no dice; at [PLAY_CARDS] it
    answers as the round-end default does. *)
Theorem no_attack_agent_spends_no_dice
    (get_character_card : string -> CharacterCard)
    (characters_getitem : list CharacterInfo -> CharPos -> result CharacterInfo)
    (game_info : GameInfo) (act : Action) :
  SimpleDispatch.take_action
    (SimpleDispatch.NoAttackAgent_methods get_character_card characters_getitem)
    game_info = Return act ->
  spends_no_dice act /\
  (status game_info = RUNNING -> phase game_info = PLAY_CARDS ->
   SimpleAgent.take_action_on_round_end game_info = Return act).
Proof.
  unfold SimpleDispatch.take_action.
  assert (Hend : forall a, SimpleAgent.take_action_on_round_end game_info
                           = Return a -> spends_no_dice a).
  { unfold SimpleAgent.take_action_on_round_end; intros a.
    destruct (index _ _); [|discriminate].
    destruct (_ <=? 0); [|intros H; inversion H; exact I].
    destruct (alive_positions _); [|discriminate].
    destruct (index _ 0); intros H; inversion H; reflexivity. }
  destruct (status game_info), (phase game_info); simpl;
    intros H; split; try discriminate; auto;
    try (inversion H; subst act; simpl; auto; fail).
  unfold SimpleDispatch.take_action_on_roll_dice in H.
  destruct (characters_getitem _ _); inversion H; exact I.
Qed.

(** X13 at [PLAY_CARDS] with the active character down. *)
Lemma no_attack_agent_spends_no_dice_witness :
  spends_no_dice (ChangeCharacterAction RIGHT []) /\
  SimpleAgent.take_action_on_round_end
    (mkGameInfo RUNNING PLAY_CARDS Examples.one_left Examples.one_left)
    = Return (ChangeCharacterAction RIGHT []).
Proof.
  destruct (no_attack_agent_spends_no_dice Examples.lookup
              (fun cs p => index cs (CharPos_value p))
              (mkGameInfo RUNNING PLAY_CARDS Examples.one_left Examples.one_left)
              (ChangeCharacterAction RIGHT []) eq_refl) as [H1 H2].
  split; [exact H1 | exact (H2 eq_refl eq_refl)].
Defined.

(* ================================================================== *)
(** ** Further properties of the attack policy *)

Import PolicySpec.

Module AttackProps.

Import PolicyProps.

Lemma bind_snd {A B} (m : Body A) (k : A -> Body B) :
  snd (bind m k) =
  match snd m with
  | Falls a => snd (k a)
  | Returns act => Returns act
  | Fails e => Fails e
  end.
Proof.
  destruct m as [calls [a|act|e]]; simpl; auto.
  destruct (k a); reflexivity.
Qed.

Lemma hand_index_spec card : forall hand i,
  hand_index card hand = Return i ->
  nth_error hand i = Some card /\
  forall j, (j < i)%nat -> nth_error hand j <> Some card.
Proof.
  induction hand as [|c hand IH]; intros i H; simpl in H; [discriminate|].
  destruct (String.eqb c card) eqn:E.
  - inversion H; subst i; apply String.eqb_eq in E; subst c.
    split; [reflexivity|intros j Hj; lia].
  - destruct (hand_index card hand) as [i'|] eqn:E'; inversion H; subst i.
    destruct (IH i' eq_refl) as [Hn Hb]; split; auto.
    intros [|j] Hj; simpl.
    + apply String.eqb_neq in E; congruence.
    + apply Hb; lia.
Qed.

Lemma in_hand_index card : forall hand,
  in_hand card hand = true -> exists i, hand_index card hand = Return i.
Proof.
  induction hand as [|c hand IH]; simpl; [discriminate|].
  rewrite String.eqb_sym.
  destruct (String.eqb c card); simpl; eauto.
  intros H; destruct (IH H) as (i & ->); eauto.
Qed.

(** The matcher's answer is a list of distinct indices into the dice. *)
Lemma greedy_valid card_data player_info cost :
  valid_dice player_info (greedy_for card_data player_info cost).
Proof.
  unfold valid_dice, greedy_for, get_dice_idx_greedy, select.
  destruct (run_keys _ _ _ _) as [st'|] eqn:E; simpl.
  - apply run_keys_wf in E; [|apply init_wf].
    destruct E as (_ & Hnd & Hin); split; auto.
    apply Forall_forall; intros i Hi; now apply Hin.
  - split; constructor.
Qed.

Section Policy.

Variable get_character_card : string -> CharacterCard.
Variable player_id : PlayerID.
Variable game_info : GameInfo.
Variable character_info : CharacterInfo.

Let player_info := get_player_info game_info.
Let card_data := get_character_card (name (character character_info)).
Let energy := power (character character_info).

Hypothesis Hactive :
  nth_error (characters player_info)
            (CharPos_value (active_character_position player_info))
  = Some character_info.

(** What the method guarantees about the action it ends with. *)
Let R (act : Action) : Prop :=
  card_action_ok card_data player_id player_info act /\
  skill_action_ok card_data player_id game_info energy act /\
  end_is_forced card_data player_info energy act.

Lemma card_block_good card cost target d :
  In (card, cost, target) card_table ->
  returns_only R (card_block player_id player_info card_data card cost target d).
Proof.
  intros Htab; unfold card_block.
  destruct (in_hand card (hand_cards player_info)); [|apply returns_only_pass].
  apply returns_only_bind; [apply returns_only_matcher|].
  intros idxs Hidxs; simpl in Hidxs; inversion Hidxs; subst idxs; clear Hidxs.
  destruct (0 <? List.length _)%nat eqn:Hlen; [|apply returns_only_pass].
  apply returns_only_bind; [apply returns_only_lift|].
  intros i Hi; apply lift_falls in Hi; apply hand_index_spec in Hi.
  destruct Hi as [Hn Hb].
  intros act H; inversion H; subst act; clear H.
  unfold R; conj; simpl; auto; [|discriminate].
  exists card, cost, target; conj; auto.
  - now apply length_pos_nonempty.
  - apply greedy_valid.
Qed.

Lemma card_block_falls card cost target d d' :
  snd (card_block player_id player_info card_data card cost target d)
    = Falls d' ->
  d' = d \/ d' = [].
Proof.
  unfold card_block.
  destruct (in_hand card (hand_cards player_info)) eqn:Hin;
    [|simpl; intros H; inversion H; auto].
  rewrite bind_snd; simpl.
  destruct (0 <? List.length _)%nat eqn:Hlen.
  - rewrite bind_snd.
    destruct (in_hand_index _ _ Hin) as (i & ->); simpl; discriminate.
  - simpl; intros H; inversion H; right.
    destruct (get_dice_idx_greedy _ _ _); [reflexivity|discriminate].
Qed.

(** A hand-card block falls through or returns a card action; it never
    fails. *)
Lemma card_block_outcome card cost target d :
  (exists d', snd (card_block player_id player_info card_data card cost
                               target d) = Falls d') \/
  (exists i tg idxs up,
     snd (card_block player_id player_info card_data card cost target d)
       = Returns (UseCardAction i tg idxs up)).
Proof.
  unfold card_block.
  destruct (in_hand card (hand_cards player_info)) eqn:Hin;
    [|left; simpl; eauto].
  rewrite bind_snd; simpl.
  destruct (0 <? List.length _)%nat eqn:Hlen; [|left; simpl; eauto].
  rewrite bind_snd.
  destruct (in_hand_index _ _ Hin) as (i & ->); simpl; right; eauto 6.
Qed.

(** A skill block as it falls through: with its guard it holds the
    matcher's answer for the skill, named after the skill when that answer
    is not empty; without it nothing changes. *)
Lemma skill_block_falls (guard : bool) skill_type skill
                        (skill_name : string) (d : list nat) n' d' :
  snd (if guard then
         dice_idx <- matcher (ForSkill skill_type) (dice_zone player_info)
                             (Skill.costs skill) (element_type card_data) ;;
         if (0 <? List.length dice_idx)%nat
         then pass (Skill.name skill, dice_idx)
         else pass (skill_name, dice_idx)
       else pass (skill_name, d)) = Falls (n', d') ->
  (guard = true /\
   d' = greedy_for card_data player_info (Skill.costs skill) /\
   (d' <> [] /\ n' = Skill.name skill \/ d' = [] /\ n' = skill_name)) \/
  (guard = false /\ n' = skill_name /\ d' = d).
Proof.
  destruct guard; [|simpl; intros H; inversion H; auto].
  rewrite bind_snd; simpl; unfold greedy_for.
  destruct (get_dice_idx_greedy _ _ _) as [|i idxs]; simpl;
    intros H; inversion H; subst; left; conj; auto.
  left; split; [discriminate|reflexivity].
Qed.

(** A skill block never executes [return]. *)
Lemma skill_block_no_return (Q : Action -> Prop) (guard : bool) skill_type
                            dice skill e (skill_name : string) (d : list nat) :
  returns_only Q
    (if guard then
       dice_idx <- matcher (ForSkill skill_type) dice (Skill.costs skill) e ;;
       if (0 <? List.length dice_idx)%nat
       then pass (Skill.name skill, dice_idx)
       else pass (skill_name, dice_idx)
     else pass (skill_name, d)).
Proof.
  destruct guard; [|apply returns_only_pass].
  apply returns_only_bind; [apply returns_only_matcher|].
  intros idxs _; destruct (0 <? List.length idxs)%nat; apply returns_only_pass.
Qed.

Lemma length_zero (d : list nat) : (List.length d =? 0)%nat = true <-> d = [].
Proof.
  destruct d; simpl; split; auto; discriminate.
Qed.

(** The method ends with a well-formed card action, a well-formed skill
    action, a change of character, or a forced end of turn. *)
Lemma play_cards_good :
  ends_with R (play_cards_body get_character_card player_id game_info).
Proof.
  unfold play_cards_body; fold player_info.
  apply ends_with_bind; [apply returns_only_lift|].
  intros ci Hci; apply lift_falls in Hci.
  unfold index in Hci; rewrite Hactive in Hci; inversion Hci; subst ci; clear Hci.
  fold card_data.
  apply ends_with_bind.
  { destruct (_ <=? 0); [|apply returns_only_pass].
    apply returns_only_bind; [apply returns_only_lift|]; intros ps _.
    apply returns_only_bind; [apply returns_only_lift|]; intros p _.
    intros act H; inversion H; subst act; unfold R; conj; simpl; auto.
    discriminate. }
  intros _ _.
  apply ends_with_bind; [apply card_block_good; simpl; auto|]; intros d1 H1.
  apply card_block_falls in H1.
  assert (d1 = []) by (destruct H1; auto); subst d1; clear H1.
  apply ends_with_bind; [apply card_block_good; simpl; auto|]; intros d2 H2.
  apply card_block_falls in H2.
  assert (d2 = []) by (destruct H2; auto); subst d2; clear H2.
  apply ends_with_bind; [apply card_block_good; simpl; auto|]; intros d3 H3.
  apply card_block_falls in H3.
  assert (d3 = []) by (destruct H3; auto); subst d3; clear H3.
  apply ends_with_bind; [apply returns_only_lift|].
  intros burst_power Hpower; apply lift_falls in Hpower.
  fold energy.
  apply ends_with_bind; [apply skill_block_no_return|]; intros [n1 d4] B1.
  apply skill_block_falls in B1.
  apply ends_with_bind; [apply skill_block_no_return|]; intros [n2 d5] B2.
  apply skill_block_falls in B2.
  apply ends_with_bind; [apply skill_block_no_return|]; intros [n3 d6] B3.
  apply skill_block_falls in B3.
  (* what the three skill blocks leave behind *)
  assert (C4 : skill_choice card_data player_info energy (n1, d4) /\
               (cost_lookup POWER
                  (Skill.costs (get_skill card_data ELEMENTAL_BURST))
                  = Return energy ->
                d4 = [] ->
                greedy_for card_data player_info
                  (Skill.costs (get_skill card_data ELEMENTAL_BURST)) = [])).
  { destruct B1 as [(Hg & Hd & Hn)|(Hg & Hn & Hd)].
    - apply Z.eqb_eq in Hg; split; [|congruence].
      destruct Hn as [[Hne ->]|[He ->]]; [right|left; auto].
      exists ELEMENTAL_BURST; simpl; conj; auto; congruence.
    - split; [left; auto|].
      apply Z.eqb_neq in Hg; intros Hl; congruence. }
  destruct C4 as [C4 F4].
  assert (C5 : skill_choice card_data player_info energy (n2, d5) /\
               (d5 = [] ->
                d4 = [] /\
                greedy_for card_data player_info
                  (Skill.costs (get_skill card_data ELEMENTAL_SKILL)) = [])).
  { destruct B2 as [(Hg & Hd & Hn)|(Hg & Hn & Hd)].
    - apply length_zero in Hg; split; [|intros; split; congruence].
      destruct Hn as [[Hne ->]|[He ->]]; [right|left; auto].
      exists ELEMENTAL_SKILL; simpl; conj; auto; discriminate.
    - subst n2 d5; split; auto.
      intros ->; discriminate. }
  destruct C5 as [C5 F5].
  assert (C6 : skill_choice card_data player_info energy (n3, d6) /\
               (d6 = [] ->
                d5 = [] /\
                greedy_for card_data player_info
                  (Skill.costs (get_skill card_data NORMAL_ATTACK)) = [])).
  { destruct B3 as [(Hg & Hd & Hn)|(Hg & Hn & Hd)].
    - apply length_zero in Hg; split; [|intros; split; congruence].
      destruct Hn as [[Hne ->]|[He ->]]; [right|left; auto].
      exists NORMAL_ATTACK; simpl; conj; auto; discriminate.
    - subst n3 d6; split; auto.
      intros ->; discriminate. }
  destruct C6 as [C6 F6].
  unfold ends_with.
  destruct (List.length d6 =? 0)%nat eqn:Hlen; simpl.
  - apply length_zero in Hlen.
    destruct (F6 Hlen) as [H5 Hnormal].
    destruct (F5 H5) as [H4 Hskill].
    unfold R; conj; simpl; auto.
    intros _; conj; auto.
  - assert (Hne : d6 <> [])
      by (intros ->; discriminate).
    unfold R; conj; simpl; auto; [|discriminate].
    conj; auto.
    destruct C6 as [He|Hex]; [contradiction|].
    destruct Hex as (t & _ & Hd & _); simpl in Hd; rewrite Hd.
    apply greedy_valid.
Qed.

Lemma play_cards_action act :
  take_action_on_play_cards get_character_card player_id game_info
    = Return act -> R act.
Proof.
  pose proof play_cards_good as H; unfold ends_with in H.
  unfold take_action_on_play_cards.
  destruct (snd (play_cards_body _ _ _)); intros E; inversion E; subst; auto.
Qed.

End Policy.

End AttackProps.

(** X14: a card action returned by [take_action_on_play_cards] is for
    one of the three cards the policy knows; its index is the first
    position of that card in the hand, its dice are the matcher's answer
    for the card's fixed cost (not empty, distinct, within the player's
    dice), its target is the active slot of the own side and the user is
    the active position. *)
Theorem card_action_is_well_formed
    (get_character_card : string -> CharacterCard) (player_id : PlayerID)
    (game_info : GameInfo) (character_info : CharacterInfo)
    (card_idx : nat) (card_target : list (PlayerID * EntityType * nat))
    (dice_idx : list nat) (card_user_pos : CharPos) :
  let player_info := get_player_info game_info in
  let card_data := get_character_card (name (character character_info)) in
  nth_error (characters player_info)
            (CharPos_value (active_character_position player_info))
    = Some character_info ->
  take_action_on_play_cards get_character_card player_id game_info
    = Return (UseCardAction card_idx card_target dice_idx card_user_pos) ->
  exists card cost target,
    In (card, cost, target) card_table /\
    nth_error (hand_cards player_info) card_idx = Some card /\
    (forall j, (j < card_idx)%nat ->
               nth_error (hand_cards player_info) j <> Some card) /\
    dice_idx = get_dice_idx_greedy (dice_zone player_info) cost
                                   (element_type card_data) /\
    dice_idx <> [] /\
    NoDup dice_idx /\
    Forall (fun i => (i < List.length (dice_zone player_info))%nat) dice_idx /\
    card_target =
      [(player_id, target,
        CharPos_value (active_character_position player_info))] /\
    card_user_pos = active_character_position player_info.
Proof.
  intros player_info card_data Hactive H.
  destruct (AttackProps.play_cards_action get_character_card player_id
              game_info character_info Hactive _ H) as (Hcard & _ & _).
  destruct Hcard as (card & cost & target & H1 & H2 & H3 & H4 & H5 & [H6 H7]
                     & H8 & H9).
  exists card, cost, target; conj; auto.
Qed.

(** X14 on a hand holding the sword after another card. *)
Lemma card_action_is_well_formed_witness :
  exists card cost target,
    In (card, cost, target) card_table /\
    nth_error ["Paimon"%string; Travelers_Handy_Sword] 1 = Some card /\
    [0; 1]%nat = get_dice_idx_greedy [PYRO; PYRO; HYDRO] cost CRYO.
Proof.
  destruct (card_action_is_well_formed Examples.lookup PLAYER1
              (mkGameInfo RUNNING PLAY_CARDS
                 (mkPlayerInfo [Examples.slot 10 true 0] LEFT
                    [PYRO; PYRO; HYDRO]
                    ["Paimon"%string; Travelers_Handy_Sword])
                 Examples.charged)
              (Examples.slot 10 true 0) 1%nat [(PLAYER1, WEAPON, 0%nat)]
              [0; 1]%nat LEFT eq_refl eq_refl)
    as (card & cost & target & H1 & H2 & _ & H4 & _).
  exists card, cost, target; conj; [exact H1 | exact H2 | exact H4].
Defined.

(** X15: a skill action returned by [take_action_on_play_cards] names a
    skill of the active character's card and carries the matcher's answer
    for that skill's cost (not empty, distinct, within the player's dice);
    it is used by the active position against the opponent's active
    character; and it is the elemental burst only when the character's
    stored energy equals the Power entry of the burst's cost. *)
Theorem skill_action_is_well_formed
    (get_character_card : string -> CharacterCard) (player_id : PlayerID)
    (game_info : GameInfo) (character_info : CharacterInfo)
    (user_position : CharPos) (skill_name : string) (dice_idx : list nat)
    (skill_targets : list (PlayerID * CharPos)) :
  let player_info := get_player_info game_info in
  let card_data := get_character_card (name (character character_info)) in
  nth_error (characters player_info)
            (CharPos_value (active_character_position player_info))
    = Some character_info ->
  take_action_on_play_cards get_character_card player_id game_info
    = Return (UseSkillAction user_position skill_name dice_idx skill_targets) ->
  (exists skill_type,
     skill_name = Skill.name (get_skill card_data skill_type) /\
     dice_idx = get_dice_idx_greedy (dice_zone player_info)
                  (Skill.costs (get_skill card_data skill_type))
                  (element_type card_data) /\
     (skill_type = ELEMENTAL_BURST ->
      cost_lookup POWER (Skill.costs (get_skill card_data ELEMENTAL_BURST))
        = Return (power (character character_info)))) /\
  dice_idx <> [] /\
  NoDup dice_idx /\
  Forall (fun i => (i < List.length (dice_zone player_info))%nat) dice_idx /\
  user_position = active_character_position player_info /\
  skill_targets =
    [(PlayerID_invert player_id,
      active_character_position (get_opponent_info game_info))].
Proof.
  intros player_info card_data Hactive H.
  destruct (AttackProps.play_cards_action get_character_card player_id
              game_info character_info Hactive _ H) as (_ & Hskill & _).
  destruct Hskill as ([Hnil|(t & H1 & H2 & _ & H4)] & H5 & [H6 H7] & H8 & H9);
    [simpl in Hnil; contradiction|].
  conj; auto.
  exists t; conj; auto.
Qed.

(** X15 on the charged snapshot: the burst is used. *)
Lemma skill_action_is_well_formed_witness :
  (exists skill_type,
     "Elemental Burst"%string =
       Skill.name (get_skill Examples.cryo_card skill_type) /\
     [0; 1; 2]%nat =
       get_dice_idx_greedy [CRYO; CRYO; CRYO]
         (Skill.costs (get_skill Examples.cryo_card skill_type)) CRYO) /\
  NoDup [0; 1; 2]%nat.
Proof.
  destruct (skill_action_is_well_formed Examples.lookup PLAYER1
              Examples.charged_info (Examples.slot 10 true 3)
              MIDDLE "Elemental Burst" [0; 1; 2]%nat [(PLAYER2, MIDDLE)]
              eq_refl eq_refl)
    as ((t & H1 & H2 & _) & _ & H3 & _).
  split; [exists t; split; [exact H1 | exact H2] | exact H3].
Defined.

(** X16: [take_action_on_play_cards] declares the end only when no skill
    can be paid: the matcher's answer is empty for the normal attack and
    for the elemental skill, and for the elemental burst too whenever the
    character's stored energy equals the Power entry of its cost. *)
Theorem end_declared_only_when_nothing_payable
    (get_character_card : string -> CharacterCard) (player_id : PlayerID)
    (game_info : GameInfo) (character_info : CharacterInfo) :
  let player_info := get_player_info game_info in
  let card_data := get_character_card (name (character character_info)) in
  let answer skill_type :=
    get_dice_idx_greedy (dice_zone player_info)
      (Skill.costs (get_skill card_data skill_type))
      (element_type card_data) in
  nth_error (characters player_info)
            (CharPos_value (active_character_position player_info))
    = Some character_info ->
  take_action_on_play_cards get_character_card player_id game_info
    = Return DeclareEndAction ->
  answer NORMAL_ATTACK = [] /\
  answer ELEMENTAL_SKILL = [] /\
  (cost_lookup POWER (Skill.costs (get_skill card_data ELEMENTAL_BURST))
     = Return (power (character character_info)) ->
   answer ELEMENTAL_BURST = []).
Proof.
  intros player_info card_data answer Hactive H.
  destruct (AttackProps.play_cards_action get_character_card player_id
              game_info character_info Hactive _ H) as (_ & _ & Hend).
  exact (Hend eq_refl).
Qed.

(** X16 on a charged character without dice. *)
Lemma end_declared_only_when_nothing_payable_witness :
  get_dice_idx_greedy [] [(CRYO, 1); (ANY, 2)] CRYO = [] /\
  get_dice_idx_greedy [] [(CRYO, 3)] CRYO = [] /\
  get_dice_idx_greedy [] [(CRYO, 3); (POWER, 3)] CRYO = [].
Proof.
  destruct (end_declared_only_when_nothing_payable Examples.lookup PLAYER1
              (mkGameInfo RUNNING PLAY_CARDS
                 (mkPlayerInfo [Examples.slot 10 true 3] LEFT [] [])
                 Examples.charged)
              (Examples.slot 10 true 3) eq_refl eq_refl) as (H1 & H2 & H3).
  conj; [exact H1 | exact H2 | exact (H3 eq_refl)].
Defined.

(** X17: the policy reads the Power entry of the burst's cost before it
    tries any skill.  For a healthy active character whose card has a
    burst cost without a Power entry, [take_action_on_play_cards] plays a
    hand card or raises [KeyError]; it never gets to a skill or to
    declaring the end, whatever the dice. *)
Theorem burst_without_power_entry_raises
    (get_character_card : string -> CharacterCard) (player_id : PlayerID)
    (game_info : GameInfo) (character_info : CharacterInfo) :
  let player_info := get_player_info game_info in
  let card_data := get_character_card (name (character character_info)) in
  nth_error (characters player_info)
            (CharPos_value (active_character_position player_info))
    = Some character_info ->
  0 < health_point (character character_info) ->
  cost_lookup POWER (Skill.costs (get_skill card_data ELEMENTAL_BURST))
    = Raise KeyError ->
  take_action_on_play_cards get_character_card player_id game_info
    = Raise KeyError \/
  exists card_idx card_target dice_idx card_user_pos,
    take_action_on_play_cards get_character_card player_id game_info
      = Return (UseCardAction card_idx card_target dice_idx card_user_pos).
Proof.
  intros player_info card_data Hactive Hhp Hkey.
  subst player_info card_data.
  unfold take_action_on_play_cards, play_cards_body.
  rewrite AttackProps.bind_snd.
  unfold index; rewrite Hactive; simpl lift; cbn [snd pass].
  rewrite AttackProps.bind_snd.
  assert (Hh : (health_point (character character_info) <=? 0) = false)
    by (apply Z.leb_gt; lia).
  rewrite Hh; cbn [snd pass].
  rewrite AttackProps.bind_snd.
  destruct (AttackProps.card_block_outcome get_character_card player_id
              game_info character_info
              Kanten_Senmyou_Blessing [(CRYO, 2)] CHARACTER [])
    as [(d1 & ->)|(i & tg & d & up & ->)]; [|right; eauto 6].
  rewrite AttackProps.bind_snd.
  destruct (AttackProps.card_block_outcome get_character_card player_id
              game_info character_info
              Travelers_Handy_Sword [(SAME, 2)] WEAPON d1)
    as [(d2 & ->)|(i & tg & d & up & ->)]; [|right; eauto 6].
  rewrite AttackProps.bind_snd.
  destruct (AttackProps.card_block_outcome get_character_card player_id
              game_info character_info
              Sacrificial_Sword [(SAME, 3)] WEAPON d2)
    as [(d3 & ->)|(i & tg & d & up & ->)]; [|right; eauto 6].
  rewrite AttackProps.bind_snd, Hkey; left; reflexivity.
Qed.

(** X17 on a card whose burst costs dice only. *)
Lemma burst_without_power_entry_raises_witness :
  take_action_on_play_cards
    (fun _ => mkCharacterCard CRYO (fun _ => Skill.mk "Strike" [(CRYO, 1)]))
    PLAYER1 Examples.charged_info = Raise KeyError \/
  exists card_idx card_target dice_idx card_user_pos,
    take_action_on_play_cards
      (fun _ => mkCharacterCard CRYO (fun _ => Skill.mk "Strike" [(CRYO, 1)]))
      PLAYER1 Examples.charged_info
      = Return (UseCardAction card_idx card_target dice_idx card_user_pos).
Proof.
  apply (burst_without_power_entry_raises
           (fun _ => mkCharacterCard CRYO (fun _ => Skill.mk "Strike" [(CRYO, 1)]))
           PLAYER1 Examples.charged_info (Examples.slot 10 true 3));
    [reflexivity | simpl; lia | reflexivity].
Defined.

(* ================================================================== *)
(** ** The empty selection at the matcher's interface *)

Module EmptySelection.

Section Unmatched.

Variable dice : list ElementType.
Variable char_element : ElementType.




End Unmatched.

Section Callers.

Variable get_character_card : string -> CharacterCard.
Variable player_id : PlayerID.
Variable game_info : GameInfo.
Variable character_info : CharacterInfo.

Let player_info := get_player_info game_info.
Let card_data := get_character_card (name (character character_info)).




End Callers.

End EmptySelection.



